(** * A shallow embedding of the edge cache layer of @tinloof/sanity-astro

    The modelled sources are the Cloudflare Cache API wrapper [cache.ts]
    (functions [parseCacheControl], [getCacheAge], [isFresh],
    [isStaleButValid], the tag and page indexes, [cachedFetch],
    [createCacheResponse], [purgeCacheByTags], [getCacheDebugInfo]), the purge route
    [live/purge-handler.ts] ([createPurgeHandler]) and the loader
    [loader.ts] ([setPageCacheHeaders], [collectPageTags], [loadQuery]).

    Modelling conventions.
    - JavaScript numbers reaching the cache layer are integers or NaN
      (they come from [parseInt], [Math.floor] and [Date.getTime]), so a
      number is [JNum z] or [JNaN]; every comparison with NaN is false.
    - The cache store is a [gmap] from request URL to stored response; a
      backend may be "failing", in which case every [match], [put] and
      [delete] rejects.
    - Asynchronous code is written in a state/error monad over a world;
      work handed to [ctx.waitUntil] is returned as a list of background
      tasks that the runtime runs after the foreground has answered.
    - [Date.now()] reads the world clock; time does not advance inside one
      foreground call. *)

From Stdlib Require Import ZArith String Ascii Bool Lia.
From stdpp Require Import base gmap strings list.

Open Scope string_scope.

(* ------------------------------------------------------------------ *)
(** ** JavaScript numbers *)

Inductive jsnum := JNum (z : Z) | JNaN.

Definition js_le (a b : jsnum) : bool :=
  match a, b with JNum x, JNum y => Z.leb x y | _, _ => false end.

Definition js_lt (a b : jsnum) : bool :=
  match a, b with JNum x, JNum y => Z.ltb x y | _, _ => false end.

Definition js_add (a b : jsnum) : jsnum :=
  match a, b with JNum x, JNum y => JNum (x + y) | _, _ => JNaN end.

(* ------------------------------------------------------------------ *)
(** ** JavaScript string helpers (ASCII) *)

(** [String.prototype.split] with a one-character separator. *)
Fixpoint split_on (c : ascii) (s : string) : list string :=
  match s with
  | EmptyString => [""]
  | String a s' =>
      let parts := split_on c s' in
      if Ascii.eqb a c then "" :: parts
      else match parts with
           | p :: ps => String a p :: ps
           | [] => [String a ""]
           end
  end.

(** White space removed by [trim] and skipped by [parseInt] (the ASCII and
    Latin-1 part of the ECMAScript WhiteSpace/LineTerminator sets). *)
Definition is_ws (a : ascii) : bool :=
  let n := nat_of_ascii a in
  (n =? 32)%nat || (n =? 9)%nat || (n =? 10)%nat || (n =? 11)%nat
  || (n =? 12)%nat || (n =? 13)%nat || (n =? 160)%nat.

Fixpoint trim_start (s : string) : string :=
  match s with
  | String a s' => if is_ws a then trim_start s' else s
  | EmptyString => EmptyString
  end.

Fixpoint trim_end (s : string) : string :=
  match s with
  | String a s' =>
      let r := trim_end s' in
      if String.eqb r "" && is_ws a then "" else String a r
  | EmptyString => EmptyString
  end.

Definition trim (s : string) : string := trim_end (trim_start s).

Definition lower_ascii (a : ascii) : ascii :=
  let n := nat_of_ascii a in
  if (65 <=? n)%nat && (n <=? 90)%nat then ascii_of_nat (n + 32) else a.

Fixpoint toLowerCase (s : string) : string :=
  match s with
  | String a s' => String (lower_ascii a) (toLowerCase s')
  | EmptyString => EmptyString
  end.

Definition is_digit (a : ascii) : bool :=
  let n := nat_of_ascii a in (48 <=? n)%nat && (n <=? 57)%nat.

Definition digit_val (a : ascii) : Z := Z.of_nat (nat_of_ascii a - 48).

(** Longest prefix of decimal digits: its value and its length. *)
Fixpoint read_digits (s : string) (acc : Z) (n : nat) : Z * nat :=
  match s with
  | String a s' =>
      if is_digit a then read_digits s' (acc * 10 + digit_val a) (S n)
      else (acc, n)
  | EmptyString => (acc, n)
  end.

Definition parse_unsigned (sign : Z) (s : string) : jsnum :=
  let '(v, n) := read_digits s 0 0 in
  if (n =? 0)%nat then JNaN else JNum (sign * v).

(** [parseInt(value, 10)]. *)
Definition parseInt10 (s : string) : jsnum :=
  match trim_start s with
  | String "-" r => parse_unsigned (-1) r
  | String "+" r => parse_unsigned 1 r
  | r => parse_unsigned 1 r
  end.

(** Decimal rendering of an integer, as in a template literal. *)
Fixpoint digits_of (fuel : nat) (n : Z) (acc : string) : string :=
  match fuel with
  | O => acc
  | S f =>
      let d := ascii_of_nat (Z.to_nat (n mod 10)%Z + 48) in
      let q := (n / 10)%Z in
      if Z.eqb q 0 then String d acc else digits_of f q (String d acc)
  end.

(** Drop the trailing ["0"]s of a digit string. *)
Fixpoint strip_zeros (s : string) : string :=
  match s with
  | EmptyString => EmptyString
  | String c s' =>
      let t := strip_zeros s' in
      if Ascii.eqb c "0" && String.eqb t "" then EmptyString else String c t
  end.

(** The exponent form [d.ddde+k] of the digit string [ds] of a number of
    at least 10^21, with no fraction part when the other digits are all 0. *)
Definition exp_form (ds : string) : string :=
  match ds with
  | String d rest =>
      let f := strip_zeros rest in
      String d ((if String.eqb f "" then "" else "." +:+ f) +:+ "e+"
                +:+ digits_of 64 (Z.of_nat (String.length rest)) "")
  | EmptyString => EmptyString
  end.

Definition num_str_abs (n : Z) : string :=
  if Z.ltb n (10 ^ 21) then digits_of 64 n ""
  else exp_form (digits_of (Z.to_nat (Z.log2 n) + 1) n "").

(** [String(z)] (as in a template literal) for an integer-valued number:
    plain decimal below 10^21 in magnitude, exponent form from 10^21 on
    ([1e+21], [1.5e+21]).  Above 10^21 JavaScript writes the shortest digit
    string that identifies the double nearest to [z]; this is the digit
    string of [z] itself whenever [z], without its trailing zeros, has at
    most 15 digits. *)
Definition js_num_str (z : Z) : string :=
  if Z.ltb z 0 then "-" +:+ num_str_abs (- z) else num_str_abs z.

Fixpoint join (sep : string) (l : list string) : string :=
  match l with
  | [] => ""
  | [x] => x
  | x :: xs => x +:+ sep +:+ join sep xs
  end.

(* ------------------------------------------------------------------ *)
(** ** Cache-Control parsing and freshness (cache.ts) *)

(** A directive value: [parseInt] result, or [true] for a bare name. *)
Inductive dval := DNum (n : jsnum) | DTrue.

Definition directive_of (part : string) (d : gmap string dval) : gmap string dval :=
  match split_on "=" (trim part) with
  | key :: value :: _ => <[toLowerCase key := DNum (parseInt10 value)]> d
  | key :: [] => <[toLowerCase key := DTrue]> d
  | [] => d
  end.

Definition parseCacheControl (header : option string) : gmap string dval :=
  match header with
  | None | Some "" => ∅
  | Some h => fold_left (fun d part => directive_of part d) (split_on "," h) ∅
  end.

(** [typeof directives[name] === 'number'] *)
Definition num_directive (d : gmap string dval) (name : string) : option jsnum :=
  match d !! name with Some (DNum n) => Some n | _ => None end.

(* ------------------------------------------------------------------ *)
(** ** Runtime services the code relies on *)

(** [new Date(s).getTime()] ([None] for an Invalid Date, i.e. NaN) and
    [new Date(ms).toISOString()]. *)
Class JsDate := {
  date_getTime : string -> option Z;
  date_toISOString : Z -> string
}.

(** [createCacheKey(query, params, prefix).url]: the URL
    [https://cache.internal/<prefix>?q=<query>&p=<JSON.stringify(params)>].
    URL serialisation and JSON encoding of the params are kept abstract;
    only the resulting string is used as a cache key. *)
Class KeyCodec (P : Type) := {
  createCacheKey : string -> P -> string -> string
}.

Definition CACHE_INTERNAL_URL : string := "https://cache.internal".
Definition TAG_INDEX_URL : string := CACHE_INTERNAL_URL +:+ "/__tag_index__".
Definition PAGE_INDEX_URL : string := CACHE_INTERNAL_URL +:+ "/__page_index__".

Definition DEFAULT_CACHE_MAX_AGE : Z := 60 * 60 * 24.
Definition DEFAULT_CACHE_SWR : Z := 60 * 60 * 24 * 7.
Definition DEFAULT_CACHE_KEY_PREFIX : string := "sanity".

(** Outcome of an asynchronous step: resolved value or rejection. *)
Inductive res (A : Type) := Ok (a : A) | Err (msg : string).
Arguments Ok {A} a.
Arguments Err {A} msg.

Section Cache.
Context {D U P : Type} `{JsDate} `{KeyCodec P}.

(** [CacheEntry<T>]: the JSON body of a query cache entry. *)
Record CacheEntry := mkEntry { ce_data : D; ce_tags : option (list string) }.

(** A tag index or page index: tag -> URLs. *)
Abbreviation TagIndex := (gmap string (list string)).

(** Body of a stored response, as read back by [response.json()]:
    - [BEntry e]: the JSON of a cache entry written by [createCacheResponse];
    - [BIndex ix]: the JSON of an index written by [updateTagIndex] /
      [updatePageIndex];
    - [BJson data]: any other JSON value found at a query key (an entry of
      an older layout holding the raw data, [{}], ...); [json()] resolves
      and [entry.data] reads as [data];
    - [BOther]: a body that is not JSON (page HTML, a truncated write), on
      which [json()] rejects.
    The code writes index JSON only at the two index keys and entry JSON
    only at query keys; a JSON value of the other kind at a key is read as
    a rejection here. *)
Inductive Body := BEntry (e : CacheEntry) | BIndex (ix : TagIndex) | BJson (data : D) | BOther.

(** A stored response: the two headers the code reads, and the body. *)
Record Response := mkResponse {
  r_x_cache_control : option string;
  r_x_cache_time : option string;
  r_body : Body
}.

Record Backend := mkBackend { b_store : gmap string Response; b_failing : bool }.

Inductive Event := EMatch (k : string) | EPut (k : string) | EDelete (k : string) | EFetch.

(** The world: [caches.default] (absent when [caches] is undefined), the
    clock in ms, the upstream answer to the n-th fetch, the number of
    fetches so far and a log of cache and upstream operations. *)
Record World := mkWorld {
  w_cache : option Backend;
  w_now : Z;
  w_upstream : nat -> res U;
  w_calls : nat;
  w_log : list Event
}.

Definition Task := World -> World.

(** State/error monad with background tasks. *)
Definition ST (S A : Type) := S -> res A * S * list Task.

Definition ret {S A} (a : A) : ST S A := fun s => (Ok a, s, []).
Definition throw {S A} (m : string) : ST S A := fun s => (Err m, s, []).
Definition bind {S A B} (m : ST S A) (k : A -> ST S B) : ST S B :=
  fun s => match m s with
           | (Ok a, s1, t1) => let '(r, s2, t2) := k a s1 in (r, s2, app t1 t2)
           | (Err e, s1, t1) => (Err e, s1, t1)
           end.

(** [try { m } catch { h }] *)
Definition try_catch {S A} (m : ST S A) (h : ST S A) : ST S A :=
  fun s => match m s with
           | (Ok a, s1, t1) => (Ok a, s1, t1)
           | (Err _, s1, t1) => let '(r, s2, t2) := h s1 in (r, s2, app t1 t2)
           end.

Notation "'let!' x := m 'in' k" := (bind m (fun x => k))
  (at level 200, x name, m at level 100, k at level 200).
Notation "'let!' ' p := m 'in' k" := (bind m (fun x => match x with p => k end))
  (at level 200, p pattern, m at level 100, k at level 200).

(** Result, final state and background tasks of a run. *)
Definition outcome {S A} (x : res A * S * list Task) : res A := fst (fst x).
Definition final {S A} (x : res A * S * list Task) : S := snd (fst x).
Definition tasks {S A} (x : res A * S * list Task) : list Task := snd x.

(** *** Primitive operations *)

Definition with_log (e : Event) (w : World) : World :=
  mkWorld (w_cache w) (w_now w) (w_upstream w) (w_calls w) (app (w_log w) [e]).

Definition with_store (st : gmap string Response) (w : World) : World :=
  match w_cache w with
  | Some b => mkWorld (Some (mkBackend st (b_failing b))) (w_now w) (w_upstream w)
                      (w_calls w) (w_log w)
  | None => w
  end.

(** [typeof caches !== 'undefined' && caches.default] *)
Definition caches_available : ST World bool :=
  fun w => (Ok (match w_cache w with Some _ => true | None => false end), w, []).

Definition cache_match (k : string) : ST World (option Response) :=
  fun w =>
    let w1 := with_log (EMatch k) w in
    match w_cache w with
    | None => (Err "caches is not defined", w1, [])
    | Some b => if b_failing b then (Err "cache.match failed", w1, [])
                else (Ok (b_store b !! k), w1, [])
    end.

Definition cache_put (k : string) (r : Response) : ST World unit :=
  fun w =>
    let w1 := with_log (EPut k) w in
    match w_cache w with
    | None => (Err "caches is not defined", w1, [])
    | Some b => if b_failing b then (Err "cache.put failed", w1, [])
                else (Ok tt, with_store (<[k := r]> (b_store b)) w1, [])
    end.

Definition cache_delete (k : string) : ST World bool :=
  fun w =>
    let w1 := with_log (EDelete k) w in
    match w_cache w with
    | None => (Err "caches is not defined", w1, [])
    | Some b => if b_failing b then (Err "cache.delete failed", w1, [])
                else (Ok (match b_store b !! k with Some _ => true | None => false end),
                      with_store (delete k (b_store b)) w1, [])
    end.

Definition Date_now : ST World Z := fun w => (Ok (w_now w), w, []).

(** One call of [fetchFn]: the next upstream answer, mapped by [f] to
    [{ data, tags }]. *)
Definition fetch_upstream (f : U -> D * option (list string))
    : ST World (D * option (list string)) :=
  fun w =>
    let n := w_calls w in
    let w1 := mkWorld (w_cache w) (w_now w) (w_upstream w) (S n) (app (w_log w) [EFetch]) in
    match w_upstream w n with
    | Ok u => (Ok (f u), w1, [])
    | Err e => (Err e, w1, [])
    end.

(** [ctx.waitUntil(promise)]: the promise is run by the runtime after the
    response; its outcome is dropped. *)
Definition waitUntil (m : ST World unit) : ST World unit :=
  fun w => (Ok tt, w, [fun w' => let '(_, w'', _) := m w' in w'']).

(** *** Freshness (cache.ts: getCacheAge, isFresh, isStaleButValid) *)

Definition getCacheAge (r : Response) (now : Z) : jsnum :=
  match r_x_cache_time r with
  | None | Some "" => JNum 0
  | Some t =>
      match date_getTime t with
      | Some cachedAt => JNum ((now - cachedAt) / 1000)
      | None => JNaN
      end
  end.

Definition isFresh (r : Response) (now : Z) : bool :=
  match r_x_cache_control r with
  | None | Some "" => false
  | Some _ =>
      let directives := parseCacheControl (r_x_cache_control r) in
      match num_directive directives "max-age" with
      | None => false
      | Some maxAge => js_le (getCacheAge r now) maxAge
      end
  end.

Definition isStaleButValid (r : Response) (now : Z) : bool :=
  match r_x_cache_control r with
  | None | Some "" => false
  | Some _ =>
      let directives := parseCacheControl (r_x_cache_control r) in
      match num_directive directives "max-age",
            num_directive directives "stale-while-revalidate" with
      | Some maxAge, Some swr =>
          let age := getCacheAge r now in
          js_lt maxAge age && js_le age (js_add maxAge swr)
      | _, _ => false
      end
  end.

(** [const entry = await response.json()], then [entry.data]. *)
Definition response_json_entry (r : Response) : ST World D :=
  match r_body r with
  | BEntry e => ret (ce_data e)
  | BJson d => ret d
  | _ => throw "SyntaxError"
  end.

Definition response_json_index (r : Response) : ST World TagIndex :=
  match r_body r with BIndex ix => ret ix | _ => throw "SyntaxError" end.

Definition createCacheResponse (entry : CacheEntry) (maxAge staleWhileRevalidate : Z)
    (now : Z) : Response :=
  mkResponse
    (Some ("max-age=" +:+ js_num_str maxAge +:+ ", stale-while-revalidate="
           +:+ js_num_str staleWhileRevalidate))
    (Some (date_toISOString now))
    (BEntry entry).

(** *** Tag index and page index *)

Definition index_response (ix : TagIndex) : Response := mkResponse None None (BIndex ix).

Definition getTagIndex : ST World TagIndex :=
  let! r := cache_match TAG_INDEX_URL in
  match r with None => ret ∅ | Some r => response_json_index r end.

Definition updateTagIndex (ix : TagIndex) : ST World unit :=
  cache_put TAG_INDEX_URL (index_response ix).

(** The members every object inherits from [Object.prototype]: an index
    read with [index[tag]] finds them when it has no own property [tag]. *)
Definition OBJECT_PROTOTYPE_KEYS : list string :=
  ["constructor"; "__defineGetter__"; "__defineSetter__"; "hasOwnProperty";
   "__lookupGetter__"; "__lookupSetter__"; "isPrototypeOf"; "propertyIsEnumerable";
   "toString"; "valueOf"; "__proto__"; "toLocaleString"].

(** What [index[tag]] evaluates to: the own list of the index, a member
    inherited from [Object.prototype] (a function or [Object.prototype]
    itself: truthy, not iterable, without an [includes] method), or
    [undefined].  [JSON.parse] makes every key of the stored JSON an own
    property, ["__proto__"] included. *)
Inductive Lookup := LOwn (l : list string) | LInherited | LMissing.

Definition index_get (ix : TagIndex) (tag : string) : Lookup :=
  match ix !! tag with
  | Some l => LOwn l
  | None => if existsb (String.eqb tag) OBJECT_PROTOTYPE_KEYS then LInherited else LMissing
  end.

(** [if (!index[tag].includes(url)) index[tag].push(url)] on the list of a tag. *)
Definition index_upd (url : string) (l : list string) : list string :=
  if existsb (String.eqb url) l then l else app l [url].

(** The loop of [addToTagIndex] / [addToPageIndex]:
    [if (!index[tag]) index[tag] = []] then the [includes]/[push] step.  An
    inherited member is truthy, so the loop calls its [includes], which
    throws. *)
Fixpoint index_add (url : string) (ix : TagIndex) (tags : list string) : res TagIndex :=
  match tags with
  | [] => Ok ix
  | tag :: rest =>
      match index_get ix tag with
      | LOwn l => index_add url (<[tag := index_upd url l]> ix) rest
      | LMissing => index_add url (<[tag := index_upd url []]> ix) rest
      | LInherited => Err "TypeError: index[tag].includes is not a function"
      end
  end.

Definition addToTagIndex (cacheKeyUrl : string) (tags : list string) : ST World unit :=
  let! ix := getTagIndex in
  match index_add cacheKeyUrl ix tags with
  | Ok ix' => updateTagIndex ix'
  | Err m => throw m
  end.

Definition getPageIndex : ST World TagIndex :=
  let! r := cache_match PAGE_INDEX_URL in
  match r with None => ret ∅ | Some r => response_json_index r end.

Definition updatePageIndex (ix : TagIndex) : ST World unit :=
  cache_put PAGE_INDEX_URL (index_response ix).

Definition addToPageIndex (pageUrl : string) (tags : list string) : ST World unit :=
  let! ix := getPageIndex in
  match index_add pageUrl ix tags with
  | Ok ix' => updatePageIndex ix'
  | Err m => throw m
  end.

(** [tags?.length] is truthy *)
Definition has_tags (tags : option (list string)) : bool :=
  match tags with Some (_ :: _) => true | _ => false end.

Definition registerPageWithTags (ctx : bool) (pageUrl : string) (tags : option (list string))
    : ST World unit :=
  if negb ctx || negb (has_tags tags) then ret tt else
  let! avail := caches_available in
  if negb avail then ret tt else
  waitUntil (try_catch (addToPageIndex pageUrl (default [] tags)) (ret tt)).

(** *** Query cache (cache.ts: cachedFetch) *)

Record CacheOptions := mkCacheOptions {
  co_maxAge : option Z;
  co_staleWhileRevalidate : option Z;
  co_keyPrefix : option string
}.

Inductive CacheStatus := HIT | MISS | STALE.

Record CacheResult := mkResult { cr_data : D; cr_status : CacheStatus; cr_age : option jsnum }.

(** The write of the MISS path and of the background revalidation:
    [cache.put] then, if [tags?.length], [addToTagIndex]. *)
Definition write_entry (cacheKeyUrl : string) (response : Response)
    (tags : option (list string)) : ST World unit :=
  let! _ := cache_put cacheKeyUrl response in
  if has_tags tags then addToTagIndex cacheKeyUrl (default [] tags) else ret tt.

Definition cachedFetch (ctx : bool) (query : string) (params : P)
    (f : U -> D * option (list string)) (options : CacheOptions) : ST World CacheResult :=
  let maxAge := default DEFAULT_CACHE_MAX_AGE (co_maxAge options) in
  let staleWhileRevalidate := default DEFAULT_CACHE_SWR (co_staleWhileRevalidate options) in
  let keyPrefix := default DEFAULT_CACHE_KEY_PREFIX (co_keyPrefix options) in
  let fetchFn := fetch_upstream f in
  let direct := (let! '(data, _) := fetchFn in ret (mkResult data MISS None)) in
  if negb ctx then direct else
  let! avail := caches_available in
  if negb avail then direct else
  let cacheKeyUrl := createCacheKey query params keyPrefix in
  try_catch
    (let! cachedResponse := cache_match cacheKeyUrl in
     let miss :=
       (let! '(data, tags) := fetchFn in
        let! now := Date_now in
        let response := createCacheResponse (mkEntry data tags) maxAge staleWhileRevalidate now in
        let! _ := waitUntil (write_entry cacheKeyUrl response tags) in
        ret (mkResult data MISS None)) in
     match cachedResponse with
     | Some r =>
         let! now := Date_now in
         let age := getCacheAge r now in
         let! data := response_json_entry r in
         let! now1 := Date_now in
         if isFresh r now1 then ret (mkResult data HIT (Some age)) else
         let! now2 := Date_now in
         if isStaleButValid r now2 then
           let! _ := waitUntil
             (try_catch
               (let! '(freshData, tags) := fetchFn in
                let! now3 := Date_now in
                let response :=
                  createCacheResponse (mkEntry freshData tags) maxAge staleWhileRevalidate now3 in
                write_entry cacheKeyUrl response tags)
               (ret tt)) in
           ret (mkResult data STALE (Some age))
         else miss
     | None => miss
     end)
    direct.

(** *** Purging (cache.ts: purgeCacheByTags) *)

Record PurgeCacheResult := mkPurge {
  purgedQueryKeys : list string;
  purgedPageUrls : list string;
  purgedTags : list string
}.

(** The purge keeps the [result] object next to the world: a rejection in
    the middle returns whatever [result] holds at that point. *)
Definition onW {R A} (m : ST World A) : ST (R * World) A :=
  fun s => let '(r, w) := s in let '(x, w', ts) := m w in (x, (r, w'), ts).

Definition modR {R} (g : R -> R) : ST (R * World) unit :=
  fun s => let '(r, w) := s in (Ok tt, (g r, w), []).

(** [Set.add] on an insertion-ordered set of strings. *)
Definition set_add (k : string) (acc : list string) : list string :=
  if existsb (String.eqb k) acc then acc else app acc [k].

(** [for (const url of index[tag]) { if (await cache.delete(url)) set.add(url) }] *)
Fixpoint delete_listed (ks : list string) (acc : list string) : ST World (list string) :=
  match ks with
  | [] => ret acc
  | k :: ks' =>
      let! deleted := cache_delete k in
      delete_listed ks' (if deleted then set_add k acc else acc)
  end.

Fixpoint purge_query_loop (tags : list string) (tagIndex : TagIndex) (acc : list string)
    : ST (PurgeCacheResult * World) (TagIndex * list string) :=
  match tags with
  | [] => ret (tagIndex, acc)
  | tag :: rest =>
      match index_get tagIndex tag with
      | LOwn ks =>
          let! _ := modR (fun r => mkPurge (purgedQueryKeys r) (purgedPageUrls r)
                                           (app (purgedTags r) [tag])) in
          let! acc' := onW (delete_listed ks acc) in
          purge_query_loop rest (delete tag tagIndex) acc'
      | LInherited =>
          let! _ := modR (fun r => mkPurge (purgedQueryKeys r) (purgedPageUrls r)
                                           (app (purgedTags r) [tag])) in
          throw "TypeError: tagIndex[tag] is not iterable"
      | LMissing => purge_query_loop rest tagIndex acc
      end
  end.

Fixpoint purge_page_loop (tags : list string) (pageIndex : TagIndex) (acc : list string)
    : ST World (TagIndex * list string) :=
  match tags with
  | [] => ret (pageIndex, acc)
  | tag :: rest =>
      match index_get pageIndex tag with
      | LOwn urls =>
          let! acc' := delete_listed urls acc in
          purge_page_loop rest (delete tag pageIndex) acc'
      | LInherited => throw "TypeError: pageIndex[tag] is not iterable"
      | LMissing => purge_page_loop rest pageIndex acc
      end
  end.

Definition purge_body (tags : list string) : ST (PurgeCacheResult * World) unit :=
  let! tagIndex := onW getTagIndex in
  let! '(tagIndex', qkeys) := purge_query_loop tags tagIndex [] in
  let! _ := modR (fun r => mkPurge qkeys (purgedPageUrls r) (purgedTags r)) in
  let! _ := onW (updateTagIndex tagIndex') in
  let! pageIndex := onW getPageIndex in
  let! '(pageIndex', pkeys) := onW (purge_page_loop tags pageIndex []) in
  let! _ := modR (fun r => mkPurge (purgedQueryKeys r) pkeys (purgedTags r)) in
  onW (updatePageIndex pageIndex').

Definition purgeCacheByTags (tags : list string) : ST World PurgeCacheResult :=
  fun w =>
    let result := mkPurge [] [] [] in
    match w_cache w with
    | None => (Ok result, w, [])
    | Some _ =>
        let '(_, (r, w'), ts) := try_catch (purge_body tags) (ret tt) (result, w) in
        (Ok r, w', ts)
    end.

(** *** Debug information (cache.ts: getCacheDebugInfo) *)

Record CacheDebugInfo := mkDebugInfo {
  di_available : bool;
  di_tagIndex : TagIndex;
  di_tagCount : nat;
  di_keyCount : nat;
  di_pageIndex : option TagIndex;
  di_pageTagCount : option nat;
  di_pageUrlCount : option nat
}.

(** [for (const keys of Object.values(index)) for (const key of keys) set.add(key)] *)
Definition collect_values (ix : TagIndex) : list string :=
  fold_left (fun acc kv => fold_left (fun s k => set_add k s) (snd kv) acc) (map_to_list ix) [].

(** No [try]: a rejection of [cache.match] or of [json()] propagates. *)
Definition getCacheDebugInfo : ST World CacheDebugInfo :=
  let! avail := caches_available in
  if negb avail then ret (mkDebugInfo false ∅ 0 0 None None None) else
  let! tagIndex := getTagIndex in
  let allKeys := collect_values tagIndex in
  let! pageIndex := getPageIndex in
  let allPageUrls := collect_values pageIndex in
  ret (mkDebugInfo true tagIndex (size tagIndex) (length allKeys)
         (Some pageIndex) (Some (size pageIndex)) (Some (length allPageUrls))).

(** Runs the background tasks handed to [waitUntil], in order. *)
Definition run_tasks (ts : list Task) (w : World) : World :=
  fold_left (fun w t => t w) ts w.

End Cache.

Notation "'let!' x := m 'in' k" := (bind m (fun x => k))
  (at level 200, x name, m at level 100, k at level 200).
Notation "'let!' ' p := m 'in' k" := (bind m (fun x => match x with p => k end))
  (at level 200, p pattern, m at level 100, k at level 200).

(* ------------------------------------------------------------------ *)
(** ** Purge endpoint (live/purge-handler.ts: createPurgeHandler) *)

(** A value produced by [request.json()]. *)
Inductive json :=
| JSNull
| JSBool (b : bool)
| JSNumber (n : jsnum)
| JSString (s : string)
| JSArray (l : list json)
| JSObject (fields : list (string * json)).

(** Own field of a parsed object; with duplicate names the last one wins,
    as in [JSON.parse]. *)
Fixpoint last_field (fs : list (string * json)) (k : string) : option json :=
  match fs with
  | [] => None
  | (k', v) :: rest =>
      match last_field rest k with
      | Some x => Some x
      | None => if String.eqb k k' then Some v else None
      end
  end.

(** [body[k]] for the two names the handler reads, [tags] and [eventId]:
    a TypeError on [null], [undefined] on the other primitives and on
    arrays (none of them has such a property). *)
Definition get_field (v : json) (k : string) : res (option json) :=
  match v with
  | JSNull => Err ("Cannot read properties of null (reading '" +:+ k +:+ "')")
  | JSObject fs => Ok (last_field fs k)
  | _ => Ok None
  end.

(** [tags.filter(tag => typeof tag === 'string' && tag.length > 0)] *)
Fixpoint filter_tags (l : list json) : list string :=
  match l with
  | [] => []
  | JSString s :: rest =>
      if (0 <? String.length s)%nat then s :: filter_tags rest else filter_tags rest
  | _ :: rest => filter_tags rest
  end.

(** The request as the handler sees it: its method and the outcome of
    [request.json()] (a rejection when the body is not JSON). *)
Record HttpRequest := mkRequest { req_method : string; req_json : res json }.

(** [jsonResponse(body, status)]: the status and the [PurgeResponse] body. *)
Record PurgeResponse := mkPurgeResponse {
  pr_status : Z;
  pr_success : bool;
  pr_purgedKeys : list string;
  pr_purgedQueryKeys : list string;
  pr_purgedPageUrls : list string;
  pr_purgedTags : list string;
  pr_eventId : option json;
  pr_error : option string
}.

Definition failure_response (status : Z) (msg : string) : PurgeResponse :=
  mkPurgeResponse status false [] [] [] [] None (Some msg).

Section Handler.
Context {D U : Type}.

Definition lift_res {S A} (r : res A) : @ST D U S A :=
  match r with Ok a => ret a | Err m => throw m end.

(** [!body.tags || !Array.isArray(body.tags)] lets exactly the arrays
    through (an array is truthy). A rejection inside the [try] becomes a
    500 response carrying its message. *)
Definition createPurgeHandler (request : HttpRequest) : ST (@World D U) PurgeResponse :=
  if negb (String.eqb (req_method request) "POST")
  then ret (failure_response 405 "Method not allowed. Use POST.")
  else fun w =>
    match
      (let! body := lift_res (req_json request) in
       let! t := lift_res (get_field body "tags") in
       match t with
       | Some (JSArray l) =>
           let tags := filter_tags l in
           if (length tags =? 0)%nat then
             let! eventId := lift_res (get_field body "eventId") in
             ret (mkPurgeResponse 200 true [] [] [] [] eventId None)
           else
             let! result := purgeCacheByTags tags in
             let! eventId := lift_res (get_field body "eventId") in
             ret (mkPurgeResponse 200 true (purgedQueryKeys result) (purgedQueryKeys result)
                    (purgedPageUrls result) (purgedTags result) eventId None)
       | _ => ret (failure_response 400 "Missing or invalid tags array")
       end) w
    with
    | (Ok r, w', ts) => (Ok r, w', ts)
    | (Err msg, w', ts) => (Ok (failure_response 500 msg), w', ts)
    end.

End Handler.

(* ------------------------------------------------------------------ *)
(** ** Page cache headers and loadQuery (loader.ts) *)

Definition DEFAULT_PAGE_CACHE_MAX_AGE : Z := 3600.
Definition DEFAULT_PAGE_CACHE_SWR : Z := 86400.
Definition DEFAULT_BROWSER_CACHE_MAX_AGE : Z := 60.
Definition NO_CACHE_ROUTE_PREFIXES : list string := ["/api/"; "/cms/"; "/_astro/"].
Definition VISUAL_EDITING_ENABLED : string := "sanity-visual-editing".
Definition LAST_LIVE_EVENT_ID_COOKIE : string := "sanity-live-event-id".

Record PageCacheOptions := mkPageCacheOptions {
  pc_maxAge : option Z;
  pc_staleWhileRevalidate : option Z;
  pc_browserMaxAge : option Z;
  pc_disabled : option bool
}.

(** The fields of [Astro.locals] the loader uses: [__sanityPageTags],
    [__sanityPageCacheSet === true], [__sanityLastLiveEventId], and whether
    [locals.ctx ?? locals.runtime?.ctx] is an execution context. *)
Record Locals := mkLocals {
  l_sanityPageTags : option (list string);
  l_sanityPageCacheSet : bool;
  l_sanityLastLiveEventId : option string;
  l_ctx : bool
}.

(** The parts of [Astro] the loader uses; [a_headers] is
    [Astro.response?.headers], keyed by lower-case header name. *)
Record AstroGlobal := mkAstro {
  a_cookies : gmap string string;
  a_pathname : string;
  a_href : string;
  a_headers : option (gmap string string);
  a_locals : option Locals
}.

Definition with_headers (h : gmap string string) (a : AstroGlobal) : AstroGlobal :=
  mkAstro (a_cookies a) (a_pathname a) (a_href a) (Some h) (a_locals a).

Definition with_locals (l : option Locals) (a : AstroGlobal) : AstroGlobal :=
  mkAstro (a_cookies a) (a_pathname a) (a_href a) (a_headers a) l.

(** [Headers.set]: names are case-insensitive. *)
Definition headers_set (name value : string) (h : gmap string string) : gmap string string :=
  <[toLowerCase name := value]> h.

Definition shouldSkipPageCache (a : AstroGlobal) : bool :=
  existsb (fun prefix => String.prefix prefix (a_pathname a)) NO_CACHE_ROUTE_PREFIXES.

Definition hasPageCacheHeadersSet (locals : option Locals) : bool :=
  match locals with None => false | Some l => l_sanityPageCacheSet l end.

Definition markPageCacheHeadersSet (locals : option Locals) : option Locals :=
  match locals with
  | None => None
  | Some l => Some (mkLocals (l_sanityPageTags l) true (l_sanityLastLiveEventId l) (l_ctx l))
  end.

Definition setPageCacheHeaders (a : AstroGlobal) (tags : list string)
    (options : PageCacheOptions) : AstroGlobal :=
  match a_headers a with
  | None => a
  | Some h =>
      if hasPageCacheHeadersSet (a_locals a) then a else
      if default false (pc_disabled options) then a else
      if shouldSkipPageCache a then a else
      let maxAge := default DEFAULT_PAGE_CACHE_MAX_AGE (pc_maxAge options) in
      let swr := default DEFAULT_PAGE_CACHE_SWR (pc_staleWhileRevalidate options) in
      let browserMaxAge := default DEFAULT_BROWSER_CACHE_MAX_AGE (pc_browserMaxAge options) in
      let h1 := headers_set "CDN-Cache-Control"
                  ("public, max-age=" +:+ js_num_str maxAge +:+ ", stale-while-revalidate="
                   +:+ js_num_str swr) h in
      let h2 := headers_set "Cache-Control"
                  ("public, max-age=" +:+ js_num_str browserMaxAge +:+ ", must-revalidate") h1 in
      let h3 := if (0 <? length tags)%nat then headers_set "X-Sanity-Tags" (join "," tags) h2
                else h2 in
      with_locals (markPageCacheHeadersSet (a_locals a)) (with_headers h3 a)
  end.

(** [collectPageTags(locals, tags)]: the updated locals and the tags of
    the page so far. *)
Definition collectPageTags (locals : option Locals) (tags : option (list string))
    : option Locals * list string :=
  match locals with
  | None => (locals, [])
  | Some l =>
      if negb (has_tags tags) then (locals, []) else
      let allTags := default [] (l_sanityPageTags l) in
      let newTags := filter (fun tag => negb (existsb (String.eqb tag) allTags)) (default [] tags) in
      if (0 <? length newTags)%nat then
        let combined := app allTags newTags in
        (Some (mkLocals (Some combined) (l_sanityPageCacheSet l)
                        (l_sanityLastLiveEventId l) (l_ctx l)), combined)
      else (locals, allTags)
  end.

(** A string-valued [x] used as a condition. *)
Definition str_truthy (x : option string) : bool :=
  match x with Some s => negb (String.eqb s "") | None => false end.

Definition isVisualEditingEnabled (a : AstroGlobal) : bool :=
  match a_cookies a !! VISUAL_EDITING_ENABLED with
  | Some v => String.eqb v "true"
  | None => false
  end.

Inductive QueryCacheOption := QCOff | QCDefault | QCOptions (o : CacheOptions).
Inductive PageCacheOption := PCOff | PCDefault | PCOptions (o : PageCacheOptions).

(** The parts of [initSanity]'s config the loader reads; the token only
    chooses the perspective. *)
Record InitSanityConfig := mkInitConfig {
  cfg_cache : option CacheOptions;
  cfg_pageCache : option PageCacheOptions;
  cfg_token : option string
}.

(** Object spread [{...a, ...b}] on optional fields. *)
Definition override {X} (a b : option X) : option X :=
  match b with Some _ => b | None => a end.

Definition merge_cache_options (a : CacheOptions) (b : option CacheOptions) : CacheOptions :=
  match b with
  | None => a
  | Some b => mkCacheOptions (override (co_maxAge a) (co_maxAge b))
                (override (co_staleWhileRevalidate a) (co_staleWhileRevalidate b))
                (override (co_keyPrefix a) (co_keyPrefix b))
  end.

Definition merge_page_options (a : PageCacheOptions) (b : option PageCacheOptions)
    : PageCacheOptions :=
  match b with
  | None => a
  | Some b => mkPageCacheOptions (override (pc_maxAge a) (pc_maxAge b))
                (override (pc_staleWhileRevalidate a) (pc_staleWhileRevalidate b))
                (override (pc_browserMaxAge a) (pc_browserMaxAge b))
                (override (pc_disabled a) (pc_disabled b))
  end.

Definition DEFAULT_CACHE_OPTIONS : CacheOptions :=
  mkCacheOptions (Some DEFAULT_CACHE_MAX_AGE) (Some DEFAULT_CACHE_SWR)
                 (Some DEFAULT_CACHE_KEY_PREFIX).

Definition DEFAULT_PAGE_CACHE_OPTIONS : PageCacheOptions :=
  mkPageCacheOptions (Some DEFAULT_PAGE_CACHE_MAX_AGE) (Some DEFAULT_PAGE_CACHE_SWR)
                     (Some DEFAULT_BROWSER_CACHE_MAX_AGE) (Some false).

(** The answer of [client.fetch] with [filterResponse: false]. *)
Record SanityResponse (T : Type) := mkSanityResponse {
  sr_result : T;
  sr_syncTags : option (list string)
}.
Arguments mkSanityResponse {T} sr_result sr_syncTags.
Arguments sr_result {T} _.
Arguments sr_syncTags {T} _.

Inductive Perspective := published | drafts.

(** [cacheStatus]: one of the query cache's statuses, or [BYPASS]. *)
Inductive LoadStatus := LoadCached (s : CacheStatus) | BYPASS.

(** [LoadQueryResult<T>] without the timing field [ms]. *)
Record LoadQueryResult (T : Type) := mkLoadQueryResult {
  lq_data : T;
  lq_perspective : Perspective;
  lq_cacheStatus : LoadStatus;
  lq_cacheAge : option jsnum;
  lq_tags : option (list string)
}.
Arguments mkLoadQueryResult {T} lq_data lq_perspective lq_cacheStatus lq_cacheAge lq_tags.
Arguments lq_data {T} _.
Arguments lq_perspective {T} _.
Arguments lq_cacheStatus {T} _.
Arguments lq_cacheAge {T} _.
Arguments lq_tags {T} _.

Section Loader.
Context {T P : Type} `{JsDate} `{KeyCodec P}.

Local Abbreviation SR := (SanityResponse T).
Local Abbreviation LW := (@World SR SR).
Local Abbreviation LST := (@ST SR SR (AstroGlobal * LW)).

(** [fetchFromSanity]: [{ data: response, tags: response.syncTags }]. *)
Definition split_response (r : SR) : SR * option (list string) := (r, sr_syncTags r).

Definition writeToCache (query : string) (params : P) (data : SR) (tags : option (list string))
    (options : CacheOptions) : @ST SR SR LW unit :=
  let! avail := caches_available in
  if negb avail then ret tt else
  let cacheKey := createCacheKey query params (default DEFAULT_CACHE_KEY_PREFIX (co_keyPrefix options)) in
  let! now := Date_now in
  let cacheResponse := createCacheResponse (mkEntry data tags)
                         (default DEFAULT_CACHE_MAX_AGE (co_maxAge options))
                         (default DEFAULT_CACHE_SWR (co_staleWhileRevalidate options)) now in
  write_entry cacheKey cacheResponse tags.

Definition getAstro : LST AstroGlobal := fun s => (Ok (fst s), s, []).

(** [Astro.locals?.__sanityLastLiveEventId] *)
Definition locals_lastLiveEventId (a : AstroGlobal) : option string :=
  match a_locals a with Some l => l_sanityLastLiveEventId l | None => None end.

(** The [lastLiveEventId] block: from locals, else from the cookie, which
    is then copied to locals (a TypeError when there are no locals) and
    deleted. *)
Definition readLastLiveEventId : LST (option string) :=
  fun s =>
    let '(a, w) := s in
    let fromLocals := locals_lastLiveEventId a in
    if str_truthy fromLocals then (Ok fromLocals, s, []) else
    let c := a_cookies a !! LAST_LIVE_EVENT_ID_COOKIE in
    if str_truthy c then
      match a_locals a with
      | None => (Err "Cannot set properties of undefined (setting '__sanityLastLiveEventId')", s, [])
      | Some l =>
          (Ok c, (mkAstro (delete LAST_LIVE_EVENT_ID_COOKIE (a_cookies a)) (a_pathname a) (a_href a)
                    (a_headers a) (Some (mkLocals (l_sanityPageTags l) (l_sanityPageCacheSet l) c (l_ctx l))),
                  w), [])
      end
    else (Ok c, s, []).

(** [catch (error) { throw new Error(`[Sanity Loader] Failed to fetch: ...`) }] *)
Definition rethrow {S A} (m : @ST SR SR S A) : @ST SR SR S A :=
  fun s => match m s with
           | (Err e, s1, t1) => (Err ("[Sanity Loader] Failed to fetch: " +:+ e), s1, t1)
           | x => x
           end.

Definition loadQuery (config : InitSanityConfig) (query : string) (params : P)
    (cacheOption : QueryCacheOption) (pageCacheOption : PageCacheOption)
    : LST (LoadQueryResult T) :=
  let! a := getAstro in
  let visualEditing := isVisualEditingEnabled a in
  let! lastLiveEventId := readLastLiveEventId in
  let perspective := if visualEditing && str_truthy (cfg_token config) then drafts else published in
  let ctx := match a_locals a with Some l => l_ctx l | None => false end in
  let mergedCacheOptions :=
    merge_cache_options (merge_cache_options DEFAULT_CACHE_OPTIONS (cfg_cache config))
      (match cacheOption with QCOptions o => Some o | _ => None end) in
  let globalPageCacheOptions := merge_page_options DEFAULT_PAGE_CACHE_OPTIONS (cfg_pageCache config) in
  let mergedPageCacheOptions :=
    match pageCacheOption with
    | PCOff => merge_page_options globalPageCacheOptions
                 (Some (mkPageCacheOptions None None None (Some true)))
    | PCOptions o => merge_page_options globalPageCacheOptions (Some o)
    | PCDefault => globalPageCacheOptions
    end in
  let shouldCache := negb visualEditing && negb (str_truthy lastLiveEventId)
                     && match cacheOption with QCOff => false | _ => true end in
  let shouldSetPageHeaders := negb visualEditing && negb (default false (pc_disabled mergedPageCacheOptions)) in
  let fetchFromSanity := fetch_upstream split_response in
  let! '(result, cacheStatus, cacheAge, tags) :=
    rethrow
      (if shouldCache then
         let! cacheResult := onW (cachedFetch ctx query params split_response mergedCacheOptions) in
         ret (sr_result (cr_data cacheResult), LoadCached (cr_status cacheResult),
              cr_age cacheResult, sr_syncTags (cr_data cacheResult))
       else
         let! '(response, responseTags) := onW fetchFromSanity in
         let! avail := onW caches_available in
         let! _ := if negb visualEditing && ctx && avail
                   then onW (waitUntil (writeToCache query params response responseTags mergedCacheOptions))
                   else ret tt in
         ret (sr_result response, BYPASS, None, responseTags)) in
  let! a2 := getAstro in
  let '(locals', allPageTags) := collectPageTags (a_locals a2) tags in
  let! _ := modR (with_locals locals') in
  let! _ := if shouldSetPageHeaders && (0 <? length allPageTags)%nat
            then modR (fun a => setPageCacheHeaders a allPageTags mergedPageCacheOptions)
            else ret tt in
  let! _ := if shouldSetPageHeaders && has_tags tags && ctx
            then onW (registerPageWithTags ctx (a_href a) tags)
            else ret tt in
  ret (mkLoadQueryResult result perspective cacheStatus cacheAge tags).

End Loader.

(* ------------------------------------------------------------------ *)
(** ** Concrete runtime used to evaluate the model on examples *)

(** Timestamps written as a decimal millisecond count. *)
Definition demo_getTime (s : string) : option Z :=
  match read_digits s 0 0 with
  | (v, n) => if (n =? 0)%nat || negb (n =? String.length s)%nat then None else Some v
  end.

#[export] Instance demo_date : JsDate := {|
  date_getTime := demo_getTime;
  date_toISOString := js_num_str
|}.

(** Query keys [https://cache.internal/<prefix>?q=<query>] for queries
    without params. *)
#[export] Instance demo_keys : KeyCodec unit := {|
  createCacheKey := fun q _ prefix => CACHE_INTERNAL_URL +:+ "/" +:+ prefix +:+ "?q=" +:+ q
|}.

(* ------------------------------------------------------------------ *)
(** ** Views of runs used by the statements *)

(** Strings all of whose characters satisfy [p]; the characters a
    number is rendered with; characters that end no header field. *)
Fixpoint all_chars (p : ascii -> bool) (s : string) : bool :=
  match s with EmptyString => true | String a s' => p a && all_chars p s' end.

Definition num_char (a : ascii) : bool :=
  is_digit a || Ascii.eqb a "-" || Ascii.eqb a "." || Ascii.eqb a "e" || Ascii.eqb a "+".

Definition plain_char (a : ascii) : bool :=
  negb (Ascii.eqb a ",") && negb (Ascii.eqb a "=") && negb (is_ws a).

Section Views.
Context {D U P : Type} `{JsDate} `{KeyCodec P}.
Local Abbreviation STW A := (@ST D U (@World D U) A).

(** Cache and clock operations never call [fetchFn]. *)
Definition no_fetch {A} (m : STW A) : Prop := forall w, w_calls (final (m w)) = w_calls w.

(** The stored entry at the key of the call, on a working backend. *)
Definition entry_at (q : string) (p : P) (opts : CacheOptions) (w : @World D U) (r : @Response D) : Prop :=
  exists b, w_cache w = Some b /\ b_failing b = false /\
    b_store b !! createCacheKey q p (default DEFAULT_CACHE_KEY_PREFIX (co_keyPrefix opts)) = Some r.

Definition store_of (w : @World D U) : gmap string (@Response D) :=
  match w_cache w with Some b => b_store b | None => ∅ end.

Definition ok_world (w : @World D U) : Prop :=
  exists b, w_cache w = Some b /\ b_failing b = false.

Definition del_all (ks : list string) (st : gmap string (@Response D)) : gmap string (@Response D) :=
  fold_left (fun st k => delete k st) ks st.

(** Keys visited by the purge loop over [tags] on index [ix], and the index
    left at the end (or when the loop stops at an inherited member). *)
Fixpoint loop_keys (tags : list string) (ix : gmap string (list string))
    : list string * gmap string (list string) :=
  match tags with
  | [] => ([], ix)
  | tag :: rest =>
      match index_get ix tag with
      | LOwn ks => let '(l, ix') := loop_keys rest (delete tag ix) in (app ks l, ix')
      | LInherited => ([], ix)
      | LMissing => loop_keys rest ix
      end
  end.

(** Whether the purge loop meets an inherited member and throws. *)
Fixpoint loop_throws (tags : list string) (ix : gmap string (list string)) : bool :=
  match tags with
  | [] => false
  | tag :: rest =>
      match index_get ix tag with
      | LOwn _ => loop_throws rest (delete tag ix)
      | LInherited => true
      | LMissing => loop_throws rest ix
      end
  end.

(** Requested tags the query loop pushes to [purgedTags], in order. *)
Fixpoint found_tags (tags : list string) (ix : gmap string (list string)) : list string :=
  match tags with
  | [] => []
  | tag :: rest =>
      match index_get ix tag with
      | LOwn _ => tag :: found_tags rest (delete tag ix)
      | LInherited => [tag]
      | LMissing => found_tags rest ix
      end
  end.

(** The loop of [addToTagIndex] when no tag meets an inherited member. *)
Definition index_extend (url : string) (ix : gmap string (list string)) (tags : list string)
    : gmap string (list string) :=
  fold_left (fun ix tag => <[tag := index_upd url (default [] (ix !! tag))]> ix) tags ix.

(** [response.json()] resolves on the body of [r] and [entry.data] reads as [d]. *)
Definition json_data (r : @Response D) (d : D) : Prop :=
  (exists e, r_body r = BEntry e /\ ce_data e = d) \/ r_body r = BJson d.

(** What [getTagIndex] / [getPageIndex] read from a store. *)
Definition read_index (st : gmap string (@Response D)) (key : string) : res (gmap string (list string)) :=
  match st !! key with
  | None => Ok ∅
  | Some r => match r_body r with BIndex ix => Ok ix | _ => Err "SyntaxError" end
  end.

(** The store after the query-index step of the purge: the index is
    written back only when the loop did not throw. *)
Definition purge_step1 (tags : list string) (ix : gmap string (list string))
    (st : gmap string (@Response D)) : gmap string (@Response D) :=
  let st' := del_all (fst (loop_keys tags ix)) st in
  if loop_throws tags ix then st'
  else <[TAG_INDEX_URL := index_response (snd (loop_keys tags ix))]> st'.

Definition purge_step2 (tags : list string) (pix : gmap string (list string))
    (st : gmap string (@Response D)) : gmap string (@Response D) :=
  let st' := del_all (fst (loop_keys tags pix)) st in
  if loop_throws tags pix then st'
  else <[PAGE_INDEX_URL := index_response (snd (loop_keys tags pix))]> st'.

(** Every [cache.match] among [evs] reads one of the two indexes. *)
Definition index_reads_only (evs : list Event) : Prop :=
  forall k, In (EMatch k) evs -> k = TAG_INDEX_URL \/ k = PAGE_INDEX_URL.

(** A run of [m] only appends events to the log, and reads no cache entry
    other than the indexes. *)
Definition reads_only_indexes {A} (m : STW A) : Prop :=
  forall w, exists evs, w_log (final (m w)) = app (w_log w) evs /\ index_reads_only evs.

Definition task_ok (t : @Task D U) : Prop :=
  forall w, exists evs, w_log (t w) = app (w_log w) evs /\ index_reads_only evs.

(** Hoare triples for runs that resolve and leave only such tasks. *)
Definition hoare {S A} (Pre : S -> Prop) (m : @ST D U S A) (Post : A -> S -> Prop) : Prop :=
  forall s, Pre s -> exists a s' ts, m s = (Ok a, s', ts) /\ Post a s' /\ Forall task_ok ts.

(** [addToTagIndex] / [addToPageIndex] for the index stored at [K]. *)
Definition index_write (K url : string) (tags : list string) : STW unit :=
  let! ix := (let! r := cache_match K in
              match r with None => ret ∅ | Some r => response_json_index r end) in
  match index_add url ix tags with
  | Ok ix' => cache_put K (index_response ix')
  | Err m => throw m
  end.

End Views.

(* ------------------------------------------------------------------ *)
(** ** Concrete inputs for the examples below *)

Definition demo_opts : CacheOptions := mkCacheOptions (Some 60%Z) (Some 300%Z) None.
Definition demo_key : string := CACHE_INTERNAL_URL +:+ "/sanity?q=q".
Definition demo_page : string := "https://example.com/blog".

(** Upstream answers are [(data, syncTags)]; [fetchFn] is the identity. *)
Definition demo_world (st : gmap string (@Response nat)) (now : Z)
    (up : nat -> res (nat * option (list string))) : @World nat (nat * option (list string)) :=
  mkWorld (Some (mkBackend st false)) now up 0 [].

(** The entry written by a MISS at t = 100 s with max-age 60 and
    stale-while-revalidate 300. *)
Definition demo_entry_response : @Response nat :=
  createCacheResponse (mkEntry 7 (Some ["t"])) 60 300 100000.

Definition demo_cached_world (now : Z) : @World nat (nat * option (list string)) :=
  demo_world {[demo_key := demo_entry_response]} now (fun _ => Ok (8, Some ["t"])).

Definition demo_failing_world : @World nat (nat * option (list string)) :=
  mkWorld (Some (mkBackend ∅ true)) 0 (fun _ => Ok (8, None)) 0 [].

(** Entries whose timestamp header is missing, or is not a date. *)
Definition untimed_world : @World nat (nat * option (list string)) :=
  demo_world {[demo_key := mkResponse (Some "max-age=60, stale-while-revalidate=300") None
                                      (BEntry (mkEntry 7 None))]}
             500000 (fun _ => Ok (8, None)).

Definition bad_time_world : @World nat (nat * option (list string)) :=
  demo_world {[demo_key := mkResponse (Some "max-age=60, stale-while-revalidate=300")
                                      (Some "yesterday") (BEntry (mkEntry 7 None))]}
             500000 (fun _ => Ok (8, None)).

Definition tagged_world : @World nat (nat * option (list string)) :=
  demo_world {[TAG_INDEX_URL := index_response {["t" := [demo_key]]};
               demo_key := demo_entry_response]} 170000 (fun _ => Ok (8, None)).

Definition page_only_world : @World nat (nat * option (list string)) :=
  demo_world {[PAGE_INDEX_URL := index_response {["t" := [demo_page]]};
               demo_page := mkResponse None None BOther]} 0 (fun _ => Err "offline").

(** A key listed under [t] by an earlier tagged write, then refetched with
    no tags. *)
Definition relisted_world : @World nat (nat * option (list string)) :=
  demo_world {[TAG_INDEX_URL := index_response {["t" := [demo_key]]}]} 1000 (fun _ => Ok (7, None)).

Definition relisted_after_fetch : @World nat (nat * option (list string)) :=
  let x := cachedFetch true "q" tt id demo_opts relisted_world in run_tasks (tasks x) (final x).

(** [Astro.response.headers] lookup. *)
Definition header (a : AstroGlobal) (name : string) : option string :=
  match a_headers a with Some h => h !! name | None => None end.

Definition blog_astro : AstroGlobal :=
  mkAstro ∅ "/blog" "https://example.com/blog" (Some ∅) (Some (mkLocals None false None true)).

Definition page_cache_off : PageCacheOptions := mkPageCacheOptions None None None (Some true).
Definition page_cache_on : PageCacheOptions := mkPageCacheOptions None None None None.

Definition live_astro : AstroGlobal :=
  mkAstro {[LAST_LIVE_EVENT_ID_COOKIE := "evt-1"]} "/blog" "https://example.com/blog" (Some ∅)
          (Some (mkLocals None false None true)).

Definition demo_sanity_response : SanityResponse nat := mkSanityResponse 5 (Some ["t"]).

Definition loader_world : @World (SanityResponse nat) (SanityResponse nat) :=
  mkWorld (Some (mkBackend ∅ false)) 1000 (fun _ => Ok demo_sanity_response) 0 [].

Definition demo_config : InitSanityConfig := mkInitConfig None None None.

(** An upstream whose first request fails and whose retry succeeds. *)
Definition offline_once_world : @World nat (nat * option (list string)) :=
  demo_world ∅ 1000 (fun n => match n with O => Err "offline" | _ => Ok (8, None) end).

(** A loader cache holding the query's entry, written at t = 1 s. *)
Definition hit_world : @World (SanityResponse nat) (SanityResponse nat) :=
  mkWorld (Some (mkBackend {[demo_key := createCacheResponse (mkEntry demo_sanity_response (Some ["t"]))
                                             86400 604800 1000]} false))
          1000 (fun _ => Ok demo_sanity_response) 0 [].
Section Proofs.
Local Open Scope Z_scope.
Context {D U P : Type} `{JsDate} `{KeyCodec P}.
Local Abbreviation STW A := (@ST D U (@World D U) A).
Local Abbreviation no_fetch := (@no_fetch D U _).
Local Abbreviation ok_world := (@ok_world D U).
Local Abbreviation store_of := (@store_of D U).
Local Abbreviation read_index := (@read_index D).
Local Abbreviation del_all := (@del_all D).
Local Abbreviation reads_only_indexes := (@reads_only_indexes D U _).
Local Abbreviation task_ok := (@task_ok D U).

Lemma isFresh_num (r : @Response D) now m :
  num_directive (parseCacheControl (r_x_cache_control r)) "max-age" = Some m ->
  isFresh r now = js_le (getCacheAge r now) m.
Proof.
  unfold isFresh. destruct (r_x_cache_control r) as [[|a s]|]; simpl; try discriminate;
  intros ->; reflexivity.
Qed.

Lemma isStaleButValid_num (r : @Response D) now m s :
  num_directive (parseCacheControl (r_x_cache_control r)) "max-age" = Some m ->
  num_directive (parseCacheControl (r_x_cache_control r)) "stale-while-revalidate" = Some s ->
  isStaleButValid r now = js_lt m (getCacheAge r now) && js_le (getCacheAge r now) (js_add m s).
Proof.
  unfold isStaleButValid. destruct (r_x_cache_control r) as [[|a s']|]; simpl; try discriminate;
  intros -> ->; reflexivity.
Qed.

(** C1: for a stored entry with numeric max-age [M] and
    stale-while-revalidate [S] and age [A], [cachedFetch] serves HIT when
    [A <= M], STALE when [M < A <= M + S] (both without calling
    [fetchFn]), and refetches and returns MISS when [A > M + S]; the
    boundaries [A = M] and [A = M + S] fall in the fresher window, and
    [M = 0] or [S = 0] leaves the fresh or stale window empty of positive
    ages. *)
Theorem cachedFetch_freshness_windows (q : string) (p : P) (f : U -> D * option (list string)) (opts : CacheOptions)
    (b : Backend) (r : Response) (e : CacheEntry) (M S A : Z) (w : World) :
  w_cache w = Some b -> b_failing b = false ->
  b_store b !! createCacheKey q p (default DEFAULT_CACHE_KEY_PREFIX (co_keyPrefix opts)) = Some r ->
  r_body r = BEntry e ->
  num_directive (parseCacheControl (r_x_cache_control r)) "max-age" = Some (JNum M) ->
  num_directive (parseCacheControl (r_x_cache_control r)) "stale-while-revalidate" = Some (JNum S) ->
  getCacheAge r (w_now w) = JNum A ->
  let x := cachedFetch true q p f opts w in
  (A <= M ->
     outcome x = Ok (mkResult (ce_data e) HIT (Some (JNum A))) /\ w_calls (final x) = w_calls w) /\
  (M < A <= M + S ->
     outcome x = Ok (mkResult (ce_data e) STALE (Some (JNum A))) /\ w_calls (final x) = w_calls w) /\
  (0 <= S -> M + S < A -> forall u, w_upstream w (w_calls w) = Ok u ->
     outcome x = Ok (mkResult (fst (f u)) MISS None) /\ w_calls (final x) = Datatypes.S (w_calls w)) /\
  (M = 0 -> (isFresh r (w_now w) = true <-> A <= 0)) /\
  (S = 0 -> isStaleButValid r (w_now w) = false).
Proof.
  intros Hc Hf Hk Hb Hm Hs Ha x; subst x.
  unfold outcome, final.
  destruct w as [c now up calls log]; simpl in *; subst c.
  rewrite (isFresh_num _ _ _ Hm), (isStaleButValid_num _ _ _ _ Hm Hs), Ha. simpl.
  split; [|split; [|split]].
  1-3: unfold cachedFetch, bind, try_catch, caches_available, cache_match, Date_now,
    response_json_entry, with_log; simpl;
    rewrite Hf, Hk, Hb; simpl;
    rewrite (isFresh_num _ _ _ Hm), Ha; simpl.
  - intros HA. replace (A <=? M) with true by (symmetry; apply Z.leb_le; lia). simpl. auto.
  - intros HA. replace (A <=? M) with false by (symmetry; apply Z.leb_gt; lia). simpl.
    rewrite (isStaleButValid_num _ _ _ _ Hm Hs), Ha; simpl.
    replace (M <? A) with true by (symmetry; apply Z.ltb_lt; lia).
    replace (A <=? M + S) with true by (symmetry; apply Z.leb_le; lia). simpl. auto.
  - intros HS HA u Hu. replace (A <=? M) with false by (symmetry; apply Z.leb_gt; lia). simpl.
    rewrite (isStaleButValid_num _ _ _ _ Hm Hs), Ha; simpl.
    replace (A <=? M + S) with false by (symmetry; apply Z.leb_gt; lia).
    rewrite andb_false_r. unfold fetch_upstream, waitUntil, ret. simpl. rewrite Hu.
    destruct (f u); simpl. auto.
  - split.
    + intros ->. rewrite Z.leb_le. lia.
    + intros ->. destruct (Z.ltb_spec M A), (Z.leb_spec A (M + 0)); simpl; auto; lia.
Qed.

Lemma no_fetch_bind {A B} (m : STW A) (k : A -> STW B) :
  no_fetch m -> (forall a, no_fetch (k a)) -> no_fetch (bind m k).
Proof.
  unfold no_fetch, final, bind. intros Hm Hk w. specialize (Hm w).
  destruct (m w) as [[[a|e] w1] t1]; simpl in *; [|exact Hm].
  specialize (Hk a w1). destruct (k a w1) as [[r2 w2] t2]; simpl in *. congruence.
Qed.

Lemma no_fetch_ret {A} (a : A) : no_fetch (ret a).
Proof. intros w. reflexivity. Qed.

Lemma no_fetch_throw {A} m : no_fetch (@throw _ _ _ A m).
Proof. intros w. reflexivity. Qed.

Lemma no_fetch_match k : no_fetch (cache_match k).
Proof. intros [[[]|] ? ? ? ?]; unfold cache_match; simpl; try destruct b_failing0; reflexivity. Qed.

Lemma no_fetch_put k r : no_fetch (cache_put k r).
Proof. intros [[[]|] ? ? ? ?]; unfold cache_put; simpl; try destruct b_failing0; reflexivity. Qed.

Lemma no_fetch_delete k : no_fetch (cache_delete k).
Proof. intros [[[]|] ? ? ? ?]; unfold cache_delete; simpl; try destruct b_failing0; reflexivity. Qed.

Lemma no_fetch_json_index r : no_fetch (response_json_index r).
Proof. intros w. unfold response_json_index. destruct (r_body r); reflexivity. Qed.

Lemma no_fetch_addToTagIndex k tags : no_fetch (addToTagIndex k tags).
Proof.
  apply no_fetch_bind.
  - apply no_fetch_bind; [apply no_fetch_match|]. intros [r|]; [apply no_fetch_json_index|apply no_fetch_ret].
  - intros ix. destruct (index_add k ix tags); [apply no_fetch_put|apply no_fetch_throw].
Qed.

Lemma no_fetch_write_entry k r tags : no_fetch (write_entry k r tags).
Proof.
  apply no_fetch_bind; [apply no_fetch_put|]. intros _.
  destruct (has_tags tags); [apply no_fetch_addToTagIndex|apply no_fetch_ret].
Qed.

(** C2: with an execution context and a working cache, an entry past
    max-age but within max-age + stale-while-revalidate is returned at once
    with its old data, status STALE and its age; the foreground does not
    call [fetchFn], and exactly one background task is left, which calls
    [fetchFn] exactly once. *)
Theorem cachedFetch_stale_serves_old_data (q : string) (p : P) (f : U -> D * option (list string)) (opts : CacheOptions)
    (b : Backend) (r : Response) (e : CacheEntry) (M S A : Z) (w : World) :
  w_cache w = Some b -> b_failing b = false ->
  b_store b !! createCacheKey q p (default DEFAULT_CACHE_KEY_PREFIX (co_keyPrefix opts)) = Some r ->
  r_body r = BEntry e ->
  num_directive (parseCacheControl (r_x_cache_control r)) "max-age" = Some (JNum M) ->
  num_directive (parseCacheControl (r_x_cache_control r)) "stale-while-revalidate" = Some (JNum S) ->
  getCacheAge r (w_now w) = JNum A ->
  M < A <= M + S ->
  let x := cachedFetch true q p f opts w in
  outcome x = Ok (mkResult (ce_data e) STALE (Some (JNum A))) /\
  w_calls (final x) = w_calls w /\
  exists t, tasks x = [t] /\ forall w', w_calls (t w') = Datatypes.S (w_calls w').
Proof.
  intros Hc Hf Hk Hb Hm Hs Ha HA x; subst x.
  unfold outcome, final, tasks.
  destruct w as [c now up calls log]; simpl in *; subst c.
  unfold cachedFetch, bind, try_catch, caches_available, cache_match, Date_now,
    response_json_entry, with_log; simpl.
  rewrite Hf, Hk, Hb; simpl.
  rewrite (isFresh_num _ _ _ Hm), Ha; simpl.
  replace (A <=? M) with false by (symmetry; apply Z.leb_gt; lia). simpl.
  rewrite (isStaleButValid_num _ _ _ _ Hm Hs), Ha; simpl.
  replace (M <? A) with true by (symmetry; apply Z.ltb_lt; lia).
  replace (A <=? M + S) with true by (symmetry; apply Z.leb_le; lia). simpl.
  split; [reflexivity|split; [reflexivity|]].
  eexists; split; [reflexivity|].
  intros w'. unfold fetch_upstream. simpl.
  destruct (w_upstream w' (w_calls w')) as [u|msg]; simpl; [|reflexivity].
  destruct (f u) as [fd tg]; simpl.
  match goal with
  | |- context [write_entry ?k ?resp ?tg ?w1] =>
      pose proof (no_fetch_write_entry k resp tg w1) as Hw; unfold final in Hw;
      destruct (write_entry k resp tg w1) as [[[]  w2] t2]; simpl in *; rewrite Hw; reflexivity
  end.
Qed.

(** C3: when every cache operation rejects (or there is no cache) and
    [fetchFn] succeeds, [cachedFetch] resolves with the upstream data and
    status MISS. *)
Theorem cachedFetch_failing_cache_is_miss (ctx : bool) (q : string) (p : P) (f : U -> D * option (list string))
    (opts : CacheOptions) (w : World) (u : U) :
  (forall b, w_cache w = Some b -> b_failing b = true) ->
  w_upstream w (w_calls w) = Ok u ->
  outcome (cachedFetch ctx q p f opts w) = Ok (mkResult (fst (f u)) MISS None).
Proof.
  intros Hfail Hu. unfold outcome.
  destruct w as [c now up calls log]; simpl in *.
  unfold cachedFetch, bind, try_catch, caches_available, cache_match, fetch_upstream,
    with_log, ret.
  destruct ctx; simpl; [destruct c as [b|]; simpl|].
  - rewrite (Hfail b eq_refl). simpl. rewrite Hu. destruct (f u); reflexivity.
  - rewrite Hu. destruct (f u); reflexivity.
  - rewrite Hu. destruct (f u); reflexivity.
Qed.

Lemma json_data_entry (r : @Response D) e : r_body r = BEntry e -> json_data r (ce_data e).
Proof. intros Hb. left. exists e. split; [exact Hb|reflexivity]. Qed.

Lemma cachedFetch_expired q p (f : U -> D * option (list string)) opts w r d u :
  entry_at q p opts w r -> json_data r d ->
  isFresh r (w_now w) = false -> isStaleButValid r (w_now w) = false ->
  w_upstream w (w_calls w) = Ok u ->
  let x := cachedFetch true q p f opts w in
  outcome x = Ok (mkResult (fst (f u)) MISS None) /\ w_calls (final x) = Datatypes.S (w_calls w).
Proof.
  intros (b & Hc & Hf & Hk) Hb Hfr Hst Hu x; subst x. unfold outcome, final.
  destruct w as [c now up calls log]; simpl in *; subst c.
  unfold cachedFetch, bind, try_catch, caches_available, cache_match, Date_now,
    response_json_entry, with_log; simpl.
  rewrite Hf, Hk; simpl.
  destruct Hb as [(e & Hb & _)|Hb]; rewrite Hb; simpl; rewrite Hfr; simpl; rewrite Hst; simpl;
  unfold fetch_upstream, waitUntil, ret; simpl; rewrite Hu; destruct (f u); simpl; auto.
Qed.

Lemma cachedFetch_bad_body q p (f : U -> D * option (list string)) opts w r u :
  entry_at q p opts w r -> (forall d, ~ json_data r d) ->
  w_upstream w (w_calls w) = Ok u ->
  let x := cachedFetch true q p f opts w in
  outcome x = Ok (mkResult (fst (f u)) MISS None) /\ w_calls (final x) = Datatypes.S (w_calls w).
Proof.
  intros (b & Hc & Hf & Hk) Hb Hu x; subst x. unfold outcome, final.
  destruct w as [c now up calls log]; simpl in *; subst c.
  unfold cachedFetch, bind, try_catch, caches_available, cache_match, Date_now,
    response_json_entry, with_log; simpl.
  rewrite Hf, Hk; simpl.
  destruct (r_body r) as [e|ix|d|] eqn:Hbd;
    [exfalso; apply (Hb (ce_data e)), json_data_entry, Hbd| |exfalso; apply (Hb d); right; exact Hbd|];
  unfold throw, fetch_upstream, ret; simpl; rewrite Hu; destruct (f u); simpl; auto.
Qed.

Lemma cachedFetch_fresh q p (f : U -> D * option (list string)) opts w r d :
  entry_at q p opts w r -> json_data r d ->
  isFresh r (w_now w) = true ->
  let x := cachedFetch true q p f opts w in
  outcome x = Ok (mkResult d HIT (Some (getCacheAge r (w_now w)))) /\
  w_calls (final x) = w_calls w.
Proof.
  intros (b & Hc & Hf & Hk) Hb Hfr x; subst x. unfold outcome, final.
  destruct w as [c now up calls log]; simpl in *; subst c.
  unfold cachedFetch, bind, try_catch, caches_available, cache_match, Date_now,
    response_json_entry, with_log; simpl.
  rewrite Hf, Hk; simpl.
  destruct Hb as [(e & Hb & <-)|Hb]; rewrite Hb; simpl; rewrite Hfr; simpl; auto.
Qed.

Lemma no_numeric_max_age (r : @Response D) now :
  (forall m, num_directive (parseCacheControl (r_x_cache_control r)) "max-age" <> Some (JNum m)) ->
  isFresh r now = false /\ isStaleButValid r now = false.
Proof.
  intros Hm. unfold isFresh, isStaleButValid.
  destruct (r_x_cache_control r) as [[|a s]|]; [split; reflexivity| |split; reflexivity].
  cbn -[parseCacheControl num_directive getCacheAge].
  destruct (num_directive _ "max-age") as [[m|]|] eqn:E;
    [exfalso; exact (Hm m eq_refl)| |split; reflexivity].
  destruct (getCacheAge r now); (split; [reflexivity|]);
  destruct (num_directive _ "stale-while-revalidate"); reflexivity.
Qed.

Lemma nan_age (r : @Response D) now :
  getCacheAge r now = JNaN -> isFresh r now = false /\ isStaleButValid r now = false.
Proof.
  intros Ha. unfold isFresh, isStaleButValid. rewrite Ha.
  destruct (r_x_cache_control r) as [[|a s]|]; [split; reflexivity| |split; reflexivity].
  cbn -[parseCacheControl num_directive getCacheAge].
  destruct (num_directive _ "max-age") as [[m|]|]; [| |split; reflexivity];
  (split; [reflexivity|]);
  destruct (num_directive _ "stale-while-revalidate") as [[]|]; reflexivity.
Qed.

(** C6 (amended): an entry whose cache-control header is absent, empty or
    carries no numeric max-age, whose timestamp header is present but
    unparsable, or whose body is not JSON, is refetched and reported as
    MISS.  But an entry with no (or an empty) timestamp header has age 0
    and is served as HIT whenever its max-age is a number >= 0; and a JSON
    body that is not a cache entry is read like one, its [data] field
    being served as HIT while the headers say it is fresh. *)
Theorem cachedFetch_bad_metadata (q : string) (p : P) (f : U -> D * option (list string)) (opts : CacheOptions)
    (w : World) (r : Response) (u : U) :
  entry_at q p opts w r ->
  w_upstream w (w_calls w) = Ok u ->
  let x := cachedFetch true q p f opts w in
  ((forall m, num_directive (parseCacheControl (r_x_cache_control r)) "max-age" <> Some (JNum m))
   \/ (exists t, r_x_cache_time r = Some t /\ t <> "" /\ date_getTime t = None)
   \/ r_body r = BOther ->
   outcome x = Ok (mkResult (fst (f u)) MISS None) /\ w_calls (final x) = Datatypes.S (w_calls w)) /\
  (forall e M, r_body r = BEntry e ->
   (r_x_cache_time r = None \/ r_x_cache_time r = Some "") ->
   num_directive (parseCacheControl (r_x_cache_control r)) "max-age" = Some (JNum M) -> 0 <= M ->
   outcome x = Ok (mkResult (ce_data e) HIT (Some (JNum 0))) /\ w_calls (final x) = w_calls w) /\
  (forall d, r_body r = BJson d -> isFresh r (w_now w) = true ->
   outcome x = Ok (mkResult d HIT (Some (getCacheAge r (w_now w)))) /\ w_calls (final x) = w_calls w).
Proof.
  intros Hat Hu x; subst x. split; [|split].
  - intros Hcase.
    destruct (r_body r) as [e|ix|d|] eqn:Hb.
    2,4: apply (cachedFetch_bad_body _ _ _ _ _ _ _ Hat); [|exact Hu];
         intros d [(e & He & _)|He]; congruence.
    all: assert (Hff : isFresh r (w_now w) = false /\ isStaleButValid r (w_now w) = false)
           by (destruct Hcase as [Hm|[(t & Ht & Hne & Hd)|Hbe]];
               [apply no_numeric_max_age; exact Hm
               |apply nan_age; unfold getCacheAge; rewrite Ht, Hd; destruct t; [congruence|reflexivity]
               |congruence]);
         destruct Hff as [Hfr Hst].
    + exact (cachedFetch_expired _ _ _ _ _ _ _ _ Hat (json_data_entry _ _ Hb) Hfr Hst Hu).
    + exact (cachedFetch_expired _ _ _ _ _ _ _ _ Hat (or_intror Hb) Hfr Hst Hu).
  - intros e M Hb Ht Hm HM.
    assert (Ha : getCacheAge r (w_now w) = JNum 0)
      by (unfold getCacheAge; destruct Ht as [-> | ->]; reflexivity).
    assert (Hfr : isFresh r (w_now w) = true)
      by (rewrite (isFresh_num _ _ _ Hm), Ha; simpl; apply Z.leb_le; lia).
    pose proof (cachedFetch_fresh _ _ f _ _ _ _ Hat (json_data_entry _ _ Hb) Hfr) as Hx.
    rewrite Ha in Hx. exact Hx.
  - intros d Hb Hfr. exact (cachedFetch_fresh _ _ f _ _ _ _ Hat (or_intror Hb) Hfr).
Qed.

(** ** Purge: the loops as pure functions on the store *)

Lemma with_log_ok e w : ok_world w -> ok_world (with_log e w).
Proof. intros (b & Hc & Hf). exists b. destruct w; simpl in *; auto. Qed.

Lemma with_log_store e w : store_of (with_log e w) = store_of w.
Proof. destruct w; reflexivity. Qed.

Lemma bind_ok {S A B} (m : @ST D U S A) (k : A -> @ST D U S B) s a s1 :
  m s = (Ok a, s1, []) -> bind m k s = k a s1.
Proof. intros Hm. unfold bind. rewrite Hm. destruct (k a s1) as [[]]; reflexivity. Qed.

Lemma bind_err {S A B} (m : @ST D U S A) (k : A -> @ST D U S B) s e s1 :
  m s = (Err e, s1, []) -> bind m k s = (Err e, s1, []).
Proof. intros Hm. unfold bind. rewrite Hm. reflexivity. Qed.

Lemma cache_delete_ok k w : ok_world w ->
  exists w', cache_delete k w = (Ok (bool_decide (is_Some (store_of w !! k))), w', []) /\
    ok_world w' /\ store_of w' = delete k (store_of w).
Proof.
  intros (b & Hc & Hf). destruct w as [c now up calls log]; simpl in *; subst c.
  unfold cache_delete; simpl. rewrite Hf.
  eexists; split; [|split].
  - unfold store_of; simpl. f_equal. f_equal.
    destruct (b_store b !! k); reflexivity.
  - eexists; simpl; eauto.
  - reflexivity.
Qed.

Lemma cache_put_ok k r w : ok_world w ->
  exists w', cache_put k r w = (Ok tt, w', []) /\ ok_world w' /\ store_of w' = <[k := r]> (store_of w).
Proof.
  intros (b & Hc & Hf). destruct w as [c now up calls log]; simpl in *; subst c.
  unfold cache_put; simpl. rewrite Hf.
  eexists; split; [reflexivity|split; [eexists; simpl; eauto|reflexivity]].
Qed.

Lemma set_add_elem k acc x : x ∈ set_add k acc -> x = k \/ x ∈ acc.
Proof.
  unfold set_add. destruct (existsb (String.eqb k) acc); [auto|].
  rewrite elem_of_app, list_elem_of_singleton. tauto.
Qed.

Lemma delete_listed_ok ks : forall acc w, ok_world w ->
  exists acc' w', delete_listed ks acc w = (Ok acc', w', []) /\ ok_world w' /\
    store_of w' = del_all ks (store_of w) /\ (forall x, x ∈ acc' -> x ∈ acc \/ x ∈ ks).
Proof.
  induction ks as [|k ks IH]; intros acc w Hok; simpl.
  - exists acc, w. auto.
  - destruct (cache_delete_ok k w Hok) as (w1 & Hd & Hok1 & Hs1).
    erewrite bind_ok by exact Hd.
    destruct (IH (if bool_decide (is_Some (store_of w !! k)) then set_add k acc else acc) w1 Hok1)
      as (acc' & w' & Hl & Hok' & Hs' & Hsub).
    exists acc', w'. rewrite Hl. split; [reflexivity|split; [exact Hok'|split]].
    + rewrite Hs', Hs1. reflexivity.
    + intros x Hx. destruct (Hsub x Hx) as [Hin|Hin].
      * destruct (bool_decide _); [|auto].
        destruct (set_add_elem _ _ _ Hin) as [->|]; [right; left|auto].
      * right; right; exact Hin.
Qed.

Lemma onW_eq {R A} (m : STW A) (r : R) w x w' ts :
  m w = (x, w', ts) -> onW m (r, w) = (x, (r, w'), ts).
Proof. intros Hm. unfold onW. rewrite Hm. reflexivity. Qed.

Lemma del_all_app ks l st : del_all (app ks l) st = del_all l (del_all ks st).
Proof. unfold del_all. apply fold_left_app. Qed.

Lemma purge_query_loop_ok tags : forall ix acc r w, ok_world w ->
  exists acc' r' w',
    purge_query_loop tags ix acc (r, w) =
      (if loop_throws tags ix then Err "TypeError: tagIndex[tag] is not iterable"
       else Ok (snd (loop_keys tags ix), acc'), (r', w'), []) /\
    ok_world w' /\ store_of w' = del_all (fst (loop_keys tags ix)) (store_of w) /\
    (forall x, x ∈ acc' -> x ∈ acc \/ x ∈ fst (loop_keys tags ix)) /\
    r' = mkPurge (purgedQueryKeys r) (purgedPageUrls r) (app (purgedTags r) (found_tags tags ix)).
Proof.
  induction tags as [|tag rest IH]; intros ix acc r w Hok; simpl.
  - exists acc, r, w. rewrite app_nil_r. destruct r; auto 10.
  - destruct (index_get ix tag) as [ks| |] eqn:Hix.
    + destruct (delete_listed_ok ks acc w Hok) as (acc1 & w1 & Hd & Hok1 & Hs1 & Hsub1).
      erewrite bind_ok by reflexivity.
      erewrite bind_ok by (apply onW_eq; exact Hd).
      destruct (IH (delete tag ix) acc1
        (mkPurge (purgedQueryKeys r) (purgedPageUrls r) (app (purgedTags r) [tag])) w1 Hok1)
        as (acc' & r' & w' & Hl & Hok' & Hs' & Hsub & Hr).
      exists acc', r', w'. rewrite Hl.
      destruct (loop_keys rest (delete tag ix)) as [l ix'] eqn:E; simpl in *.
      split; [reflexivity|split; [exact Hok'|split; [|split]]].
      * rewrite del_all_app, Hs', Hs1. reflexivity.
      * intros x Hx. rewrite elem_of_app.
        destruct (Hsub x Hx) as [H1|H1]; [|auto]. destruct (Hsub1 x H1); auto.
      * rewrite Hr. simpl. rewrite <- app_assoc. reflexivity.
    + exists acc, (mkPurge (purgedQueryKeys r) (purgedPageUrls r) (app (purgedTags r) [tag])), w.
      simpl. split; [reflexivity|split; [exact Hok|split; [reflexivity|split; [auto|reflexivity]]]].
    + apply IH; exact Hok.
Qed.

Lemma purge_page_loop_ok tags : forall ix acc w, ok_world w ->
  exists acc' w',
    purge_page_loop tags ix acc w =
      (if loop_throws tags ix then Err "TypeError: pageIndex[tag] is not iterable"
       else Ok (snd (loop_keys tags ix), acc'), w', []) /\
    ok_world w' /\ store_of w' = del_all (fst (loop_keys tags ix)) (store_of w).
Proof.
  induction tags as [|tag rest IH]; intros ix acc w Hok; simpl.
  - exists acc, w. auto.
  - destruct (index_get ix tag) as [ks| |] eqn:Hix.
    + destruct (delete_listed_ok ks acc w Hok) as (acc1 & w1 & Hd & Hok1 & Hs1 & _).
      erewrite bind_ok by exact Hd.
      destruct (IH (delete tag ix) acc1 w1 Hok1) as (acc' & w' & Hl & Hok' & Hs').
      exists acc', w'. rewrite Hl.
      destruct (loop_keys rest (delete tag ix)) as [l ix'] eqn:E; simpl in *.
      split; [reflexivity|split; [exact Hok'|]].
      rewrite del_all_app, Hs', Hs1. reflexivity.
    + exists acc, w. auto.
    + apply IH; exact Hok.
Qed.

Lemma read_index_ok key w : ok_world w ->
  (let! r := cache_match key in
   match r with None => ret ∅ | Some r => response_json_index r end) w
  = (read_index (store_of w) key, with_log (EMatch key) w, []).
Proof.
  intros (b & Hc & Hf). destruct w as [c now up calls log]; simpl in *; subst c.
  unfold bind, cache_match, read_index, store_of; simpl. rewrite Hf.
  destruct (b_store b !! key) as [r|]; [|reflexivity].
  unfold response_json_index. destruct (r_body r); reflexivity.
Qed.

Lemma try_catch_ok {S A} (m h : @ST D U S A) s a s1 :
  m s = (Ok a, s1, []) -> try_catch m h s = (Ok a, s1, []).
Proof. intros Hm. unfold try_catch. rewrite Hm. reflexivity. Qed.

Lemma try_catch_err {S A} (m h : @ST D U S A) s e s1 :
  m s = (Err e, s1, []) -> try_catch m h s = h s1.
Proof. intros Hm. unfold try_catch. rewrite Hm. destruct (h s1) as [[]]; reflexivity. Qed.

Lemma purge_body_ok tags w ix r0 : ok_world w -> read_index (store_of w) TAG_INDEX_URL = Ok ix ->
  let st1 := purge_step1 tags ix (store_of w) in
  exists e r' w', purge_body tags (r0, w) = (e, (r', w'), []) /\ ok_world w' /\
  ((loop_throws tags ix = true \/ forall e, read_index st1 PAGE_INDEX_URL <> Ok e) /\ store_of w' = st1 \/
   exists pix, loop_throws tags ix = false /\ read_index st1 PAGE_INDEX_URL = Ok pix /\
               store_of w' = purge_step2 tags pix st1) /\
  purgedTags r' = app (purgedTags r0) (found_tags tags ix) /\
  (forall x, x ∈ purgedQueryKeys r' -> x ∈ purgedQueryKeys r0 \/ x ∈ fst (loop_keys tags ix)).
Proof.
  intros Hok Hix st1. subst st1. unfold purge_body.
  erewrite bind_ok.
  2:{ apply onW_eq. unfold getTagIndex. rewrite (read_index_ok _ _ Hok), Hix. reflexivity. }
  pose proof (with_log_ok (EMatch TAG_INDEX_URL) _ Hok) as Hok1.
  destruct (purge_query_loop_ok tags ix [] r0 _ Hok1)
    as (acc' & r1 & w2 & Hl & Hok2 & Hs2 & Hsub & Hr).
  assert (Hq : forall x, x ∈ acc' -> x ∈ fst (loop_keys tags ix)).
  { intros x Hx. destruct (Hsub x Hx) as [Hn|]; [inversion Hn|assumption]. }
  destruct (loop_throws tags ix) eqn:Hthr.
  { erewrite bind_err by exact Hl.
    do 3 eexists; split; [reflexivity|split; [exact Hok2|split; [|split]]].
    - left. split; [left; reflexivity|]. unfold purge_step1. rewrite Hthr, Hs2, with_log_store.
      reflexivity.
    - subst r1. reflexivity.
    - subst r1. simpl. auto. }
  erewrite bind_ok by exact Hl. cbv beta iota.
  erewrite bind_ok by reflexivity.
  destruct (cache_put_ok TAG_INDEX_URL (index_response (snd (loop_keys tags ix))) w2 Hok2)
    as (w3 & Hp & Hok3 & Hs3).
  erewrite bind_ok by (apply onW_eq; exact Hp).
  assert (Hst3 : store_of w3 = purge_step1 tags ix (store_of w)).
  { unfold purge_step1. rewrite Hthr, Hs3, Hs2, with_log_store. reflexivity. }
  destruct (read_index (store_of w3) PAGE_INDEX_URL) as [pix|msg] eqn:Hpix.
  - erewrite bind_ok.
    2:{ apply onW_eq. unfold getPageIndex. rewrite (read_index_ok _ _ Hok3), Hpix. reflexivity. }
    pose proof (with_log_ok (EMatch PAGE_INDEX_URL) _ Hok3) as Hok4.
    destruct (purge_page_loop_ok tags pix [] _ Hok4) as (pacc & w5 & Hl5 & Hok5 & Hs5).
    destruct (loop_throws tags pix) eqn:Hthr2.
    + erewrite bind_err by (apply onW_eq; exact Hl5).
      do 3 eexists; split; [reflexivity|split; [exact Hok5|split; [|split]]].
      * right. exists pix. rewrite <- Hst3. split; [reflexivity|split; [exact Hpix|]].
        unfold purge_step2. rewrite Hthr2, Hs5, with_log_store. reflexivity.
      * subst r1. reflexivity.
      * simpl. intros x Hx. right. apply Hq. exact Hx.
    + erewrite bind_ok by (apply onW_eq; exact Hl5). cbv beta iota.
      erewrite bind_ok by reflexivity.
      destruct (cache_put_ok PAGE_INDEX_URL (index_response (snd (loop_keys tags pix))) w5 Hok5)
        as (w6 & Hp6 & Hok6 & Hs6).
      erewrite onW_eq by exact Hp6.
      do 3 eexists; split; [reflexivity|split; [exact Hok6|split; [|split]]].
      * right. exists pix. rewrite <- Hst3. split; [reflexivity|split; [exact Hpix|]].
        unfold purge_step2. rewrite Hthr2, Hs6, Hs5, with_log_store. reflexivity.
      * subst r1. reflexivity.
      * simpl. intros x Hx. right. apply Hq. exact Hx.
  - erewrite bind_err.
    2:{ apply onW_eq. unfold getPageIndex. rewrite (read_index_ok _ _ Hok3), Hpix. reflexivity. }
    do 3 eexists; split; [reflexivity|split; [apply with_log_ok; exact Hok3|split; [|split]]].
    + left. rewrite <- Hst3, Hpix. split; [right; congruence|]. apply with_log_store.
    + subst r1. reflexivity.
    + simpl. intros x Hx. right. apply Hq. exact Hx.
Qed.

Lemma purge_ok tags w ix : ok_world w -> read_index (store_of w) TAG_INDEX_URL = Ok ix ->
  let st1 := purge_step1 tags ix (store_of w) in
  let x := purgeCacheByTags tags w in
  ok_world (final x) /\
  ((loop_throws tags ix = true \/ forall e, read_index st1 PAGE_INDEX_URL <> Ok e) /\ store_of (final x) = st1 \/
   exists pix, loop_throws tags ix = false /\ read_index st1 PAGE_INDEX_URL = Ok pix /\
               store_of (final x) = purge_step2 tags pix st1) /\
  exists r, outcome x = Ok r /\ purgedTags r = found_tags tags ix /\
    (forall k, k ∈ purgedQueryKeys r -> k ∈ fst (loop_keys tags ix)).
Proof.
  intros Hok Hix st1 x. subst st1 x.
  pose proof Hok as (b & Hc & Hf).
  destruct (purge_body_ok tags w ix (mkPurge [] [] []) Hok Hix)
    as (e & r' & w' & Hb & Hok' & Hcase & Ht & Hq).
  assert (Hq' : forall k, k ∈ purgedQueryKeys r' -> k ∈ fst (loop_keys tags ix)).
  { intros k Hk. destruct (Hq k Hk) as [Hn|]; [inversion Hn|assumption]. }
  unfold purgeCacheByTags, final, outcome. rewrite Hc.
  destruct e as [[]|msg].
  - erewrite try_catch_ok by exact Hb. simpl. eauto 10.
  - erewrite try_catch_err by exact Hb. simpl. eauto 10.
Qed.

Lemma lookup_del_all ks st k :
  del_all ks st !! k = if decide (k ∈ ks) then None else st !! k.
Proof.
  unfold del_all. revert st. induction ks as [|k' ks IH]; intros st; simpl.
  - destruct (decide (k ∈ [])) as [Hin|]; [inversion Hin|reflexivity].
  - rewrite IH. destruct (decide (k ∈ k' :: ks)) as [Hin|Hnin].
    + destruct (decide (k ∈ ks)); [reflexivity|].
      apply elem_of_cons in Hin as [->|]; [apply lookup_delete_eq|contradiction].
    + rewrite decide_False by (intros Hk; apply Hnin; right; exact Hk).
      apply lookup_delete_ne. intros ->. apply Hnin. left.
Qed.

Lemma index_urls_differ : PAGE_INDEX_URL <> TAG_INDEX_URL.
Proof. unfold PAGE_INDEX_URL, TAG_INDEX_URL. discriminate. Qed.

Lemma read_index_put ix st : read_index (<[TAG_INDEX_URL := index_response ix]> st) TAG_INDEX_URL = Ok ix.
Proof. unfold read_index. rewrite lookup_insert_eq. reflexivity. Qed.

Lemma index_get_Some (ix : gmap string (list string)) t l : index_get ix t = LOwn l -> ix !! t = Some l.
Proof. unfold index_get. destruct (ix !! t); [congruence|]. destruct (existsb _ _); discriminate. Qed.

Lemma index_get_None (ix : gmap string (list string)) t :
  index_get ix t = LInherited \/ index_get ix t = LMissing -> ix !! t = None.
Proof. unfold index_get. destruct (ix !! t); [intros [|]; discriminate|reflexivity]. Qed.

Lemma index_get_plain (ix : gmap string (list string)) t : t ∉ OBJECT_PROTOTYPE_KEYS ->
  index_get ix t = match ix !! t with Some l => LOwn l | None => LMissing end.
Proof.
  intros Ht. unfold index_get. destruct (ix !! t); [reflexivity|].
  destruct (existsb (String.eqb t) OBJECT_PROTOTYPE_KEYS) eqn:E; [|reflexivity].
  exfalso. apply Ht. apply existsb_exists in E as (y & Hy & Hyt).
  apply String.eqb_eq in Hyt. subst y. apply list_elem_of_In. exact Hy.
Qed.

Lemma index_get_inherited (ix : gmap string (list string)) t :
  t ∈ OBJECT_PROTOTYPE_KEYS -> ix !! t = None -> index_get ix t = LInherited.
Proof.
  intros Ht Hn. unfold index_get. rewrite Hn.
  replace (existsb (String.eqb t) OBJECT_PROTOTYPE_KEYS) with true; [reflexivity|].
  symmetry. apply existsb_exists. exists t. split; [apply list_elem_of_In; exact Ht|apply String.eqb_refl].
Qed.

Lemma purge_step1_ne tags ix (st : gmap string (@Response D)) k : k <> TAG_INDEX_URL ->
  purge_step1 tags ix st !! k = del_all (fst (loop_keys tags ix)) st !! k.
Proof.
  intros Hk. unfold purge_step1. destruct (loop_throws tags ix); [reflexivity|].
  apply lookup_insert_ne. congruence.
Qed.

Lemma purge_step2_ne tags pix (st : gmap string (@Response D)) k : k <> PAGE_INDEX_URL ->
  purge_step2 tags pix st !! k = del_all (fst (loop_keys tags pix)) st !! k.
Proof.
  intros Hk. unfold purge_step2. destruct (loop_throws tags pix); [reflexivity|].
  apply lookup_insert_ne. congruence.
Qed.

Lemma purge_step1_tag tags ix (st : gmap string (@Response D)) : loop_throws tags ix = false ->
  purge_step1 tags ix st !! TAG_INDEX_URL = Some (index_response (snd (loop_keys tags ix))).
Proof. intros Hth. unfold purge_step1. rewrite Hth. apply lookup_insert_eq. Qed.

Lemma purge_step2_page tags pix (st : gmap string (@Response D)) : loop_throws tags pix = false ->
  purge_step2 tags pix st !! PAGE_INDEX_URL = Some (index_response (snd (loop_keys tags pix))).
Proof. intros Hth. unfold purge_step2. rewrite Hth. apply lookup_insert_eq. Qed.

(** Purging a single tag [t] removes [t] from the query tag index read
    afterwards and deletes every cache entry whose key the index listed
    under [t]; a tag the index does not list is reported nowhere when it is
    not the name of an [Object.prototype] member, and alone in
    [purgedTags] when it is.  The keys under [t] are query keys, not the
    two index locations. *)
Theorem purge_tag_complete (t : string) (w : @World D U) (ix : gmap string (list string))
    (Hok : ok_world w) (Hix : read_index (store_of w) TAG_INDEX_URL = Ok ix)
    (Hkeys : forall ks k, ix !! t = Some ks -> k ∈ ks -> k <> TAG_INDEX_URL /\ k <> PAGE_INDEX_URL) :
  (exists ix', outcome (getTagIndex (final (purgeCacheByTags [t] w))) = Ok ix' /\ ix' !! t = None) /\
  (forall ks k, ix !! t = Some ks -> k ∈ ks -> store_of (final (purgeCacheByTags [t] w)) !! k = None) /\
  (ix !! t = None -> t ∉ OBJECT_PROTOTYPE_KEYS -> exists r, outcome (purgeCacheByTags [t] w) = Ok r /\
                               purgedTags r = [] /\ purgedQueryKeys r = []) /\
  (ix !! t = None -> t ∈ OBJECT_PROTOTYPE_KEYS -> exists r, outcome (purgeCacheByTags [t] w) = Ok r /\
                               purgedTags r = [t] /\ purgedQueryKeys r = []).
Proof.
  destruct (purge_ok [t] w ix Hok Hix) as (Hokf & Hcase & r & Hr & Ht & Hq).
  set (x := purgeCacheByTags [t] w) in *.
  assert (Hst : loop_throws [t] ix = true /\ store_of (final x) = purge_step1 [t] ix (store_of w) \/
     loop_throws [t] ix = false /\ (store_of (final x) = purge_step1 [t] ix (store_of w) \/
     exists pix, store_of (final x) = purge_step2 [t] pix (purge_step1 [t] ix (store_of w)))).
  { destruct (loop_throws [t] ix) eqn:Hth; [left; split; [reflexivity|]|right; split; [reflexivity|]];
      destruct Hcase as [[_ Hs]|(pix & Hth' & _ & Hs)]; eauto; congruence. }
  clear Hcase.
  assert (Hkeys1 : fst (loop_keys [t] ix) = match ix !! t with Some ks => app ks [] | None => [] end).
  { simpl. unfold index_get. destruct (ix !! t); [reflexivity|]. destruct (existsb _ _); reflexivity. }
  assert (Hfound : found_tags [t] ix = match index_get ix t with LMissing => [] | _ => [t] end).
  { simpl. destruct (index_get ix t); reflexivity. }
  split; [|split; [|split]].
  - unfold getTagIndex. unfold outcome at 1.
    rewrite (read_index_ok _ _ Hokf). simpl.
    destruct Hst as [(Hth & Hs)|(Hth & Hs)].
    + (* the loop stops at once: the index is left as read *)
      assert (Hn : ix !! t = None).
      { apply index_get_None. simpl in Hth. destruct (index_get ix t); auto; discriminate. }
      rewrite Hs. unfold purge_step1. rewrite Hth, Hkeys1, Hn. exists ix. split; [exact Hix|exact Hn].
    + assert (Hsnd : snd (loop_keys [t] ix) !! t = None).
      { simpl. simpl in Hth. destruct (index_get ix t) eqn:E; try discriminate; simpl.
        - apply lookup_delete_eq.
        - apply index_get_None. auto. }
      destruct Hs as [Hs|(pix & Hs)]; rewrite Hs; unfold read_index.
      * rewrite (purge_step1_tag _ _ _ Hth). simpl. eauto.
      * rewrite purge_step2_ne by apply not_eq_sym, index_urls_differ.
        rewrite lookup_del_all. destruct (decide _).
        -- exists ∅. split; [reflexivity|apply lookup_empty].
        -- rewrite (purge_step1_tag _ _ _ Hth). simpl. eauto.
  - intros ks k Hks Hk. destruct (Hkeys ks k Hks Hk) as [HnT HnP].
    assert (H1 : purge_step1 [t] ix (store_of w) !! k = None).
    { rewrite purge_step1_ne by congruence.
      rewrite lookup_del_all, decide_True; [reflexivity|].
      rewrite Hkeys1, Hks. apply elem_of_app. left. exact Hk. }
    destruct Hst as [(_ & Hs)|(_ & [Hs|(pix & Hs)])]; rewrite Hs; [exact H1|exact H1|].
    rewrite purge_step2_ne by congruence.
    rewrite lookup_del_all. destruct (decide _); [reflexivity|exact H1].
  - intros Hn Hp. exists r. split; [exact Hr|split].
    + rewrite Ht, Hfound, index_get_plain, Hn by exact Hp. reflexivity.
    + destruct (purgedQueryKeys r) as [|y ys] eqn:E; [reflexivity|exfalso].
      specialize (Hq y ltac:(left)). rewrite Hkeys1, Hn in Hq. inversion Hq.
  - intros Hn Hp. exists r. split; [exact Hr|split].
    + rewrite Ht, Hfound, index_get_inherited by assumption. reflexivity.
    + destruct (purgedQueryKeys r) as [|y ys] eqn:E; [reflexivity|exfalso].
      specialize (Hq y ltac:(left)). rewrite Hkeys1, Hn in Hq. inversion Hq.
Qed.

Lemma loop_keys_elem tags : forall ix k, k ∈ fst (loop_keys tags ix) ->
  exists t ks, t ∈ tags /\ ix !! t = Some ks /\ k ∈ ks.
Proof.
  induction tags as [|t rest IH]; intros ix k Hk; simpl in Hk.
  - inversion Hk.
  - destruct (index_get ix t) as [ks| |] eqn:E.
    + apply index_get_Some in E.
      destruct (loop_keys rest (delete t ix)) as [l ix'] eqn:El. simpl in Hk.
      apply elem_of_app in Hk as [Hk|Hk].
      * exists t, ks. split; [left|split; assumption].
      * destruct (IH (delete t ix) k) as (t' & ks' & Ht' & Hl & Hk');
          [rewrite El; exact Hk|].
        apply lookup_delete_Some in Hl as [_ Hl].
        exists t', ks'. split; [right; exact Ht'|split; assumption].
    + inversion Hk.
    + destruct (IH ix k Hk) as (t' & ks' & Ht' & Hl & Hk').
      exists t', ks'. split; [right; exact Ht'|split; assumption].
Qed.

Lemma write_entry_untagged k r tags w : ok_world w -> has_tags tags = false ->
  exists w', write_entry k r tags w = (Ok tt, w', []) /\ store_of w' = <[k := r]> (store_of w).
Proof.
  intros Hok Hn. destruct (cache_put_ok k r w Hok) as (w' & Hp & _ & Hs).
  exists w'. unfold write_entry. erewrite bind_ok by exact Hp. rewrite Hn.
  split; [reflexivity|exact Hs].
Qed.

(** C9 (amended): a cache write whose fetched tag list is missing or empty
    leaves the query tag index as it was; and [purgeCacheByTags] removes a
    cache entry (other than the two indexes) only when the tag index or the
    page index, as stored before the purge, lists its key under one of the
    requested tags.  An untagged write does not remove the key from an index
    that already lists it. *)
Theorem untagged_write_purge_frame :
  (forall k (r : @Response D) tags (w : @World D U), ok_world w -> k <> TAG_INDEX_URL ->
     has_tags tags = false ->
     outcome (write_entry k r tags w) = Ok tt /\
     store_of (final (write_entry k r tags w)) !! k = Some r /\
     read_index (store_of (final (write_entry k r tags w))) TAG_INDEX_URL
       = read_index (store_of w) TAG_INDEX_URL) /\
  (forall tags (w : @World D U) ix k, ok_world w -> read_index (store_of w) TAG_INDEX_URL = Ok ix ->
     k <> TAG_INDEX_URL -> k <> PAGE_INDEX_URL -> is_Some (store_of w !! k) ->
     store_of (final (purgeCacheByTags tags w)) !! k = None ->
     (exists t ks, t ∈ tags /\ ix !! t = Some ks /\ k ∈ ks) \/
     (exists pix t ks, read_index (store_of w) PAGE_INDEX_URL = Ok pix /\
                       t ∈ tags /\ pix !! t = Some ks /\ k ∈ ks)).
Proof.
  split.
  - intros k r tags w Hok Hk Hn.
    destruct (write_entry_untagged k r tags w Hok Hn) as (w' & He & Hs).
    unfold outcome, final. rewrite He. simpl. rewrite Hs.
    split; [reflexivity|split; [apply lookup_insert_eq|]].
    unfold read_index. rewrite lookup_insert_ne by congruence. reflexivity.
  - intros tags w ix k Hok Hix HkT HkP [v Hv] Hgone.
    destruct (purge_ok tags w ix Hok Hix) as (_ & Hcase & _).
    set (L := fst (loop_keys tags ix)).
    assert (Hst1 : purge_step1 tags ix (store_of w) !! k = None -> k ∈ L).
    { rewrite purge_step1_ne by congruence.
      rewrite lookup_del_all. fold L. destruct (decide (k ∈ L)); [auto|congruence]. }
    destruct Hcase as [[_ Hs]|(pix & _ & Hpix & Hs)]; rewrite Hs in Hgone.
    + left. apply loop_keys_elem. apply Hst1. exact Hgone.
    + rewrite purge_step2_ne in Hgone by congruence.
      rewrite lookup_del_all in Hgone.
      destruct (decide (k ∈ fst (loop_keys tags pix))) as [Hin|Hnin].
      * destruct (loop_keys_elem tags pix k Hin) as (t & ks & Ht & Hl & Hk').
        unfold read_index in Hpix.
        rewrite purge_step1_ne in Hpix by apply index_urls_differ.
        rewrite lookup_del_all in Hpix. fold L in Hpix.
        destruct (decide (PAGE_INDEX_URL ∈ L)).
        -- injection Hpix as <-. rewrite lookup_empty in Hl. discriminate.
        -- right. exists pix, t, ks. split; [|auto]. unfold read_index. exact Hpix.
      * left. apply loop_keys_elem. apply Hst1. exact Hgone.
Qed.

(** ** Logs of background work, and Hoare triples *)

Lemma roi_ret {A} (a : A) : reads_only_indexes (ret a).
Proof. intros w. exists []. split; [symmetry; apply app_nil_r|intros k []]. Qed.

Lemma roi_throw {A} msg : reads_only_indexes (@throw D U _ A msg).
Proof. intros w. exists []. split; [symmetry; apply app_nil_r|intros k []]. Qed.

Lemma roi_bind {A B} (m : STW A) (k : A -> STW B) :
  reads_only_indexes m -> (forall a, reads_only_indexes (k a)) -> reads_only_indexes (bind m k).
Proof.
  intros Hm Hk w. destruct (Hm w) as (e1 & E1 & H1). unfold bind, final in *.
  destruct (m w) as [[[a|msg] w1] t1]; simpl in *.
  - destruct (Hk a w1) as (e2 & E2 & H2). unfold final in E2.
    destruct (k a w1) as [[r w2] t2]; simpl in *.
    exists (app e1 e2). split; [rewrite E2, E1, app_assoc; reflexivity|].
    intros k0 Hin. apply in_app_or in Hin as [Hin|Hin]; auto.
  - exists e1. auto.
Qed.

Lemma roi_try_catch {A} (m h : STW A) :
  reads_only_indexes m -> reads_only_indexes h -> reads_only_indexes (try_catch m h).
Proof.
  intros Hm Hh w. destruct (Hm w) as (e1 & E1 & H1). unfold try_catch, final in *.
  destruct (m w) as [[[a|msg] w1] t1]; simpl in *; [exists e1; auto|].
  destruct (Hh w1) as (e2 & E2 & H2). unfold final in E2.
  destruct (h w1) as [[r w2] t2]; simpl in *.
  exists (app e1 e2). split; [rewrite E2, E1, app_assoc; reflexivity|].
  intros k0 Hin. apply in_app_or in Hin as [Hin|Hin]; auto.
Qed.

Lemma roi_match k : k = TAG_INDEX_URL \/ k = PAGE_INDEX_URL -> reads_only_indexes (@cache_match D U k).
Proof.
  intros Hk w. exists [EMatch k]. unfold cache_match, final.
  destruct (w_cache w) as [b|]; [destruct (b_failing b)|]; simpl;
    (split; [reflexivity|intros k' [E|[]]; injection E as <-; exact Hk]).
Qed.

Lemma roi_put k r : reads_only_indexes (@cache_put D U k r).
Proof.
  intros w. exists [EPut k]. unfold cache_put, final.
  destruct (w_cache w) as [b|] eqn:Hc; [destruct (b_failing b)|]; simpl;
    (split; [unfold with_store; simpl; rewrite ?Hc; reflexivity|intros k' [E|[]]; discriminate]).
Qed.

Lemma roi_date : reads_only_indexes (@Date_now D U).
Proof. intros w. exists []. split; [symmetry; apply app_nil_r|intros k []]. Qed.

Lemma roi_avail : reads_only_indexes (@caches_available D U).
Proof. intros w. exists []. split; [symmetry; apply app_nil_r|intros k []]. Qed.

Lemma roi_json_index r : reads_only_indexes (@response_json_index D U r).
Proof. unfold response_json_index. destruct (r_body r); [apply roi_throw|apply roi_ret|apply roi_throw|apply roi_throw]. Qed.

Lemma roi_index_read k : k = TAG_INDEX_URL \/ k = PAGE_INDEX_URL ->
  reads_only_indexes (let! r := @cache_match D U k in
                      match r with None => ret ∅ | Some r => response_json_index r end).
Proof.
  intros Hk. apply roi_bind; [apply roi_match, Hk|].
  intros [r|]; [apply roi_json_index|apply roi_ret].
Qed.

Lemma roi_addToTagIndex k tags : reads_only_indexes (@addToTagIndex D U k tags).
Proof.
  unfold addToTagIndex. apply roi_bind; [apply roi_index_read; left; reflexivity|].
  intros ix. destruct (index_add _ ix tags); [apply roi_put|apply roi_throw].
Qed.

Lemma roi_addToPageIndex url tags : reads_only_indexes (@addToPageIndex D U url tags).
Proof.
  unfold addToPageIndex. apply roi_bind; [apply roi_index_read; right; reflexivity|].
  intros ix. destruct (index_add _ ix tags); [apply roi_put|apply roi_throw].
Qed.

Lemma roi_write_entry k r tags : reads_only_indexes (@write_entry D U k r tags).
Proof.
  unfold write_entry. apply roi_bind; [apply roi_put|].
  intros _. destruct (has_tags tags); [apply roi_addToTagIndex|apply roi_ret].
Qed.

Lemma task_ok_of (m : STW unit) :
  reads_only_indexes m -> task_ok (fun w' => let '(_, w'', _) := m w' in w'').
Proof.
  intros Hm w. destruct (Hm w) as (evs & E & Hi). unfold final in E.
  destruct (m w) as [[r w1] ts]. simpl in *. eauto.
Qed.

Lemma waitUntil_ok (m : STW unit) w :
  reads_only_indexes m -> exists t, waitUntil m w = (Ok tt, w, [t]) /\ task_ok t.
Proof. intros Hm. eexists. split; [reflexivity|]. apply task_ok_of, Hm. Qed.

Lemma registerPage_ok ctx url tags w :
  exists ts, @registerPageWithTags D U ctx url tags w = (Ok tt, w, ts) /\ Forall task_ok ts.
Proof.
  unfold registerPageWithTags.
  destruct (negb ctx || negb (has_tags tags)); [exists []; split; [reflexivity|constructor]|].
  unfold bind, caches_available.
  destruct (w_cache w); cbn -[waitUntil try_catch addToPageIndex]; [|exists []; split; [reflexivity|constructor]].
  destruct (waitUntil_ok (try_catch (addToPageIndex url (default [] tags)) (ret tt)) w)
    as (t & E & Ht); [apply roi_try_catch; [apply roi_addToPageIndex|apply roi_ret]|].
  rewrite E. exists [t]. split; [reflexivity|constructor; [exact Ht|constructor]].
Qed.

Lemma h_ret {S A} (Pre : S -> Prop) (a : A) (Post : A -> S -> Prop) :
  (forall s, Pre s -> Post a s) -> @hoare D U S A Pre (ret a) Post.
Proof. intros Hp s Hs. exists a, s, []. split; [reflexivity|split; [auto|constructor]]. Qed.

Lemma h_bind {S A B} (Pre : S -> Prop) (m : @ST D U S A) (Mid : A -> S -> Prop)
    (k : A -> @ST D U S B) (Post : B -> S -> Prop) :
  hoare Pre m Mid -> (forall a, hoare (Mid a) (k a) Post) -> hoare Pre (bind m k) Post.
Proof.
  intros Hm Hk s Hs. destruct (Hm s Hs) as (a & s1 & t1 & E1 & H1 & T1).
  destruct (Hk a s1 H1) as (b & s2 & t2 & E2 & H2 & T2).
  exists b, s2, (app t1 t2). unfold bind. rewrite E1, E2.
  split; [reflexivity|split; [exact H2|apply Forall_app; split; assumption]].
Qed.

(** A fact known before the step moves out of the precondition. *)
Lemma h_fact {S A} (Q : Prop) (Pre : S -> Prop) (m : @ST D U S A) Post :
  (Q -> hoare Pre m Post) -> hoare (fun s => Q /\ Pre s) m Post.
Proof. intros Hq s [HQ Hs]. exact (Hq HQ s Hs). Qed.

Lemma h_onW {R A} (m : STW A) (Pre : R * @World D U -> Prop) (Post : A -> R * @World D U -> Prop) :
  (forall r w, Pre (r, w) -> exists a w' ts, m w = (Ok a, w', ts) /\ Post a (r, w') /\ Forall task_ok ts) ->
  hoare Pre (onW m) Post.
Proof.
  intros Hm [r w] Hp. destruct (Hm r w Hp) as (a & w' & ts & E & Hq & T).
  exists a, (r, w'), ts. unfold onW. rewrite E. auto.
Qed.

Lemma h_modR {R} (g : R -> R) (J : @World D U -> Prop) :
  hoare (fun s : R * @World D U => J (snd s)) (modR g) (fun _ s => J (snd s)).
Proof. intros [r w] HJ. exists tt, (g r, w), []. split; [reflexivity|split; [exact HJ|constructor]]. Qed.

End Proofs.

Section LoaderProofs.
Context {T P : Type} `{JsDate} `{KeyCodec P}.
Local Abbreviation SR := (SanityResponse T).
Local Abbreviation LW := (@World SR SR).

Lemma roi_writeToCache q (p : P) (d : SR) tags o : reads_only_indexes (writeToCache q p d tags o).
Proof.
  unfold writeToCache. apply roi_bind; [apply roi_avail|].
  intros avail. destruct avail; cbn [negb]; [|apply roi_ret].
  apply roi_bind; [apply roi_date|]. intros now. apply roi_write_entry.
Qed.

Lemma h_rethrow {S A} (Pre : S -> Prop) (m : @ST SR SR S A) Post :
  hoare Pre m Post -> hoare Pre (rethrow m) Post.
Proof.
  intros Hm s Hs. destruct (Hm s Hs) as (a & s' & ts & E & Hq & Ht).
  exists a, s', ts. unfold rethrow. rewrite E. auto.
Qed.

Lemma read_lid_ok (a : AstroGlobal) (w : LW) :
  (a_locals a = None -> str_truthy (a_cookies a !! LAST_LIVE_EVENT_ID_COOKIE) = false) ->
  hoare (fun s => s = (a, w)) readLastLiveEventId
    (fun lid s => (str_truthy (locals_lastLiveEventId a)
                   || str_truthy (a_cookies a !! LAST_LIVE_EVENT_ID_COOKIE) = true ->
                   str_truthy lid = true) /\ snd s = w).
Proof.
  intros Hloc s ->. unfold readLastLiveEventId. cbv beta iota zeta.
  destruct (str_truthy (locals_lastLiveEventId a)) eqn:E1.
  - do 3 eexists. split; [reflexivity|]. split; [split; [intros _; exact E1|reflexivity]|constructor].
  - destruct (str_truthy (a_cookies a !! LAST_LIVE_EVENT_ID_COOKIE)) eqn:E2.
    + destruct (a_locals a) as [l|] eqn:El; [|specialize (Hloc eq_refl); discriminate].
      do 3 eexists. split; [reflexivity|]. split; [split; [intros _; exact E2|reflexivity]|constructor].
    + do 3 eexists. split; [reflexivity|]. split; [split; [discriminate|reflexivity]|constructor].
Qed.

(** C10: when visual editing is on, a [lastLiveEventId] is recorded in
    the request locals or its cookie, or the call passes [cache: false],
    [loadQuery] fetches once from upstream and returns status [BYPASS]
    (no cache age, the upstream data and tags); in the foreground it reads
    nothing from the cache (the only event is the fetch), and its
    background work reads no cache entry other than the two indexes. The
    cookie is copied into the locals, so the locals are assumed present
    when the cookie is set, and the fetch is assumed to succeed. *)
Theorem loadQuery_bypass (config : InitSanityConfig) (query : string) (params : P)
    (cacheOption : QueryCacheOption) (pageCacheOption : PageCacheOption)
    (a : AstroGlobal) (w : LW) (resp : SR)
    (Hbyp : isVisualEditingEnabled a = true \/ str_truthy (locals_lastLiveEventId a) = true \/
            str_truthy (a_cookies a !! LAST_LIVE_EVENT_ID_COOKIE) = true \/ cacheOption = QCOff)
    (Hloc : a_locals a = None -> str_truthy (a_cookies a !! LAST_LIVE_EVENT_ID_COOKIE) = false)
    (Hup : w_upstream w (w_calls w) = Ok resp) :
  (exists p, outcome (loadQuery config query params cacheOption pageCacheOption (a, w))
             = Ok (mkLoadQueryResult (sr_result resp) p BYPASS None (sr_syncTags resp))) /\
  w_calls (snd (final (loadQuery config query params cacheOption pageCacheOption (a, w))))
    = S (w_calls w) /\
  w_log (snd (final (loadQuery config query params cacheOption pageCacheOption (a, w))))
    = app (w_log w) [EFetch] /\
  Forall task_ok (tasks (loadQuery config query params cacheOption pageCacheOption (a, w))).
Proof.
  pose (JF := fun w' : LW => w_calls w' = S (w_calls w) /\ w_log w' = app (w_log w) [EFetch]).
  assert (Hh : hoare (fun s => s = (a, w)) (loadQuery config query params cacheOption pageCacheOption)
     (fun v s => (exists p, v = mkLoadQueryResult (sr_result resp) p BYPASS None (sr_syncTags resp))
                 /\ JF (snd s))).
  { unfold loadQuery.
    apply (h_bind _ _ (fun a' s => a' = a /\ s = (a, w))).
    { intros s ->. exists a, (a, w), []. split; [reflexivity|split; [split; reflexivity|constructor]]. }
    intros a'. apply h_fact. intros ->.
    eapply h_bind; [apply read_lid_ok, Hloc|].
    intros lid. apply h_fact. intros Hlid.
    assert (Hsc : negb (isVisualEditingEnabled a) && negb (str_truthy lid)
                  && match cacheOption with QCOff => false | _ => true end = false).
    { destruct (isVisualEditingEnabled a) eqn:Ev; [reflexivity|]. cbn [negb andb].
      destruct Hbyp as [E|[E|[E|E]]].
      - congruence.
      - rewrite Hlid by (rewrite E; reflexivity). reflexivity.
      - rewrite Hlid by (rewrite E, orb_true_r; reflexivity). reflexivity.
      - subst cacheOption. apply andb_false_r. }
    cbv zeta. rewrite Hsc. cbv iota.
    apply (h_bind _ _ (fun v s => v = (sr_result resp, BYPASS, None, sr_syncTags resp) /\ JF (snd s))).
    { apply h_rethrow.
      apply (h_bind _ _ (fun x s => x = (resp, sr_syncTags resp) /\ JF (snd s))).
      { apply h_onW. intros r w0 E. simpl in E. subst w0. unfold fetch_upstream. rewrite Hup.
        do 3 eexists. split; [reflexivity|split; [split; [reflexivity|split; reflexivity]|constructor]]. }
      intros x. apply h_fact. intros ->. cbv beta iota.
      apply (h_bind _ _ (fun _ s => JF (snd s))).
      { apply h_onW. intros r w0 Hj. do 3 eexists. split; [reflexivity|split; [exact Hj|constructor]]. }
      intros avail. apply (h_bind _ _ (fun _ s => JF (snd s))).
      { match goal with |- hoare _ (if ?b then _ else _) _ => destruct b end.
        - apply h_onW. intros r w0 Hj. do 3 eexists. split; [reflexivity|split; [exact Hj|]].
          constructor; [|constructor]. apply task_ok_of, roi_writeToCache.
        - apply h_ret. auto. }
      intros u. apply h_ret. intros s Hj. split; [reflexivity|exact Hj]. }
    intros v. apply h_fact. intros ->. cbv beta iota.
    apply (h_bind _ _ (fun _ s => JF (snd s))).
    { intros s Hj. exists (fst s), s, []. split; [reflexivity|split; [exact Hj|constructor]]. }
    intros a2. destruct (collectPageTags (a_locals a2) (sr_syncTags resp)) as [locals' allPageTags].
    apply (h_bind _ _ (fun _ s => JF (snd s))); [apply h_modR|].
    intros u. apply (h_bind _ _ (fun _ s => JF (snd s))).
    { match goal with |- hoare _ (if ?b then _ else _) _ => destruct b end;
        [apply h_modR|apply h_ret; auto]. }
    intros u'. apply (h_bind _ _ (fun _ s => JF (snd s))).
    { match goal with |- hoare _ (if ?b then _ else _) _ => destruct b end; [|apply h_ret; auto].
      apply h_onW. intros r w0 Hj.
      match goal with |- context [registerPageWithTags ?c ?u ?t w0] =>
        destruct (registerPage_ok c u t w0) as (ts & E & Hts) end.
      rewrite E. do 3 eexists. split; [reflexivity|split; [exact Hj|exact Hts]]. }
    intros u''. apply h_ret. intros s Hj. split; [eexists; reflexivity|exact Hj]. }
  destruct (Hh (a, w) eq_refl) as (v & s' & ts & E & [[p Hv] [Hc Hl]] & Hts).
  unfold outcome, final, tasks. rewrite E. simpl. subst v.
  split; [eauto|split; [exact Hc|split; [exact Hl|exact Hts]]].
Qed.

End LoaderProofs.

(** ** Page cache headers *)

Lemma set_headers_cases (a : AstroGlobal) tags options :
  setPageCacheHeaders a tags options = a \/
  ((exists h, a_headers (setPageCacheHeaders a tags options) = Some h) /\
   a_locals (setPageCacheHeaders a tags options) = markPageCacheHeadersSet (a_locals a)).
Proof.
  unfold setPageCacheHeaders. destruct (a_headers a) as [h|]; [|left; reflexivity].
  destruct (hasPageCacheHeadersSet (a_locals a)); [left; reflexivity|].
  destruct (default false (pc_disabled options)); [left; reflexivity|].
  destruct (shouldSkipPageCache a); [left; reflexivity|].
  right. split; [eexists; reflexivity|reflexivity].
Qed.

Lemma marked_noop (a : AstroGlobal) tags options :
  (exists h, a_headers a = Some h) -> hasPageCacheHeadersSet (a_locals a) = true ->
  setPageCacheHeaders a tags options = a.
Proof. intros [h Eh] Hs. unfold setPageCacheHeaders. rewrite Eh, Hs. reflexivity. Qed.

(** [setPageCacheHeaders] changes nothing when there is no
    response, when the request locals record that the headers were set,
    when the options disable page caching, or when the path starts with a
    no-cache prefix; and, with request locals present, a call either
    changes nothing or makes every later call on the same request a no-op.
    A first call that was a no-op (for instance with page caching disabled
    for that call) does not prevent a later call from setting the headers. *)
Theorem page_headers_at_most_once (a : AstroGlobal) (tags : list string)
    (options : PageCacheOptions) :
  ((a_headers a = None \/ hasPageCacheHeadersSet (a_locals a) = true \/
    pc_disabled options = Some true \/ shouldSkipPageCache a = true) ->
   setPageCacheHeaders a tags options = a) /\
  (a_locals a <> None ->
   setPageCacheHeaders a tags options = a \/
   forall tags' options', setPageCacheHeaders (setPageCacheHeaders a tags options) tags' options'
                          = setPageCacheHeaders a tags options).
Proof.
  split.
  - intros Hc. unfold setPageCacheHeaders. destruct (a_headers a) as [h|] eqn:Eh; [|reflexivity].
    destruct (hasPageCacheHeadersSet (a_locals a)) eqn:E1; [reflexivity|].
    destruct (default false (pc_disabled options)) eqn:E2; [reflexivity|].
    destruct (shouldSkipPageCache a) eqn:E3; [reflexivity|].
    exfalso. destruct Hc as [E|[E|[E|E]]]; try congruence.
    rewrite E in E2. discriminate.
  - intros Hl. destruct (set_headers_cases a tags options) as [E|[Hh Hloc]]; [left; exact E|right].
    intros tags' options'. apply marked_noop; [exact Hh|].
    rewrite Hloc. destruct (a_locals a); [reflexivity|congruence].
Qed.

(** ** Purge endpoint *)

Section HandlerProofs.
Context {D U : Type}.

Lemma purge_always_resolves tags (w : @World D U) :
  exists r w' ts, purgeCacheByTags tags w = (Ok r, w', ts).
Proof.
  unfold purgeCacheByTags. destruct (w_cache w); [|eauto].
  destruct (try_catch (purge_body tags) (ret tt) (mkPurge [] [] [], w)) as [[x [r w']] ts].
  eauto.
Qed.

(** The rest of the handler's contract: 405 off POST, 400 for a non-null
    body without a tags array, 200 with empty lists when no tag survives
    the filter, and otherwise a purge of the filtered tags. *)
Lemma purge_handler_responses (w : @World D U) :
  (forall m b, m <> "POST" ->
     outcome (createPurgeHandler (mkRequest m b) w)
     = Ok (failure_response 405 "Method not allowed. Use POST.")) /\
  (forall body, body <> JSNull -> (forall l, get_field body "tags" <> Ok (Some (JSArray l))) ->
     outcome (createPurgeHandler (mkRequest "POST" (Ok body)) w)
     = Ok (failure_response 400 "Missing or invalid tags array")) /\
  (forall body l, get_field body "tags" = Ok (Some (JSArray l)) -> filter_tags l = [] ->
     exists ev, outcome (createPurgeHandler (mkRequest "POST" (Ok body)) w)
                = Ok (mkPurgeResponse 200 true [] [] [] [] ev None)) /\
  (forall body l, get_field body "tags" = Ok (Some (JSArray l)) -> filter_tags l <> [] ->
     exists r ev, outcome (purgeCacheByTags (filter_tags l) w) = Ok r /\
       outcome (createPurgeHandler (mkRequest "POST" (Ok body)) w)
       = Ok (mkPurgeResponse 200 true (purgedQueryKeys r) (purgedQueryKeys r)
               (purgedPageUrls r) (purgedTags r) ev None)).
Proof.
  split; [|split; [|split]].
  - intros m b Hm. unfold createPurgeHandler, outcome. cbn [req_method].
    destruct (String.eqb m "POST") eqn:E; [apply String.eqb_eq in E; contradiction|reflexivity].
  - intros body Hn Ht. unfold createPurgeHandler, outcome. cbn [String.eqb negb req_method req_json].
    unfold bind, lift_res, ret.
    match goal with |- context [match get_field ?b ?k with Ok _ => _ | Err _ => _ end] =>
      destruct (get_field b k) as [t|msg] eqn:E end;
      [|destruct body; try discriminate; contradiction].
    destruct t as [[]|]; try reflexivity. exfalso. eapply Ht. reflexivity.
  - intros body l Ht Hf. unfold createPurgeHandler, outcome. cbn [String.eqb negb req_method req_json].
    unfold bind, lift_res, ret. cbv beta iota zeta.
    match goal with |- context [match get_field ?b ?k with Ok _ => _ | Err _ => _ end] =>
      destruct (get_field b k) as [t|msg] eqn:E end; [|discriminate].
    injection Ht as ->. rewrite Hf. cbn [length Nat.eqb].
    destruct body; try discriminate; eexists; reflexivity.
  - intros body l Ht Hf. destruct (purge_always_resolves (filter_tags l) w) as (r & w' & ts & Ep).
    unfold createPurgeHandler, outcome. cbn [String.eqb negb req_method req_json].
    unfold bind, lift_res, ret. cbv beta iota zeta delta [negb Ascii.eqb Bool.eqb].
    match goal with |- context [match get_field ?b ?k with Ok _ => _ | Err _ => _ end] =>
      destruct (get_field b k) as [t|msg] eqn:E end; [|discriminate].
    injection Ht as ->.
    destruct (length (filter_tags l) =? 0)%nat eqn:El.
    { apply Nat.eqb_eq, length_zero_iff_nil in El. contradiction. }
    rewrite Ep. exists r.
    destruct body; try discriminate; eexists; split; reflexivity.
Qed.

(** C7 (code bug): a POST whose JSON body is [null] has no tags array, yet
    the handler answers 500 rather than 400: reading [body.tags] on [null]
    throws, and the catch-all turns the TypeError into a server error. *)
Theorem purge_handler_null_body (w : @World D U) :
  outcome (createPurgeHandler (mkRequest "POST" (Ok JSNull)) w)
  = Ok (failure_response 500 "Cannot read properties of null (reading 'tags')").
Proof. reflexivity. Qed.

End HandlerProofs.

(** C5 (code bug): a tag found only in the page index is purged (its page
    is deleted and reported in [purgedPageUrls]) but is missing from
    [purgedTags]: only the query-index loop records found tags. *)
Theorem purge_page_only_tag_unreported :
  outcome (purgeCacheByTags ["t"] page_only_world) = Ok (mkPurge [] [demo_page] []) /\
  store_of (final (purgeCacheByTags ["t"] page_only_world)) !! demo_page = None.
Proof. vm_compute. split; reflexivity. Qed.

(** C4 (code bug): a requested tag that the tag index does not hold but
    that names a member of [Object.prototype] ("constructor") is not
    ignored: [tagIndex[tag]] is the inherited [Object] function, which is
    truthy, so the tag is pushed to [purgedTags] and iterating it throws.
    The [catch] returns the partial result, so the tags after it are never
    purged: with ["constructor"; "t"] the entry listed under "t" stays in
    the cache. *)
Theorem purge_inherited_tag_reported :
  outcome (purgeCacheByTags ["constructor"] tagged_world) = Ok (mkPurge [] [] ["constructor"]) /\
  outcome (purgeCacheByTags ["constructor"; "t"] tagged_world) = Ok (mkPurge [] [] ["constructor"]) /\
  store_of (final (purgeCacheByTags ["constructor"; "t"] tagged_world)) !! demo_key
    = Some demo_entry_response /\
  store_of (final (purgeCacheByTags ["t"] tagged_world)) !! demo_key = None.
Proof. vm_compute. split; [reflexivity|split; [reflexivity|split; reflexivity]]. Qed.

(** C8 (code bug): the [pageCache] option of [loadQuery] is documented as
    "Only the first loadQuery() call's pageCache options are used per
    request", but a first call with page caching disabled does not mark
    the headers as set, so a second call on the same request with page
    caching enabled writes the headers. *)
Theorem page_headers_second_call_writes :
  header (setPageCacheHeaders blog_astro ["t"] page_cache_off) "cdn-cache-control" = None /\
  header (setPageCacheHeaders (setPageCacheHeaders blog_astro ["t"] page_cache_off) ["t"] page_cache_on)
         "cdn-cache-control" = Some "public, max-age=3600, stale-while-revalidate=86400".
Proof. vm_compute. split; reflexivity. Qed.

(** ** Witnesses and counterexamples *)

Lemma cachedFetch_freshness_windows_witness :
  outcome (cachedFetch true "q" tt id demo_opts (demo_cached_world 170000))
  = Ok (mkResult 7 STALE (Some (JNum 70))).
Proof.
  destruct (@cachedFetch_freshness_windows nat (nat * option (list string)) unit demo_date demo_keys "q" tt id demo_opts
              (mkBackend {[demo_key := demo_entry_response]} false) demo_entry_response
              (mkEntry 7 (Some ["t"])) 60 300 70 (demo_cached_world 170000)
              eq_refl eq_refl ltac:(vm_compute; reflexivity) eq_refl
              ltac:(vm_compute; reflexivity) ltac:(vm_compute; reflexivity)
              ltac:(vm_compute; reflexivity)) as (_ & Hstale & _).
  apply Hstale. lia.
Defined.

Lemma cachedFetch_stale_serves_old_data_witness :
  outcome (cachedFetch true "q" tt id demo_opts (demo_cached_world 170000))
  = Ok (mkResult 7 STALE (Some (JNum 70))) /\
  length (tasks (cachedFetch true "q" tt id demo_opts (demo_cached_world 170000))) = 1%nat.
Proof.
  destruct (@cachedFetch_stale_serves_old_data nat (nat * option (list string)) unit demo_date demo_keys "q" tt id demo_opts
              (mkBackend {[demo_key := demo_entry_response]} false) demo_entry_response
              (mkEntry 7 (Some ["t"])) 60 300 70 (demo_cached_world 170000)
              eq_refl eq_refl ltac:(vm_compute; reflexivity) eq_refl
              ltac:(vm_compute; reflexivity) ltac:(vm_compute; reflexivity)
              ltac:(vm_compute; reflexivity) ltac:(lia)) as (Ho & _ & t & Ht & _).
  split; [exact Ho|rewrite Ht; reflexivity].
Defined.

Lemma cachedFetch_failing_cache_is_miss_witness :
  outcome (cachedFetch true "q" tt id demo_opts demo_failing_world) = Ok (mkResult 8 MISS None).
Proof.
  apply (cachedFetch_failing_cache_is_miss true "q" tt id demo_opts demo_failing_world (8, None)).
  - intros b E. injection E as <-. reflexivity.
  - reflexivity.
Defined.

Lemma cachedFetch_missing_time_is_hit :
  outcome (cachedFetch true "q" tt id demo_opts untimed_world) = Ok (mkResult 7 HIT (Some (JNum 0))).
Proof. vm_compute. reflexivity. Defined.

Lemma cachedFetch_bad_metadata_witness :
  outcome (cachedFetch true "q" tt id demo_opts bad_time_world) = Ok (mkResult 8 MISS None).
Proof.
  destruct (cachedFetch_bad_metadata "q" tt id demo_opts bad_time_world
              (mkResponse (Some "max-age=60, stale-while-revalidate=300") (Some "yesterday")
                          (BEntry (mkEntry 7 None))) (8, None)
              ltac:(eexists; split; [reflexivity|split; [reflexivity|vm_compute; reflexivity]])
              eq_refl) as [Hbad _].
  apply Hbad. right. left. exists "yesterday". split; [reflexivity|split; [discriminate|vm_compute; reflexivity]].
Defined.

Lemma purge_tag_complete_witness :
  store_of (final (purgeCacheByTags ["t"] tagged_world)) !! demo_key = None.
Proof.
  destruct (purge_tag_complete "t" tagged_world {["t" := [demo_key]]}
              ltac:(eexists; split; reflexivity) ltac:(vm_compute; reflexivity)
              ltac:(intros ks k E Hk; vm_compute in E; injection E as <-;
                    apply list_elem_of_singleton in Hk; subst k;
                    split; intros E; vm_compute in E; discriminate E)) as (_ & Hdel & _).
  apply (Hdel [demo_key]); [vm_compute; reflexivity|left].
Defined.

Lemma untagged_entry_purged :
  outcome (cachedFetch true "q" tt id demo_opts relisted_world) = Ok (mkResult 7 MISS None) /\
  store_of relisted_after_fetch !! demo_key = Some (createCacheResponse (mkEntry 7 None) 60 300 1000) /\
  outcome (purgeCacheByTags ["t"] relisted_after_fetch) = Ok (mkPurge [demo_key] [] ["t"]) /\
  store_of (final (purgeCacheByTags ["t"] relisted_after_fetch)) !! demo_key = None.
Proof. vm_compute. split; [reflexivity|split; [reflexivity|split; reflexivity]]. Defined.

Lemma untagged_write_purge_frame_witness :
  read_index (store_of (final (write_entry demo_key (createCacheResponse (mkEntry 7 None) 60 300 1000)
                                 None relisted_world))) TAG_INDEX_URL
  = read_index (store_of relisted_world) TAG_INDEX_URL.
Proof.
  apply (proj1 untagged_write_purge_frame demo_key _ None relisted_world).
  - eexists. split; reflexivity.
  - intros E. vm_compute in E. discriminate E.
  - reflexivity.
Defined.

Lemma page_headers_at_most_once_witness :
  setPageCacheHeaders (setPageCacheHeaders blog_astro ["t"] page_cache_on) ["u"] page_cache_on
  = setPageCacheHeaders blog_astro ["t"] page_cache_on.
Proof.
  destruct (proj2 (page_headers_at_most_once blog_astro ["t"] page_cache_on) ltac:(discriminate))
    as [E|Hnoop]; [|exact (Hnoop ["u"] page_cache_on)].
  exfalso. apply (f_equal (fun a => header a "cdn-cache-control")) in E.
  vm_compute in E. discriminate E.
Defined.

Lemma loadQuery_bypass_witness :
  exists p, outcome (loadQuery demo_config "q" tt QCDefault PCDefault (live_astro, loader_world))
            = Ok (mkLoadQueryResult 5 p BYPASS None (Some ["t"])).
Proof.
  apply (proj1 (loadQuery_bypass demo_config "q" tt QCDefault PCDefault live_astro loader_world
                  demo_sanity_response
                  ltac:(right; right; left; vm_compute; reflexivity)
                  ltac:(intros E; discriminate E)
                  eq_refl)).
Defined.

(** ** Further properties of the cache, the purge route and the loader *)

Section Extra.
Local Open Scope Z_scope.
Context {D U P : Type} `{JsDate} `{KeyCodec P}.

Lemma all_chars_cons p a s : all_chars p (String a s) = p a && all_chars p s.
Proof. reflexivity. Qed.

Lemma read_digits_cons a s acc n :
  read_digits (String a s) acc n = if is_digit a then read_digits s (acc * 10 + digit_val a) (S n) else (acc, n).
Proof. reflexivity. Qed.

Lemma parseInt10_minus s : parseInt10 (String "-" s) = parse_unsigned (-1) s.
Proof. reflexivity. Qed.

Lemma str_app_cons a s1 s2 : String a s1 +:+ s2 = String a (s1 +:+ s2).
Proof. reflexivity. Qed.

Lemma str_app_nil_l s : "" +:+ s = s.
Proof. reflexivity. Qed.

Lemma str_app_assoc s1 s2 s3 : (s1 +:+ s2) +:+ s3 = s1 +:+ (s2 +:+ s3).
Proof. induction s1 as [|a s1 IH]; [reflexivity|rewrite !str_app_cons, IH; reflexivity]. Qed.

Lemma all_chars_app p s1 s2 : all_chars p (s1 +:+ s2) = all_chars p s1 && all_chars p s2.
Proof.
  induction s1 as [|a s1 IH]; [reflexivity|].
  rewrite str_app_cons, !all_chars_cons, IH, andb_assoc. reflexivity.
Qed.

Lemma js_num_str_neg_abs z : z < 0 -> js_num_str z = String "-" (num_str_abs (- z)).
Proof. intros Hz. unfold js_num_str. apply Z.ltb_lt in Hz. rewrite Hz. reflexivity. Qed.

Lemma js_num_str_nonneg_abs z : 0 <= z -> js_num_str z = num_str_abs z.
Proof. intros Hz. unfold js_num_str. apply Z.ltb_ge in Hz. rewrite Hz. reflexivity. Qed.

Lemma num_str_abs_plain n : n < 10 ^ 21 -> num_str_abs n = digits_of 64 n "".
Proof. intros Hn. unfold num_str_abs. apply Z.ltb_lt in Hn. rewrite Hn. reflexivity. Qed.

Lemma num_str_abs_exp n : 10 ^ 21 <= n ->
  num_str_abs n = exp_form (digits_of (Z.to_nat (Z.log2 n) + 1) n "").
Proof. intros Hn. unfold num_str_abs. apply Z.ltb_ge in Hn. rewrite Hn. reflexivity. Qed.

Lemma js_num_str_neg z : - 10 ^ 21 < z < 0 -> js_num_str z = String "-" (digits_of 64 (- z) "").
Proof. intros Hz. rewrite js_num_str_neg_abs, num_str_abs_plain by lia. reflexivity. Qed.

Lemma js_num_str_nonneg z : 0 <= z < 10 ^ 21 -> js_num_str z = digits_of 64 z "".
Proof. intros Hz. rewrite js_num_str_nonneg_abs, num_str_abs_plain by lia. reflexivity. Qed.

Lemma digits_of_S f n acc :
  digits_of (S f) n acc
  = if n / 10 =? 0 then String (ascii_of_nat (Z.to_nat (n mod 10) + 48)) acc
    else digits_of f (n / 10) (String (ascii_of_nat (Z.to_nat (n mod 10) + 48)) acc).
Proof. reflexivity. Qed.

Lemma digit_char m : 0 <= m < 10 ->
  let c := ascii_of_nat (Z.to_nat m + 48) in
  is_digit c = true /\ digit_val c = m /\ num_char c = true.
Proof.
  intros Hm. assert (m = 0 \/ m = 1 \/ m = 2 \/ m = 3 \/ m = 4 \/ m = 5 \/ m = 6 \/ m = 7 \/ m = 8 \/ m = 9) as Hc by lia.
  repeat destruct Hc as [->|Hc]; [..|subst m]; vm_compute; auto.
Qed.

Lemma digits_of_chars f : forall n acc, all_chars num_char acc = true ->
  all_chars num_char (digits_of f n acc) = true.
Proof.
  induction f as [|f IH]; intros n acc Ha; [exact Ha|rewrite digits_of_S].
  destruct (digit_char (n mod 10)) as (_ & _ & Hd); [apply Z.mod_pos_bound; lia|].
  destruct (n / 10 =? 0); [|apply IH]; rewrite all_chars_cons, Hd, Ha; reflexivity.
Qed.

Lemma strip_zeros_chars p s : all_chars p s = true -> all_chars p (strip_zeros s) = true.
Proof.
  induction s as [|a s IH]; [reflexivity|]. simpl. intros Ha.
  apply andb_true_iff in Ha as [Ha Hs].
  destruct (Ascii.eqb a "0" && String.eqb (strip_zeros s) ""); [reflexivity|].
  simpl. rewrite Ha, IH by exact Hs. reflexivity.
Qed.

Lemma exp_form_chars ds : all_chars num_char ds = true -> all_chars num_char (exp_form ds) = true.
Proof.
  destruct ds as [|d rest]; [reflexivity|]. intros Hd. rewrite all_chars_cons in Hd.
  apply andb_true_iff in Hd as [Hd Hr]. unfold exp_form. rewrite all_chars_cons, Hd, andb_true_l.
  rewrite !all_chars_app. apply andb_true_iff. split; [|apply andb_true_iff; split].
  - destruct (String.eqb (strip_zeros rest) ""); [reflexivity|].
    rewrite str_app_cons, all_chars_cons. apply strip_zeros_chars, Hr.
  - reflexivity.
  - apply digits_of_chars. reflexivity.
Qed.

Lemma num_str_abs_chars n : all_chars num_char (num_str_abs n) = true.
Proof.
  unfold num_str_abs. destruct (n <? 10 ^ 21).
  - apply digits_of_chars. reflexivity.
  - apply exp_form_chars, digits_of_chars. reflexivity.
Qed.

Lemma js_num_str_chars z : all_chars num_char (js_num_str z) = true.
Proof.
  destruct (Z.ltb_spec z 0).
  - rewrite js_num_str_neg_abs by lia. rewrite all_chars_cons. apply num_str_abs_chars.
  - rewrite js_num_str_nonneg_abs by lia. apply num_str_abs_chars.
Qed.

Lemma digits_of_head f : forall n acc, exists m rest, 0 <= m < 10 /\
  digits_of (S f) n acc = String (ascii_of_nat (Z.to_nat m + 48)) rest.
Proof.
  induction f as [|f IH]; intros n acc.
  - rewrite digits_of_S. exists (n mod 10). destruct (n / 10 =? 0); eexists; (split; [apply Z.mod_pos_bound; lia|reflexivity]).
  - rewrite digits_of_S. destruct (n / 10 =? 0).
    + exists (n mod 10), acc. split; [apply Z.mod_pos_bound; lia|reflexivity].
    + apply IH.
Qed.

Lemma read_digits_of f : forall n acc a k, 0 <= n < 10 ^ Z.of_nat (S f) ->
  exists len, read_digits (digits_of (S f) n acc) a k
              = read_digits acc (a * 10 ^ Z.of_nat (S len) + n) (S len + k).
Proof.
  induction f as [|f IH]; intros n acc a k Hn.
  - simpl in Hn. rewrite digits_of_S.
    assert (Hq : n / 10 = 0) by (apply Z.div_small; lia). rewrite Hq, Z.eqb_refl. cbv iota.
    destruct (digit_char (n mod 10)) as (Hd & Hv & _); [apply Z.mod_pos_bound; lia|].
    exists O. rewrite read_digits_cons. rewrite Hd, Hv. rewrite Z.mod_small by lia. f_equal; lia.
  - rewrite digits_of_S.
    destruct (digit_char (n mod 10)) as (Hd & Hv & _); [apply Z.mod_pos_bound; lia|].
    destruct (n / 10 =? 0) eqn:Hq.
    + apply Z.eqb_eq in Hq. exists O. rewrite read_digits_cons. rewrite Hd, Hv.
      pose proof (Z.div_mod n 10). f_equal; lia.
    + assert (Hq' : 0 <= n / 10 < 10 ^ Z.of_nat (S f)).
      { split; [apply Z.div_pos; lia|]. apply Z.div_lt_upper_bound; [lia|].
        rewrite Nat2Z.inj_succ in *. rewrite Z.pow_succ_r in Hn by lia. lia. }
      destruct (IH (n / 10) (String (ascii_of_nat (Z.to_nat (n mod 10) + 48)) acc) a k Hq')
        as (len & E). rewrite E. exists (S len). rewrite read_digits_cons. rewrite Hd, Hv.
      assert (Ha : (a * 10 ^ Z.of_nat (S len) + n / 10) * 10 + n mod 10
                   = a * 10 ^ Z.of_nat (S (S len)) + n).
      { pose proof (Z.div_mod n 10). rewrite (Nat2Z.inj_succ (S len)), Z.pow_succ_r by lia. lia. }
      rewrite Ha. reflexivity.
Qed.

Lemma parseInt10_digit m rest : 0 <= m < 10 ->
  parseInt10 (String (ascii_of_nat (Z.to_nat m + 48)) rest)
  = parse_unsigned 1 (String (ascii_of_nat (Z.to_nat m + 48)) rest).
Proof.
  intros Hm. assert (m = 0 \/ m = 1 \/ m = 2 \/ m = 3 \/ m = 4 \/ m = 5 \/ m = 6 \/ m = 7 \/ m = 8 \/ m = 9) as Hc by lia.
  repeat destruct Hc as [->|Hc]; [..|subst m]; reflexivity.
Qed.

Lemma parse_digits_of n : 0 <= n < 10 ^ 64 -> parse_unsigned 1 (digits_of 64 n "") = JNum n.
Proof.
  intros Hn. unfold parse_unsigned.
  destruct (read_digits_of 63 n "" 0 0 Hn) as (len & E). rewrite E. simpl. f_equal. lia.
Qed.

Lemma parseInt10_js_num_str z : - 10 ^ 21 < z < 10 ^ 21 -> parseInt10 (js_num_str z) = JNum z.
Proof.
  intros Hz. destruct (Z.ltb_spec z 0) as [Hneg|Hneg].
  - rewrite js_num_str_neg, parseInt10_minus by lia. unfold parse_unsigned.
    destruct (read_digits_of 63 (- z) "" 0 0) as (len & E); [lia|]. rewrite E. simpl. f_equal. lia.
  - rewrite js_num_str_nonneg by lia.
    destruct (digits_of_head 63 z "") as (m & rest & Hm & E).
    rewrite E, parseInt10_digit by exact Hm. rewrite <- E. apply parse_digits_of. lia.
Qed.

(** From 10^21 on, [parseInt] reads back the leading digit only. *)
Lemma parseInt10_js_num_str_big z : 10 ^ 21 <= z ->
  exists m, 0 <= m < 10 /\ parseInt10 (js_num_str z) = JNum m.
Proof.
  intros Hz. rewrite js_num_str_nonneg_abs, num_str_abs_exp by lia.
  destruct (Z.to_nat (Z.log2 z) + 1)%nat as [|f] eqn:Ef; [lia|].
  destruct (digits_of_head f z "") as (m & rest & Hm & E). rewrite E.
  exists m. split; [exact Hm|]. unfold exp_form.
  rewrite parseInt10_digit by exact Hm. unfold parse_unsigned.
  destruct (digit_char m Hm) as (Hd & Hv & _).
  rewrite read_digits_cons, Hd, Hv.
  destruct (String.eqb (strip_zeros rest) ""); rewrite ?str_app_nil_l, ?str_app_cons; rewrite read_digits_cons;
    [change (is_digit "e") with false|change (is_digit ".") with false]; cbv iota beta;
    cbn [Nat.eqb]; f_equal; lia.
Qed.

Lemma parseInt10_js_num_str_nonneg z : 0 <= z ->
  exists m, 0 <= m /\ parseInt10 (js_num_str z) = JNum m.
Proof.
  intros Hz. destruct (Z.ltb_spec z (10 ^ 21)).
  - exists z. split; [exact Hz|]. apply parseInt10_js_num_str. lia.
  - destruct (parseInt10_js_num_str_big z) as (m & Hm & E); [lia|]. exists m. split; [lia|exact E].
Qed.

Lemma all_chars_mono (p q : ascii -> bool) s : (forall a, p a = true -> q a = true) ->
  all_chars p s = true -> all_chars q s = true.
Proof.
  intros Hpq. induction s as [|a s IH]; simpl; [reflexivity|].
  intros [Ha Hs]%andb_prop. rewrite (Hpq a Ha), (IH Hs). reflexivity.
Qed.

Lemma split_on_none c s : all_chars (fun a => negb (Ascii.eqb a c)) s = true -> split_on c s = [s].
Proof.
  induction s as [|a s IH]; simpl; [reflexivity|].
  intros [Ha Hs]%andb_prop. apply negb_true_iff in Ha. rewrite IH, Ha by exact Hs. reflexivity.
Qed.

Lemma split_on_app c s1 s2 : all_chars (fun a => negb (Ascii.eqb a c)) s1 = true ->
  split_on c (s1 +:+ String c s2) = s1 :: split_on c s2.
Proof.
  induction s1 as [|a s1 IH]; [|rewrite str_app_cons]; simpl.
  - intros _. rewrite Ascii.eqb_refl. reflexivity.
  - intros [Ha Hs]%andb_prop. apply negb_true_iff in Ha. rewrite IH, Ha by exact Hs. reflexivity.
Qed.

Lemma trim_end_id s : all_chars (fun a => negb (is_ws a)) s = true -> trim_end s = s.
Proof.
  induction s as [|a s IH]; simpl; [reflexivity|].
  intros [Ha Hs]%andb_prop. apply negb_true_iff in Ha. rewrite IH, Ha by exact Hs.
  rewrite andb_false_r. reflexivity.
Qed.

Lemma trim_start_id s : all_chars (fun a => negb (is_ws a)) s = true -> trim_start s = s.
Proof.
  destruct s as [|a s]; simpl; [reflexivity|].
  intros [Ha _]%andb_prop. apply negb_true_iff in Ha. rewrite Ha. reflexivity.
Qed.

Lemma num_char_safe a : num_char a = true ->
  negb (Ascii.eqb a ",") = true /\ negb (Ascii.eqb a "=") = true /\ negb (is_ws a) = true.
Proof. intros Hn. destruct a as [[] [] [] [] [] [] [] []]; vm_compute in Hn |- *; auto; discriminate. Qed.

Lemma parseCacheControl_nonempty s1 s2 : s1 <> "" ->
  parseCacheControl (Some (s1 +:+ s2)) = fold_left (fun d part => directive_of part d) (split_on "," (s1 +:+ s2)) ∅.
Proof. destruct s1; [contradiction|reflexivity]. Qed.

Lemma header_directives A B : all_chars num_char A = true -> all_chars num_char B = true ->
  let d := parseCacheControl (Some ("max-age=" +:+ A +:+ ", stale-while-revalidate=" +:+ B)) in
  num_directive d "max-age" = Some (parseInt10 A) /\
  num_directive d "stale-while-revalidate" = Some (parseInt10 B).
Proof.
  intros HA HB d.
  assert (Hc : forall s, all_chars num_char s = true -> all_chars (fun a => negb (Ascii.eqb a ",")) s = true)
    by (intros s; apply all_chars_mono; intros a Ha; apply (num_char_safe a Ha)).
  assert (He : forall s, all_chars num_char s = true -> all_chars (fun a => negb (Ascii.eqb a "=")) s = true)
    by (intros s; apply all_chars_mono; intros a Ha; apply (num_char_safe a Ha)).
  assert (Hw : forall s, all_chars num_char s = true -> all_chars (fun a => negb (is_ws a)) s = true)
    by (intros s; apply all_chars_mono; intros a Ha; apply (num_char_safe a Ha)).
  assert (Hd : d = directive_of (" stale-while-revalidate=" +:+ B) (directive_of ("max-age=" +:+ A) ∅)).
  { subst d.
    assert (Hh : "max-age=" +:+ A +:+ ", stale-while-revalidate=" +:+ B
                 = ("max-age=" +:+ A) +:+ String "," (" stale-while-revalidate=" +:+ B))
      by (rewrite str_app_assoc; reflexivity).
    rewrite Hh, parseCacheControl_nonempty by discriminate.
    rewrite split_on_app by (rewrite all_chars_app, (Hc A HA); reflexivity).
    rewrite (split_on_none "," (" stale-while-revalidate=" +:+ B))
      by (rewrite all_chars_app, (Hc B HB); reflexivity).
    reflexivity. }
  assert (H1 : directive_of ("max-age=" +:+ A) ∅ = <["max-age" := DNum (parseInt10 A)]> ∅).
  { unfold directive_of, trim.
    rewrite (trim_start_id ("max-age=" +:+ A)), (trim_end_id ("max-age=" +:+ A))
      by (rewrite all_chars_app, (Hw A HA); reflexivity).
    change ("max-age=" +:+ A) with ("max-age" +:+ String "=" A).
    rewrite split_on_app by reflexivity. rewrite split_on_none by exact (He A HA). reflexivity. }
  assert (H2 : forall m, directive_of (" stale-while-revalidate=" +:+ B) m
               = <["stale-while-revalidate" := DNum (parseInt10 B)]> m).
  { intros m. unfold directive_of, trim.
    change (trim_start (" stale-while-revalidate=" +:+ B)) with ("stale-while-revalidate=" +:+ B).
    rewrite (trim_end_id ("stale-while-revalidate=" +:+ B))
      by (rewrite all_chars_app, (Hw B HB); reflexivity).
    change ("stale-while-revalidate=" +:+ B) with ("stale-while-revalidate" +:+ String "=" B).
    rewrite split_on_app by reflexivity. rewrite split_on_none by exact (He B HB). reflexivity. }
  rewrite Hd, H1, H2. unfold num_directive. split.
  - rewrite lookup_insert_ne by discriminate. rewrite lookup_insert_eq. reflexivity.
  - rewrite lookup_insert_eq. reflexivity.
Qed.

Lemma createCacheResponse_nums (e : @CacheEntry D) M S now :
  - 10 ^ 21 < M < 10 ^ 21 -> - 10 ^ 21 < S < 10 ^ 21 ->
  let d := parseCacheControl (r_x_cache_control (createCacheResponse e M S now)) in
  num_directive d "max-age" = Some (JNum M) /\
  num_directive d "stale-while-revalidate" = Some (JNum S).
Proof.
  intros HM HS d. subst d. unfold createCacheResponse. cbn [r_x_cache_control].
  destruct (header_directives (js_num_str M) (js_num_str S)) as [E1 E2]; try apply js_num_str_chars.
  rewrite E1, E2, !parseInt10_js_num_str by assumption. split; reflexivity.
Qed.

Lemma createCacheResponse_age (e : @CacheEntry D) M S t now :
  date_getTime (date_toISOString t) = Some t -> date_toISOString t <> "" ->
  getCacheAge (createCacheResponse e M S t) now = JNum ((now - t) / 1000).
Proof.
  intros Ht Hne. unfold getCacheAge, createCacheResponse. cbn [r_x_cache_time].
  destruct (date_toISOString t) as [|c s] eqn:E; [contradiction|]. rewrite Ht. reflexivity.
Qed.

Lemma createCacheResponse_max_age_read (e : @CacheEntry D) M S t :
  num_directive (parseCacheControl (r_x_cache_control (createCacheResponse e M S t))) "max-age"
  = Some (parseInt10 (js_num_str M)).
Proof.
  unfold createCacheResponse. cbn [r_x_cache_control].
  destruct (header_directives (js_num_str M) (js_num_str S)) as [E1 _]; try apply js_num_str_chars.
  exact E1.
Qed.

Lemma createCacheResponse_max_age_nonneg (e : @CacheEntry D) M S t : 0 <= M ->
  exists m, 0 <= m /\
  num_directive (parseCacheControl (r_x_cache_control (createCacheResponse e M S t))) "max-age"
  = Some (JNum m).
Proof.
  intros HM. rewrite createCacheResponse_max_age_read.
  destruct (parseInt10_js_num_str_nonneg M HM) as (m & Hm & E). rewrite E. eauto.
Qed.


(** An entry written by [createCacheResponse] at [t] with windows [M]
    and [S] has age [(now - t) / 1000] seconds, is fresh exactly while the
    age is at most [M], and is stale but valid exactly while the age lies
    in (M, M + S]. *)
Theorem createCacheResponse_freshness (e : @CacheEntry D) M S t now :
  - 10 ^ 21 < M < 10 ^ 21 -> - 10 ^ 21 < S < 10 ^ 21 ->
  date_getTime (date_toISOString t) = Some t -> date_toISOString t <> "" ->
  let r := createCacheResponse e M S t in
  let A := (now - t) / 1000 in
  getCacheAge r now = JNum A /\
  isFresh r now = (A <=? M) /\
  isStaleButValid r now = (M <? A) && (A <=? M + S).
Proof.
  intros HM HS Ht Hne r A. subst r A.
  destruct (createCacheResponse_nums e M S t HM HS) as [Hm Hs].
  pose proof (createCacheResponse_age e M S t now Ht Hne) as Ha.
  rewrite (isFresh_num _ _ _ Hm), (isStaleButValid_num _ _ _ _ Hm Hs), Ha.
  repeat split.
Qed.

End Extra.


Section Extra2.
Context {D U P : Type} `{JsDate} `{KeyCodec P}.
Local Abbreviation STW A := (@ST D U (@World D U) A).

Lemma index_upd_idem url l : index_upd url (index_upd url l) = index_upd url l.
Proof.
  unfold index_upd. destruct (existsb (String.eqb url) l) eqn:E; rewrite ?E; [reflexivity|].
  rewrite existsb_app. simpl. rewrite String.eqb_refl, orb_true_r. reflexivity.
Qed.

Lemma index_extend_cons url (ix : gmap string (list string)) t0 rest :
  index_extend url ix (t0 :: rest) = index_extend url (<[t0 := index_upd url (default [] (ix !! t0))]> ix) rest.
Proof. reflexivity. Qed.

Lemma index_extend_lookup url tags : forall (ix : gmap string (list string)) t,
  index_extend url ix tags !! t =
  if decide (t ∈ tags) then Some (index_upd url (default [] (ix !! t))) else ix !! t.
Proof.
  induction tags as [|t0 rest IH]; intros ix t.
  - rewrite decide_False by (intros Hin; inversion Hin). reflexivity.
  - rewrite index_extend_cons, IH.
    destruct (decide (t = t0)) as [->|Hne].
    + rewrite lookup_insert_eq. simpl.
      destruct (decide (t0 ∈ t0 :: rest)) as [_|Hn]; [|exfalso; apply Hn; left].
      destruct (decide (t0 ∈ rest)); [rewrite index_upd_idem|]; reflexivity.
    + rewrite lookup_insert_ne by congruence.
      destruct (decide (t ∈ rest)) as [Hin|Hnin].
      * rewrite decide_True by (right; exact Hin). reflexivity.
      * rewrite decide_False; [reflexivity|].
        intros Hin. apply elem_of_cons in Hin as [|]; contradiction.
Qed.

(** One step of [index_add] on a tag the index holds or that is no
    inherited member. *)
Lemma index_add_step url (ix : gmap string (list string)) t0 rest :
  index_get ix t0 <> LInherited ->
  index_add url ix (t0 :: rest) = index_add url (<[t0 := index_upd url (default [] (ix !! t0))]> ix) rest.
Proof.
  intros Hg. simpl. destruct (index_get ix t0) as [l| |] eqn:E; [|contradiction|].
  - rewrite (index_get_Some _ _ _ E). reflexivity.
  - rewrite (index_get_None ix t0 (or_intror E)). reflexivity.
Qed.

Lemma index_add_Ok url tags : forall (ix ix' : gmap string (list string)),
  index_add url ix tags = Ok ix' -> ix' = index_extend url ix tags.
Proof.
  induction tags as [|t0 rest IH]; intros ix ix' E.
  - injection E as <-. reflexivity.
  - destruct (index_get ix t0) eqn:Eg.
    + rewrite index_add_step in E by congruence. rewrite index_extend_cons. apply IH, E.
    + simpl in E. rewrite Eg in E. discriminate.
    + rewrite index_add_step in E by congruence. rewrite index_extend_cons. apply IH, E.
Qed.

Lemma index_add_own url tags : forall (ix : gmap string (list string)),
  (forall t, t ∈ tags -> t ∈ OBJECT_PROTOTYPE_KEYS -> is_Some (ix !! t)) ->
  index_add url ix tags = Ok (index_extend url ix tags).
Proof.
  induction tags as [|t0 rest IH]; intros ix Hown; [reflexivity|].
  assert (Hg : index_get ix t0 <> LInherited).
  { intros E. unfold index_get in E. destruct (ix !! t0) as [l|] eqn:El; [discriminate|].
    destruct (existsb (String.eqb t0) OBJECT_PROTOTYPE_KEYS) eqn:Ex; [|discriminate].
    apply existsb_exists in Ex as (y & Hy & Hyt). apply String.eqb_eq in Hyt. subst y.
    destruct (Hown t0 ltac:(left) ltac:(apply list_elem_of_In; exact Hy)) as [v Hv]. congruence. }
  rewrite index_add_step by exact Hg. rewrite index_extend_cons. apply IH.
  intros t Ht Hp. destruct (decide (t = t0)) as [->|Hne].
  - rewrite lookup_insert_eq. eauto.
  - rewrite lookup_insert_ne by congruence. apply Hown; [right; exact Ht|exact Hp].
Qed.

Lemma index_add_inherited url tags : forall (ix : gmap string (list string)),
  (exists t, t ∈ tags /\ t ∈ OBJECT_PROTOTYPE_KEYS /\ ix !! t = None) ->
  index_add url ix tags = Err "TypeError: index[tag].includes is not a function".
Proof.
  induction tags as [|t0 rest IH]; intros ix (t & Ht & Hp & Hn); [inversion Ht|].
  destruct (index_get ix t0) eqn:Eg.
  - rewrite index_add_step by congruence. apply IH.
    apply elem_of_cons in Ht as [->|Ht]; [rewrite (index_get_Some _ _ _ Eg) in Hn; discriminate|].
    exists t. split; [exact Ht|split; [exact Hp|]].
    rewrite lookup_insert_ne; [exact Hn|]. intros ->. rewrite (index_get_Some _ _ _ Eg) in Hn. discriminate.
  - simpl. rewrite Eg. reflexivity.
  - rewrite index_add_step by congruence. apply IH.
    apply elem_of_cons in Ht as [->|Ht]; [rewrite (index_get_inherited _ _ Hp Hn) in Eg; discriminate|].
    exists t. split; [exact Ht|split; [exact Hp|]].
    rewrite lookup_insert_ne; [exact Hn|]. intros ->. rewrite (index_get_inherited _ _ Hp Hn) in Eg. discriminate.
Qed.

Lemma index_write_run K url tags (w : @World D U) : ok_world w ->
  index_write K url tags w =
  match read_index (store_of w) K with
  | Ok ix =>
      match index_add url ix tags with
      | Ok ix' => (Ok tt, with_store (<[K := index_response ix']> (store_of w))
                            (with_log (EPut K) (with_log (EMatch K) w)), [])
      | Err m => (Err m, with_log (EMatch K) w, [])
      end
  | Err m => (Err m, with_log (EMatch K) w, [])
  end.
Proof.
  intros Hok. unfold index_write.
  destruct (read_index (store_of w) K) as [ix|m] eqn:E.
  - erewrite bind_ok by (rewrite (read_index_ok _ _ Hok), E; reflexivity).
    destruct (index_add url ix tags) as [ix'|m]; [|reflexivity].
    destruct Hok as (b & Hc & Hf). destruct w as [c now up calls log]; simpl in *; subst c.
    unfold cache_put; simpl. rewrite Hf. reflexivity.
  - erewrite bind_err by (rewrite (read_index_ok _ _ Hok), E; reflexivity). reflexivity.
Qed.

Lemma with_store_ok st (w : @World D U) : ok_world w -> ok_world (with_store st w) /\ store_of (with_store st w) = st.
Proof.
  intros (b & Hc & Hf). unfold with_store, store_of, ok_world. rewrite Hc. simpl.
  split; [eexists; split; [reflexivity|exact Hf]|reflexivity].
Qed.

Lemma with_store_now st (w : @World D U) : w_now (with_store st w) = w_now w /\ w_calls (with_store st w) = w_calls w.
Proof. unfold with_store. destruct (w_cache w); auto. Qed.

Lemma with_log_now e (w : @World D U) : w_now (with_log e w) = w_now w /\ w_calls (with_log e w) = w_calls w.
Proof. split; reflexivity. Qed.

Lemma cache_put_run k r (w : @World D U) : ok_world w ->
  cache_put k r w = (Ok tt, with_store (<[k := r]> (store_of w)) (with_log (EPut k) w), []).
Proof.
  intros (b & Hc & Hf). destruct w as [c now up calls log]; simpl in *; subst c.
  unfold cache_put; simpl. rewrite Hf. reflexivity.
Qed.

Lemma write_entry_stores k r tags (w : @World D U) : ok_world w -> k <> TAG_INDEX_URL ->
  let w' := final (write_entry k r tags w) in
  ok_world w' /\ store_of w' !! k = Some r /\ w_now w' = w_now w /\ w_calls w' = w_calls w.
Proof.
  intros Hok Hk w'. subst w'. unfold write_entry.
  erewrite bind_ok by (apply cache_put_run, Hok).
  set (w1 := with_store (<[k := r]> (store_of w)) (with_log (EPut k) w)).
  destruct (with_store_ok (<[k := r]> (store_of w)) (with_log (EPut k) w) (with_log_ok _ _ Hok))
    as [Hok1 Hs1].
  destruct (with_store_now (<[k := r]> (store_of w)) (with_log (EPut k) w)) as [Hn1 Hc1].
  fold w1 in Hok1, Hs1, Hn1, Hc1.
  destruct (has_tags tags).
  - change (addToTagIndex k (default [] tags) w1) with (index_write TAG_INDEX_URL k (default [] tags) w1).
    rewrite (index_write_run _ _ _ _ Hok1).
    destruct (read_index (store_of w1) TAG_INDEX_URL) as [ix|m]; unfold final; simpl;
      [destruct (index_add k ix (default [] tags)) as [ix'|m]; simpl|].
    + destruct (with_store_ok (<[TAG_INDEX_URL := index_response ix']> (store_of w1))
        (with_log (EPut TAG_INDEX_URL) (with_log (EMatch TAG_INDEX_URL) w1))
        (with_log_ok _ _ (with_log_ok _ _ Hok1))) as [Hok2 Hs2].
      split; [exact Hok2|]. rewrite Hs2, lookup_insert_ne by congruence.
      rewrite Hs1, lookup_insert_eq. split; [reflexivity|].
      rewrite !(proj1 (with_store_now _ _)), !(proj2 (with_store_now _ _)). simpl.
      rewrite Hn1, Hc1. auto.
    + split; [apply with_log_ok, Hok1|]. rewrite with_log_store, Hs1, lookup_insert_eq. simpl.
      rewrite Hn1, Hc1. auto.
    + split; [apply with_log_ok, Hok1|]. rewrite with_log_store, Hs1, lookup_insert_eq. simpl.
      rewrite Hn1, Hc1. auto.
  - unfold final, ret; simpl. split; [exact Hok1|]. rewrite Hs1, lookup_insert_eq. rewrite Hn1, Hc1. auto.
Qed.

Lemma cachedFetch_miss_run q (p : P) (f : U -> D * option (list string)) opts (w : @World D U) u :
  let key := createCacheKey q p (default DEFAULT_CACHE_KEY_PREFIX (co_keyPrefix opts)) in
  let M := default DEFAULT_CACHE_MAX_AGE (co_maxAge opts) in
  let S := default DEFAULT_CACHE_SWR (co_staleWhileRevalidate opts) in
  ok_world w -> store_of w !! key = None -> w_upstream w (w_calls w) = Ok u ->
  exists w1, cachedFetch true q p f opts w =
    (Ok (mkResult (fst (f u)) MISS None), w1,
     [fun w' => let '(_, w'', _) :=
        write_entry key (createCacheResponse (mkEntry (fst (f u)) (snd (f u))) M S (w_now w))
          (snd (f u)) w' in w'']) /\
    ok_world w1 /\ store_of w1 = store_of w /\ w_now w1 = w_now w /\ w_calls w1 = Datatypes.S (w_calls w).
Proof.
  intros key M S (b & Hc & Hf) Hk Hu.
  destruct w as [c now up calls log]; unfold store_of in Hk; simpl in *; subst c.
  unfold cachedFetch, bind, try_catch, caches_available, cache_match, Date_now, with_log; simpl.
  rewrite Hf. fold key. rewrite Hk.
  unfold fetch_upstream, waitUntil, ret. simpl. rewrite Hu. destruct (f u) as [d tg]; simpl.
  eexists; split; [reflexivity|].
  split; [eexists; split; [reflexivity|exact Hf]|]. auto.
Qed.

(** A MISS on a working cache fetches once and stores the entry in the
    background; after the background tasks have run, the same query at the
    same instant is a HIT of age 0 returning the fetched data, with no
    further request upstream. *)
Theorem cachedFetch_miss_then_hit q (p : P) (f : U -> D * option (list string)) opts (w : @World D U) u :
  let key := createCacheKey q p (default DEFAULT_CACHE_KEY_PREFIX (co_keyPrefix opts)) in
  let M := default DEFAULT_CACHE_MAX_AGE (co_maxAge opts) in
  ok_world w -> store_of w !! key = None -> key <> TAG_INDEX_URL ->
  w_upstream w (w_calls w) = Ok u ->
  (0 <= M < 10 ^ 64)%Z ->
  date_getTime (date_toISOString (w_now w)) = Some (w_now w) -> date_toISOString (w_now w) <> "" ->
  let x := cachedFetch true q p f opts w in
  let w' := run_tasks (tasks x) (final x) in
  let y := cachedFetch true q p f opts w' in
  outcome x = Ok (mkResult (fst (f u)) MISS None) /\
  w_calls w' = Datatypes.S (w_calls w) /\
  outcome y = Ok (mkResult (fst (f u)) HIT (Some (JNum 0))) /\
  w_calls (final y) = w_calls w'.
Proof.
  intros key M Hok Hk Htag Hu HM Ht Hne x w' y.
  destruct (cachedFetch_miss_run q p f opts w u Hok Hk Hu) as (w1 & E & Hok1 & Hs1 & Hn1 & Hc1).
  fold key in E. subst x w' y. rewrite E. unfold outcome, tasks, final, run_tasks. simpl.
  set (r := createCacheResponse (mkEntry (fst (f u)) (snd (f u))) (default DEFAULT_CACHE_MAX_AGE (co_maxAge opts))
              (default DEFAULT_CACHE_SWR (co_staleWhileRevalidate opts)) (w_now w)).
  destruct (write_entry_stores key r (snd (f u)) w1 Hok1 Htag) as (Hok2 & Hs2 & Hn2 & Hc2).
  unfold final in Hok2, Hs2, Hn2, Hc2.
  destruct (write_entry key r (snd (f u)) w1) as [[o2 w2] ts2]; simpl in *.
  split; [reflexivity|]. split; [congruence|].
  assert (Hfr : isFresh r (w_now w2) = true).
  { rewrite Hn2, Hn1. subst r.
    destruct (createCacheResponse_max_age_nonneg (mkEntry (fst (f u)) (snd (f u))) M
                (default DEFAULT_CACHE_SWR (co_staleWhileRevalidate opts)) (w_now w) ltac:(lia))
      as (m & Hm & Hmd).
    rewrite (isFresh_num _ _ _ Hmd).
    rewrite (createCacheResponse_age _ _ _ _ _ Ht Hne), Z.sub_diag. simpl.
    apply Z.leb_le. rewrite Z.div_0_l by lia. lia. }
  assert (Hage : getCacheAge r (w_now w2) = JNum 0).
  { subst r. rewrite Hn2, Hn1, (createCacheResponse_age _ _ _ _ _ Ht Hne), Z.sub_diag, Z.div_0_l by lia. reflexivity. }
  destruct Hok2 as (b2 & Hc & Hf).
  destruct (cachedFetch_fresh q p f opts w2 r (fst (f u)))
    as [Ho Hcl]; [|exact (json_data_entry r (mkEntry (fst (f u)) (snd (f u))) eq_refl)|exact Hfr|].
  - exists b2. split; [exact Hc|split; [exact Hf|]]. unfold store_of in Hs2. rewrite Hc in Hs2. exact Hs2.
  - unfold outcome, final in *. rewrite Ho, Hage. auto.
Qed.

Lemma existsb_eqb_elem u l : existsb (String.eqb u) l = bool_decide (u ∈ l).
Proof.
  induction l as [|a l IH]; cbn [existsb].
  - rewrite bool_decide_false; [reflexivity|]. intros Hin; inversion Hin.
  - rewrite IH. destruct (String.eqb_spec u a) as [->|Hne]; cbn [orb].
    + rewrite bool_decide_true; [reflexivity|left].
    + apply bool_decide_ext. rewrite elem_of_cons. tauto.
Qed.

(** Adding a URL under a list of tags: when a tag of the list names a
    member of [Object.prototype] that the index does not hold as its own
    key, the loop calls that member's [includes] and throws; otherwise it
    succeeds, every tag of the list ends with its old URL list followed by
    the URL (unless it was already there), tags not in the list are
    untouched, and lists without duplicates keep none. *)
Theorem index_add_spec url (ix : gmap string (list string)) tags :
  ((exists t, t ∈ tags /\ t ∈ OBJECT_PROTOTYPE_KEYS /\ ix !! t = None) ->
     index_add url ix tags = Err "TypeError: index[tag].includes is not a function") /\
  ((forall t, t ∈ tags -> t ∈ OBJECT_PROTOTYPE_KEYS -> is_Some (ix !! t)) ->
     exists ix', index_add url ix tags = Ok ix') /\
  (forall ix', index_add url ix tags = Ok ix' ->
    (forall t, t ∈ tags -> ix' !! t =
       Some (let old := default [] (ix !! t) in if decide (url ∈ old) then old else app old [url])) /\
    (forall t, t ∉ tags -> ix' !! t = ix !! t) /\
    (map_Forall (fun _ l => NoDup l) ix -> map_Forall (fun _ l => NoDup l) ix')).
Proof.
  assert (Hu : forall l, index_upd url l = if decide (url ∈ l) then l else app l [url]).
  { intros l. unfold index_upd. rewrite existsb_eqb_elem. destruct (decide (url ∈ l));
      [rewrite bool_decide_true|rewrite bool_decide_false]; auto. }
  split; [apply index_add_inherited|split; [intros Hown; eexists; apply index_add_own, Hown|]].
  intros ix' E. apply index_add_Ok in E. subst ix'.
  split; [|split].
  - intros t Ht. rewrite index_extend_lookup, decide_True by exact Ht. rewrite Hu. reflexivity.
  - intros t Ht. rewrite index_extend_lookup, decide_False by exact Ht. reflexivity.
  - intros Hnd t l Hl. rewrite index_extend_lookup in Hl.
    destruct (decide (t ∈ tags)).
    + injection Hl as <-. rewrite Hu.
      assert (Hold : NoDup (default [] (ix !! t))).
      { destruct (ix !! t) as [l0|] eqn:E; simpl; [exact (Hnd t l0 E)|constructor]. }
      destruct (decide (url ∈ default [] (ix !! t))) as [|Hn]; [exact Hold|].
      apply NoDup_app. split; [exact Hold|split; [|apply NoDup_singleton]].
      intros x Hx Hx'. apply list_elem_of_singleton in Hx' as ->. contradiction.
    + exact (Hnd t l Hl).
Qed.

Lemma index_write_spec K url tags (w : @World D U) : ok_world w ->
  (forall ix ix', read_index (store_of w) K = Ok ix -> index_add url ix tags = Ok ix' ->
     let x := index_write K url tags w in
     outcome x = Ok tt /\ tasks x = [] /\ ok_world (final x) /\
     store_of (final x) = <[K := index_response ix']> (store_of w)) /\
  (forall m, (read_index (store_of w) K = Err m \/
              exists ix, read_index (store_of w) K = Ok ix /\ index_add url ix tags = Err m) ->
     let x := index_write K url tags w in
     outcome x = Err m /\ tasks x = [] /\ store_of (final x) = store_of w).
Proof.
  intros Hok. split.
  - intros ix ix' Hix Ha x. subst x. rewrite (index_write_run _ _ _ _ Hok), Hix, Ha.
    unfold outcome, tasks, final; simpl.
    destruct (with_store_ok (<[K := index_response ix']> (store_of w))
      (with_log (EPut K) (with_log (EMatch K) w)) (with_log_ok _ _ (with_log_ok _ _ Hok))) as [H1 H2].
    auto.
  - intros m Hm x. subst x. rewrite (index_write_run _ _ _ _ Hok).
    destruct Hm as [Hm|(ix & Hix & Ha)]; [rewrite Hm|rewrite Hix, Ha];
      unfold outcome, tasks, final; simpl; rewrite with_log_store; auto.
Qed.

(** On a working cache, [addToTagIndex] / [addToPageIndex] read the
    stored index (absent means empty) and write back the extended one,
    touching no other entry; when the stored index cannot be read, or a
    tag names an inherited [Object.prototype] member, they reject and write
    nothing. *)
Theorem addToIndex_store k url tags (w : @World D U) : ok_world w ->
  (forall ix ix', read_index (store_of w) TAG_INDEX_URL = Ok ix -> index_add k ix tags = Ok ix' ->
     let x := addToTagIndex k tags w in
     outcome x = Ok tt /\ tasks x = [] /\ ok_world (final x) /\
     store_of (final x) = <[TAG_INDEX_URL := index_response ix']> (store_of w)) /\
  (forall m, (read_index (store_of w) TAG_INDEX_URL = Err m \/
              exists ix, read_index (store_of w) TAG_INDEX_URL = Ok ix /\ index_add k ix tags = Err m) ->
     let x := addToTagIndex k tags w in
     outcome x = Err m /\ tasks x = [] /\ store_of (final x) = store_of w) /\
  (forall pix pix', read_index (store_of w) PAGE_INDEX_URL = Ok pix -> index_add url pix tags = Ok pix' ->
     let x := addToPageIndex url tags w in
     outcome x = Ok tt /\ tasks x = [] /\ ok_world (final x) /\
     store_of (final x) = <[PAGE_INDEX_URL := index_response pix']> (store_of w)) /\
  (forall m, (read_index (store_of w) PAGE_INDEX_URL = Err m \/
              exists pix, read_index (store_of w) PAGE_INDEX_URL = Ok pix /\ index_add url pix tags = Err m) ->
     let x := addToPageIndex url tags w in
     outcome x = Err m /\ tasks x = [] /\ store_of (final x) = store_of w).
Proof.
  intros Hok.
  destruct (index_write_spec TAG_INDEX_URL k tags w Hok) as [T1 T2].
  destruct (index_write_spec PAGE_INDEX_URL url tags w Hok) as [P1 P2].
  exact (conj T1 (conj T2 (conj P1 P2))).
Qed.

Lemma ok_world_dec (w : @World D U) : {ok_world w} + {~ ok_world w}.
Proof.
  destruct (w_cache w) as [b|] eqn:Hc.
  - destruct (b_failing b) eqn:Hf; [right|left; exists b; auto].
    intros (b' & Hc' & Hf'). rewrite Hc in Hc'. injection Hc' as <-. congruence.
  - right. intros (b' & Hc' & _). congruence.
Qed.

Lemma index_write_failing K url tags (w : @World D U) : ~ ok_world w ->
  store_of (final (index_write K url tags w)) = store_of w /\ exists m, outcome (index_write K url tags w) = Err m.
Proof.
  intros Hn. destruct w as [[b|] now up calls log].
  - destruct (b_failing b) eqn:Hf; [|exfalso; apply Hn; exists b; auto].
    unfold index_write, bind, cache_match, outcome, final; simpl. rewrite Hf. simpl. eauto.
  - unfold index_write, bind, cache_match, outcome, final; simpl. eauto.
Qed.

(** [registerPageWithTags] never fails and never changes the world
    itself: with no context, no tags or no cache it schedules nothing,
    otherwise it schedules one background task that writes the page
    index, or leaves the store as it is when that write fails. *)
Theorem registerPageWithTags_background ctx url tags (w : @World D U) :
  let x := registerPageWithTags ctx url tags w in
  outcome x = Ok tt /\ final x = w /\
  ((ctx = false \/ has_tags tags = false \/ w_cache w = None) -> tasks x = []) /\
  (ctx = true -> has_tags tags = true -> w_cache w <> None ->
   exists t, tasks x = [t] /\ forall w0 : @World D U,
     (ok_world w0 -> forall pix pix', read_index (store_of w0) PAGE_INDEX_URL = Ok pix ->
        index_add url pix (default [] tags) = Ok pix' ->
        store_of (t w0) = <[PAGE_INDEX_URL := index_response pix']> (store_of w0)) /\
     ((~ ok_world w0 \/ (exists m, read_index (store_of w0) PAGE_INDEX_URL = Err m) \/
       (exists pix m, read_index (store_of w0) PAGE_INDEX_URL = Ok pix /\
                      index_add url pix (default [] tags) = Err m)) ->
        store_of (t w0) = store_of w0)).
Proof.
  intros x. subst x. unfold registerPageWithTags.
  destruct ctx, (has_tags tags) eqn:Ht; cbn [negb orb];
    try (unfold outcome, final, tasks, ret; simpl; split; [reflexivity|split; [reflexivity|]];
         split; [reflexivity|intros; discriminate]).
  unfold bind, caches_available. destruct (w_cache w) as [b|] eqn:Hc; cbn -[waitUntil try_catch addToPageIndex].
  - unfold waitUntil, outcome, final, tasks. simpl. split; [reflexivity|split; [reflexivity|]].
    split; [intros [H1|[H1|H1]]; discriminate|].
    intros _ _ _. eexists; split; [reflexivity|]. intros w0.
    change (addToPageIndex url (default [] tags)) with (@index_write D U PAGE_INDEX_URL url (default [] tags)).
    split.
    + intros Hok pix pix' Hpix Ha.
      destruct (proj1 (index_write_spec PAGE_INDEX_URL url (default [] tags) w0 Hok) pix pix' Hpix Ha)
        as (Ho & Hts & _ & Hs).
      unfold try_catch. unfold outcome, tasks, final in *.
      destruct (@index_write D U PAGE_INDEX_URL url (default [] tags) w0) as [[o w1] ts].
      simpl in *. subst o. exact Hs.
    + intros Hcase.
      assert (Hs : store_of (final (@index_write D U PAGE_INDEX_URL url (default [] tags) w0)) = store_of w0 /\
                   exists m, outcome (@index_write D U PAGE_INDEX_URL url (default [] tags) w0) = Err m).
      { destruct (ok_world_dec w0) as [Hok|Hn].
        - destruct Hcase as [Hn|[[m Hm]|(pix & m & Hpix & Ha)]]; [contradiction| |].
          + destruct (proj2 (index_write_spec PAGE_INDEX_URL url (default [] tags) w0 Hok) m (or_introl Hm))
              as (Ho & _ & Hs). eauto.
          + destruct (proj2 (index_write_spec PAGE_INDEX_URL url (default [] tags) w0 Hok) m
                        (or_intror (ex_intro _ pix (conj Hpix Ha))))
              as (Ho & _ & Hs). eauto.
        - apply index_write_failing, Hn. }
      destruct Hs as [Hs [m Hm]].
      unfold try_catch. unfold outcome, final in *.
      destruct (@index_write D U PAGE_INDEX_URL url (default [] tags) w0) as [[o w1] ts].
      simpl in *. subst o. unfold ret. simpl. exact Hs.
  - unfold outcome, final, tasks, ret; simpl. split; [reflexivity|split; [reflexivity|]].
    split; [reflexivity|intros _ _ Hn; contradiction].
Qed.

Lemma purge_tag_index_unreadable tags (w : @World D U) m w1 :
  getTagIndex w = (Err m, w1, []) -> (exists b, w_cache w = Some b) ->
  purgeCacheByTags tags w = (Ok (mkPurge [] [] []), w1, []).
Proof.
  intros Hg [b Hc]. unfold purgeCacheByTags. rewrite Hc.
  rewrite (try_catch_err _ _ _ m (mkPurge [] [] [], w1)); [reflexivity|].
  unfold purge_body. apply bind_err. apply onW_eq. exact Hg.
Qed.

(** With no cache, a failing cache or an unreadable tag index,
    [purgeCacheByTags] resolves to the empty result, schedules nothing and
    leaves the store unchanged. *)
Theorem purgeCacheByTags_unavailable tags (w : @World D U) :
  (w_cache w = None -> purgeCacheByTags tags w = (Ok (mkPurge [] [] []), w, [])) /\
  ((exists b, w_cache w = Some b /\ b_failing b = true) ->
     outcome (purgeCacheByTags tags w) = Ok (mkPurge [] [] []) /\ tasks (purgeCacheByTags tags w) = [] /\
     store_of (final (purgeCacheByTags tags w)) = store_of w) /\
  (ok_world w -> forall m, read_index (store_of w) TAG_INDEX_URL = Err m ->
     outcome (purgeCacheByTags tags w) = Ok (mkPurge [] [] []) /\ tasks (purgeCacheByTags tags w) = [] /\
     store_of (final (purgeCacheByTags tags w)) = store_of w).
Proof.
  split; [|split].
  - intros Hc. unfold purgeCacheByTags. rewrite Hc. reflexivity.
  - intros (b & Hc & Hf).
    rewrite (purge_tag_index_unreadable tags w "cache.match failed" (with_log (EMatch TAG_INDEX_URL) w)).
    + unfold outcome, tasks, final; simpl. rewrite with_log_store. auto.
    + unfold getTagIndex, bind, cache_match. rewrite Hc, Hf. reflexivity.
    + eauto.
  - intros Hok m Hm. pose proof Hok as (b & Hc & _).
    rewrite (purge_tag_index_unreadable tags w m (with_log (EMatch TAG_INDEX_URL) w)).
    + unfold outcome, tasks, final; simpl. rewrite with_log_store. auto.
    + unfold getTagIndex. rewrite (read_index_ok _ _ Hok), Hm. reflexivity.
    + eauto.
Qed.

Lemma set_add_nodup k acc : NoDup acc -> NoDup (set_add k acc) /\ k ∈ set_add k acc.
Proof.
  intros Hnd. unfold set_add. rewrite existsb_eqb_elem.
  destruct (decide (k ∈ acc)) as [Hin|Hn].
  - rewrite bool_decide_true by exact Hin. auto.
  - rewrite bool_decide_false by exact Hn. split.
    + apply NoDup_app. split; [exact Hnd|split; [|apply NoDup_singleton]].
      intros x Hx Hx'. apply list_elem_of_singleton in Hx' as ->. contradiction.
    + apply elem_of_app. right. left.
Qed.

Lemma set_add_keeps k acc x : x ∈ acc -> x ∈ set_add k acc.
Proof.
  intros Hx. unfold set_add. destruct (existsb (String.eqb k) acc); [exact Hx|].
  apply elem_of_app. left. exact Hx.
Qed.

Lemma delete_listed_sets ks : forall acc (w : @World D U), ok_world w ->
  exists acc' w', delete_listed ks acc w = (Ok acc', w', []) /\ ok_world w' /\
    store_of w' = del_all ks (store_of w) /\ (NoDup acc -> NoDup acc') /\
    (forall x, x ∈ acc' -> x ∈ acc \/ (x ∈ ks /\ is_Some (store_of w !! x))).
Proof.
  induction ks as [|k ks IH]; intros acc w Hok; simpl.
  - exists acc, w. repeat split; auto.
  - destruct (cache_delete_ok k w Hok) as (w1 & Hd & Hok1 & Hs1).
    erewrite bind_ok by exact Hd.
    set (acc1 := if bool_decide (is_Some (store_of w !! k)) then set_add k acc else acc).
    destruct (IH acc1 w1 Hok1) as (acc' & w' & Hl & Hok' & Hs' & Hnd & Hsub).
    exists acc', w'. rewrite Hl. split; [reflexivity|split; [exact Hok'|split; [|split]]].
    + rewrite Hs', Hs1. reflexivity.
    + intros Hn0. apply Hnd. subst acc1. destruct (bool_decide _); [apply set_add_nodup|]; exact Hn0.
    + intros x Hx. destruct (Hsub x Hx) as [Hin|[Hin Hs]].
      * subst acc1. destruct (bool_decide (is_Some (store_of w !! k))) eqn:Eb; [|auto].
        apply bool_decide_eq_true in Eb.
        destruct (set_add_elem _ _ _ Hin) as [->|]; [right; split; [left|exact Eb]|auto].
      * right. split; [right; exact Hin|]. rewrite Hs1 in Hs.
        destruct Hs as [v Hv]. apply lookup_delete_Some in Hv as [_ Hv]. eexists; exact Hv.
Qed.

Lemma not_prototype_key t : existsb (String.eqb t) OBJECT_PROTOTYPE_KEYS = false ->
  t ∉ OBJECT_PROTOTYPE_KEYS.
Proof.
  intros E Hin. apply list_elem_of_In in Hin.
  assert (Ht : existsb (String.eqb t) OBJECT_PROTOTYPE_KEYS = true)
    by (apply existsb_exists; exists t; split; [exact Hin|apply String.eqb_refl]).
  congruence.
Qed.

Lemma plain_tail tag rest :
  (forall t, t ∈ tag :: rest -> t ∉ OBJECT_PROTOTYPE_KEYS) -> forall t, t ∈ rest -> t ∉ OBJECT_PROTOTYPE_KEYS.
Proof. intros Hpl t Ht. apply Hpl. right. exact Ht. Qed.

Lemma loop_throws_plain tags : (forall t, t ∈ tags -> t ∉ OBJECT_PROTOTYPE_KEYS) ->
  forall (ix : gmap string (list string)), loop_throws tags ix = false.
Proof.
  induction tags as [|tag rest IH]; intros Hpl ix; [reflexivity|]. simpl.
  rewrite (index_get_plain ix tag (Hpl tag ltac:(left))).
  destruct (ix !! tag); apply IH, (plain_tail _ _ Hpl).
Qed.

Lemma purge_query_loop_sets tags : (forall t, t ∈ tags -> t ∉ OBJECT_PROTOTYPE_KEYS) -> forall ix acc r (w : @World D U), ok_world w ->
  exists acc' r' w',
    purge_query_loop tags ix acc (r, w) = (Ok (snd (loop_keys tags ix), acc'), (r', w'), []) /\
    ok_world w' /\ store_of w' = del_all (fst (loop_keys tags ix)) (store_of w) /\
    (NoDup acc -> NoDup acc') /\
    (forall x, x ∈ acc' -> x ∈ acc \/ (x ∈ fst (loop_keys tags ix) /\ is_Some (store_of w !! x))) /\
    r' = mkPurge (purgedQueryKeys r) (purgedPageUrls r) (app (purgedTags r) (found_tags tags ix)).
Proof.
  induction tags as [|tag rest IH]; intros Hpl ix acc r w Hok; simpl.
  - exists acc, r, w. rewrite app_nil_r. destruct r; auto 10.
  - rewrite (index_get_plain ix tag (Hpl tag ltac:(left))).
    destruct (ix !! tag) as [ks|] eqn:Hix.
    + destruct (delete_listed_sets ks acc w Hok) as (acc1 & w1 & Hd & Hok1 & Hs1 & Hnd1 & Hsub1).
      erewrite bind_ok by reflexivity.
      erewrite bind_ok by (apply onW_eq; exact Hd).
      destruct (IH (plain_tail _ _ Hpl) (delete tag ix) acc1
        (mkPurge (purgedQueryKeys r) (purgedPageUrls r) (app (purgedTags r) [tag])) w1 Hok1)
        as (acc' & r' & w' & Hl & Hok' & Hs' & Hnd & Hsub & Hr).
      exists acc', r', w'. rewrite Hl.
      destruct (loop_keys rest (delete tag ix)) as [l ix'] eqn:E; simpl in *.
      split; [reflexivity|split; [exact Hok'|split; [|split; [|split]]]].
      * rewrite del_all_app, Hs', Hs1. reflexivity.
      * intros Hn0. apply Hnd, Hnd1, Hn0.
      * intros x Hx. rewrite elem_of_app.
        destruct (Hsub x Hx) as [H1|[H1 [v Hv]]].
        -- destruct (Hsub1 x H1) as [|[H2 H3]]; auto.
        -- rewrite Hs1 in Hv. rewrite lookup_del_all in Hv.
           destruct (decide (x ∈ ks)); [discriminate|]. right. split; [auto|eexists; exact Hv].
      * rewrite Hr. simpl. rewrite <- app_assoc. reflexivity.
    + apply IH; [exact (plain_tail _ _ Hpl)|exact Hok].
Qed.

Lemma purge_page_loop_sets tags : (forall t, t ∈ tags -> t ∉ OBJECT_PROTOTYPE_KEYS) -> forall ix acc (w : @World D U), ok_world w ->
  exists acc' w',
    purge_page_loop tags ix acc w = (Ok (snd (loop_keys tags ix), acc'), w', []) /\
    ok_world w' /\ store_of w' = del_all (fst (loop_keys tags ix)) (store_of w) /\
    (NoDup acc -> NoDup acc') /\
    (forall x, x ∈ acc' -> x ∈ acc \/ (x ∈ fst (loop_keys tags ix) /\ is_Some (store_of w !! x))).
Proof.
  induction tags as [|tag rest IH]; intros Hpl ix acc w Hok; simpl.
  - exists acc, w. repeat split; auto.
  - rewrite (index_get_plain ix tag (Hpl tag ltac:(left))).
    destruct (ix !! tag) as [ks|] eqn:Hix.
    + destruct (delete_listed_sets ks acc w Hok) as (acc1 & w1 & Hd & Hok1 & Hs1 & Hnd1 & Hsub1).
      erewrite bind_ok by exact Hd.
      destruct (IH (plain_tail _ _ Hpl) (delete tag ix) acc1 w1 Hok1) as (acc' & w' & Hl & Hok' & Hs' & Hnd & Hsub).
      exists acc', w'. rewrite Hl.
      destruct (loop_keys rest (delete tag ix)) as [l ix'] eqn:E; simpl in *.
      split; [reflexivity|split; [exact Hok'|split; [|split]]].
      * rewrite del_all_app, Hs', Hs1. reflexivity.
      * intros Hn0. apply Hnd, Hnd1, Hn0.
      * intros x Hx. rewrite elem_of_app.
        destruct (Hsub x Hx) as [H1|[H1 [v Hv]]].
        -- destruct (Hsub1 x H1) as [|[H2 H3]]; auto.
        -- rewrite Hs1 in Hv. rewrite lookup_del_all in Hv.
           destruct (decide (x ∈ ks)); [discriminate|]. right. split; [auto|eexists; exact Hv].
    + apply IH; [exact (plain_tail _ _ Hpl)|exact Hok].
Qed.

Lemma found_tags_listed tags : (forall t, t ∈ tags -> t ∉ OBJECT_PROTOTYPE_KEYS) -> forall (ix : gmap string (list string)) t,
  t ∈ found_tags tags ix -> is_Some (ix !! t).
Proof.
  induction tags as [|tag rest IH]; intros Hpl ix t Ht; simpl in Ht; [inversion Ht|].
  rewrite (index_get_plain ix tag (Hpl tag ltac:(left))) in Ht.
  destruct (ix !! tag) as [ks|] eqn:E.
  - apply elem_of_cons in Ht as [->|Ht]; [eexists; exact E|].
    destruct (IH (plain_tail _ _ Hpl) _ _ Ht) as [v Hv].
    apply lookup_delete_Some in Hv as [_ Hv]. eexists; exact Hv.
  - exact (IH (plain_tail _ _ Hpl) _ _ Ht).
Qed.

Lemma found_tags_nodup tags : (forall t, t ∈ tags -> t ∉ OBJECT_PROTOTYPE_KEYS) ->
  forall (ix : gmap string (list string)), NoDup (found_tags tags ix).
Proof.
  induction tags as [|tag rest IH]; intros Hpl ix; simpl; [constructor|].
  rewrite (index_get_plain ix tag (Hpl tag ltac:(left))).
  destruct (ix !! tag); [|apply IH, (plain_tail _ _ Hpl)].
  constructor; [|apply IH, (plain_tail _ _ Hpl)]. intros Hin.
  destruct (found_tags_listed _ (plain_tail _ _ Hpl) _ _ Hin) as [v Hv].
  rewrite lookup_delete_eq in Hv. discriminate.
Qed.

Lemma purge_body_sets tags (w : @World D U) ix : (forall t, t ∈ tags -> t ∉ OBJECT_PROTOTYPE_KEYS) -> ok_world w -> read_index (store_of w) TAG_INDEX_URL = Ok ix ->
  let st1 := purge_step1 tags ix (store_of w) in
  exists e r' w', purge_body tags (mkPurge [] [] [], w) = (e, (r', w'), []) /\
  purgedTags r' = found_tags tags ix /\
  NoDup (purgedQueryKeys r') /\ NoDup (purgedPageUrls r') /\
  (forall k, k ∈ purgedQueryKeys r' -> k ∈ fst (loop_keys tags ix) /\ is_Some (store_of w !! k)) /\
  ((purgedPageUrls r' = [] /\ store_of w' = st1) \/
   exists pix, read_index st1 PAGE_INDEX_URL = Ok pix /\ store_of w' = purge_step2 tags pix st1 /\
     forall u, u ∈ purgedPageUrls r' -> u ∈ fst (loop_keys tags pix) /\ is_Some (st1 !! u)).
Proof.
  intros Hpl Hok Hix st1. subst st1. unfold purge_body.
  erewrite bind_ok.
  2:{ apply onW_eq. unfold getTagIndex. rewrite (read_index_ok _ _ Hok), Hix. reflexivity. }
  pose proof (with_log_ok (EMatch TAG_INDEX_URL) _ Hok) as Hok1.
  destruct (purge_query_loop_sets tags Hpl ix [] (mkPurge [] [] []) _ Hok1)
    as (acc' & r1 & w2 & Hl & Hok2 & Hs2 & Hnd & Hsub & Hr).
  erewrite bind_ok by exact Hl. cbv beta iota.
  erewrite bind_ok by reflexivity.
  destruct (cache_put_ok TAG_INDEX_URL (index_response (snd (loop_keys tags ix))) w2 Hok2)
    as (w3 & Hp & Hok3 & Hs3).
  erewrite bind_ok by (apply onW_eq; exact Hp).
  assert (Hst3 : store_of w3 = purge_step1 tags ix (store_of w)).
  { rewrite Hs3, Hs2, with_log_store. unfold purge_step1. rewrite (loop_throws_plain _ Hpl). reflexivity. }
  assert (Hq : forall x, x ∈ acc' -> x ∈ fst (loop_keys tags ix) /\ is_Some (store_of w !! x)).
  { intros x Hx. destruct (Hsub x Hx) as [Hn|[H1 H2]]; [inversion Hn|].
    rewrite with_log_store in H2. auto. }
  assert (Hnd' : NoDup acc') by (apply Hnd; constructor).
  subst r1.
  destruct (read_index (store_of w3) PAGE_INDEX_URL) as [pix|msg] eqn:Hpix.
  - erewrite bind_ok.
    2:{ apply onW_eq. unfold getPageIndex. rewrite (read_index_ok _ _ Hok3), Hpix. reflexivity. }
    pose proof (with_log_ok (EMatch PAGE_INDEX_URL) _ Hok3) as Hok4.
    destruct (purge_page_loop_sets tags Hpl pix [] _ Hok4) as (pacc & w5 & Hl5 & Hok5 & Hs5 & Hpnd & Hpsub).
    erewrite bind_ok by (apply onW_eq; exact Hl5). cbv beta iota.
    erewrite bind_ok by reflexivity.
    destruct (cache_put_ok PAGE_INDEX_URL (index_response (snd (loop_keys tags pix))) w5 Hok5)
      as (w6 & Hp6 & Hok6 & Hs6).
    erewrite onW_eq by exact Hp6.
    do 3 eexists; split; [reflexivity|]. simpl.
    split; [reflexivity|split; [exact Hnd'|split; [apply Hpnd; constructor|split; [exact Hq|]]]].
    right. exists pix. rewrite <- Hst3. split; [exact Hpix|split].
    + rewrite Hs6, Hs5, with_log_store. unfold purge_step2. rewrite (loop_throws_plain _ Hpl). reflexivity.
    + intros u Hu. destruct (Hpsub u Hu) as [Hn|[H1 H2]]; [inversion Hn|].
      rewrite with_log_store in H2. auto.
  - erewrite bind_err.
    2:{ apply onW_eq. unfold getPageIndex. rewrite (read_index_ok _ _ Hok3), Hpix. reflexivity. }
    do 3 eexists; split; [reflexivity|]. simpl.
    split; [reflexivity|split; [exact Hnd'|split; [constructor|split; [exact Hq|]]]].
    left. split; [reflexivity|]. rewrite with_log_store. exact Hst3.
Qed.

Lemma step1_lookup tags ix (st : gmap string (@Response D)) k : k <> TAG_INDEX_URL ->
  purge_step1 tags ix st !! k = if decide (k ∈ fst (loop_keys tags ix)) then None else st !! k.
Proof.
  intros Hk. unfold purge_step1. destruct (loop_throws _ _); [|rewrite lookup_insert_ne by congruence];
    apply lookup_del_all.
Qed.

Lemma step2_lookup tags pix (st : gmap string (@Response D)) k : k <> PAGE_INDEX_URL ->
  purge_step2 tags pix st !! k = if decide (k ∈ fst (loop_keys tags pix)) then None else st !! k.
Proof.
  intros Hk. unfold purge_step2. destruct (loop_throws _ _); [|rewrite lookup_insert_ne by congruence];
    apply lookup_del_all.
Qed.

(** What [purgeCacheByTags] reports is what it did: the purged tags are
    the requested tags present in the tag index, no list repeats an entry,
    every reported query key was cached and is gone afterwards, and every
    reported page URL is gone afterwards; this holds for tags that name no
    member of [Object.prototype]. *)
Theorem purgeCacheByTags_reports tags (w : @World D U) ix :
  (forall t, t ∈ tags -> t ∉ OBJECT_PROTOTYPE_KEYS) ->
  ok_world w -> read_index (store_of w) TAG_INDEX_URL = Ok ix ->
  let x := purgeCacheByTags tags w in
  exists r, outcome x = Ok r /\
    purgedTags r = found_tags tags ix /\ NoDup (purgedTags r) /\
    NoDup (purgedQueryKeys r) /\ NoDup (purgedPageUrls r) /\
    (forall k, k ∈ purgedQueryKeys r -> is_Some (store_of w !! k) /\
       (k <> TAG_INDEX_URL -> k <> PAGE_INDEX_URL -> store_of (final x) !! k = None)) /\
    (forall u, u ∈ purgedPageUrls r -> (u = TAG_INDEX_URL \/ is_Some (store_of w !! u)) /\
       (u <> PAGE_INDEX_URL -> store_of (final x) !! u = None)).
Proof.
  intros Hpl Hok Hix x. subst x.
  pose proof Hok as (b & Hc & Hf).
  destruct (purge_body_sets tags w ix Hpl Hok Hix)
    as (e & r' & w' & Hb & Ht & Hnd & Hpnd & Hq & Hcase).
  assert (E : purgeCacheByTags tags w = (Ok r', w', [])).
  { unfold purgeCacheByTags. rewrite Hc.
    destruct e as [[]|msg].
    - erewrite try_catch_ok by exact Hb. reflexivity.
    - erewrite try_catch_err by exact Hb. reflexivity. }
  rewrite E. unfold outcome, final; simpl. exists r'.
  split; [reflexivity|]. split; [exact Ht|]. split; [rewrite Ht; apply found_tags_nodup, Hpl|].
  split; [exact Hnd|]. split; [exact Hpnd|]. split.
  - intros k Hk. destruct (Hq k Hk) as [Hin Hs]. split; [exact Hs|]. intros Hkt Hkp.
    assert (H1 : purge_step1 tags ix (store_of w) !! k = None).
    { rewrite step1_lookup by exact Hkt. rewrite decide_True by exact Hin. reflexivity. }
    destruct Hcase as [[_ Hw]|(pix & _ & Hw & _)]; rewrite Hw; [exact H1|].
    rewrite step2_lookup by exact Hkp. destruct (decide _); [reflexivity|exact H1].
  - intros u Hu. destruct Hcase as [[Hn _]|(pix & _ & Hw & Hp)]; [rewrite Hn in Hu; inversion Hu|].
    destruct (Hp u Hu) as [Hin [v Hv]]. split.
    + destruct (decide (u = TAG_INDEX_URL)) as [|Hut]; [left; assumption|right].
      rewrite step1_lookup in Hv by exact Hut. destruct (decide _); [discriminate|]. eexists; exact Hv.
    + intros Hup. rewrite Hw, step2_lookup by exact Hup. rewrite decide_True by exact Hin. reflexivity.
Qed.

Lemma loop_keys_index tags : (forall t, t ∈ tags -> t ∉ OBJECT_PROTOTYPE_KEYS) -> forall (ix : gmap string (list string)) t,
  snd (loop_keys tags ix) !! t = if decide (t ∈ tags) then None else ix !! t.
Proof.
  induction tags as [|tag rest IH]; intros Hpl ix t; cbn [loop_keys].
  - rewrite decide_False by (intros Hin; inversion Hin). reflexivity.
  - rewrite (index_get_plain ix tag (Hpl tag ltac:(left))).
    specialize (IH (plain_tail _ _ Hpl)).
    destruct (ix !! tag) as [ks|] eqn:E.
    + destruct (loop_keys rest (delete tag ix)) as [l ix'] eqn:El. cbn [snd].
      replace ix' with (snd (loop_keys rest (delete tag ix))) by (rewrite El; reflexivity).
      rewrite IH. destruct (decide (t = tag)) as [->|Hne].
      * rewrite lookup_delete_eq. destruct (decide (tag ∈ tag :: rest)) as [_|Hn]; [|exfalso; apply Hn; left].
        destruct (decide (tag ∈ rest)); reflexivity.
      * rewrite lookup_delete_ne by congruence.
        destruct (decide (t ∈ rest)) as [Hin|Hnin].
        -- rewrite decide_True by (right; exact Hin). reflexivity.
        -- rewrite decide_False; [reflexivity|]. intros Hin. apply elem_of_cons in Hin as [|]; contradiction.
    + rewrite IH. destruct (decide (t = tag)) as [->|Hne].
      * destruct (decide (tag ∈ tag :: rest)) as [_|Hn]; [|exfalso; apply Hn; left].
        destruct (decide (tag ∈ rest)); [reflexivity|exact E].
      * destruct (decide (t ∈ rest)) as [Hin|Hnin].
        -- rewrite decide_True by (right; exact Hin). reflexivity.
        -- rewrite decide_False; [reflexivity|]. intros Hin. apply elem_of_cons in Hin as [|]; contradiction.
Qed.

(** After a purge of tags that name no member of [Object.prototype],
    both indexes are still readable; the requested tags are removed from
    each and every other tag keeps its list. *)
Theorem purgeCacheByTags_indexes tags (w : @World D U) ix pix :
  (forall t, t ∈ tags -> t ∉ OBJECT_PROTOTYPE_KEYS) ->
  ok_world w -> read_index (store_of w) TAG_INDEX_URL = Ok ix ->
  read_index (store_of w) PAGE_INDEX_URL = Ok pix ->
  (forall t l, ix !! t = Some l -> PAGE_INDEX_URL ∉ l) ->
  (forall t l, pix !! t = Some l -> TAG_INDEX_URL ∉ l) ->
  let w' := final (purgeCacheByTags tags w) in
  exists ix' pix', read_index (store_of w') TAG_INDEX_URL = Ok ix' /\
    read_index (store_of w') PAGE_INDEX_URL = Ok pix' /\
    forall t, ix' !! t = (if decide (t ∈ tags) then None else ix !! t) /\
              pix' !! t = (if decide (t ∈ tags) then None else pix !! t).
Proof.
  intros Hpl Hok Hix Hpix Hq Hp w'. subst w'.
  destruct (purge_ok tags w ix Hok Hix) as (_ & Hcase & _).
  assert (Hp1 : read_index (purge_step1 tags ix (store_of w)) PAGE_INDEX_URL = Ok pix).
  { unfold read_index in *. rewrite step1_lookup by exact index_urls_differ.
    rewrite decide_False; [exact Hpix|]. intros Hin.
    destruct (loop_keys_elem _ _ _ Hin) as (t & ks & _ & Ht & Hk). exact (Hq t ks Ht Hk). }
  destruct Hcase as [[[Hth|Hn] _]|(pix0 & _ & Hpix0 & Hw)];
    [rewrite (loop_throws_plain _ Hpl) in Hth; discriminate|exfalso; exact (Hn pix Hp1)|].
  rewrite Hp1 in Hpix0. injection Hpix0 as <-.
  exists (snd (loop_keys tags ix)), (snd (loop_keys tags pix)). rewrite Hw. split; [|split].
  - unfold read_index. rewrite step2_lookup by (intros E; symmetry in E; exact (index_urls_differ E)).
    rewrite decide_False.
    + unfold purge_step1. rewrite (loop_throws_plain _ Hpl), lookup_insert_eq. reflexivity.
    + intros Hin. destruct (loop_keys_elem _ _ _ Hin) as (t & ks & _ & Ht & Hk). exact (Hp t ks Ht Hk).
  - unfold read_index, purge_step2. rewrite (loop_throws_plain _ Hpl), lookup_insert_eq. reflexivity.
  - intros t. rewrite !(loop_keys_index _ Hpl). auto.
Qed.

(** A MISS whose fetch fails is retried once by the fallback path:
    upstream is asked twice, nothing is written or scheduled, and the
    result is the second answer, marked MISS, or its error. *)
Theorem cachedFetch_miss_fetch_error q (p : P) (f : U -> D * option (list string)) opts (w : @World D U) e :
  let key := createCacheKey q p (default DEFAULT_CACHE_KEY_PREFIX (co_keyPrefix opts)) in
  ok_world w -> store_of w !! key = None -> w_upstream w (w_calls w) = Err e ->
  let x := cachedFetch true q p f opts w in
  w_calls (final x) = Datatypes.S (Datatypes.S (w_calls w)) /\ tasks x = [] /\
  store_of (final x) = store_of w /\
  outcome x = match w_upstream w (Datatypes.S (w_calls w)) with
              | Ok u => Ok (mkResult (fst (f u)) MISS None)
              | Err e2 => Err e2
              end.
Proof.
  intros key (b & Hc & Hf) Hk Hu x. subst x.
  destruct w as [c now up calls log]; unfold store_of in *; simpl in *; subst c.
  unfold cachedFetch, bind, try_catch, caches_available, cache_match, Date_now, with_log; simpl.
  rewrite Hf. fold key. rewrite Hk.
  unfold fetch_upstream, ret. simpl. rewrite Hu. simpl.
  destruct (up (Datatypes.S calls)) as [u|e2]; [destruct (f u)|]; unfold outcome, final, tasks; simpl; auto.
Qed.

End Extra2.



Section DebugProofs.
Context {D U : Type}.

Lemma fold_set_add_spec ks : forall acc, NoDup acc ->
  NoDup (fold_left (fun s k => set_add k s) ks acc) /\
  forall x, x ∈ fold_left (fun s k => set_add k s) ks acc <-> x ∈ acc \/ x ∈ ks.
Proof.
  induction ks as [|k ks IH]; intros acc Hnd; simpl.
  - split; [exact Hnd|]. intros x. split; [auto|intros [H1|H1]; [exact H1|inversion H1]].
  - destruct (set_add_nodup k acc Hnd) as [Hnd1 Hin1].
    destruct (IH _ Hnd1) as [Hnd2 Hm]. split; [exact Hnd2|].
    intros x. rewrite Hm, elem_of_cons. split.
    + intros [Hx|Hx]; [|tauto]. destruct (set_add_elem _ _ _ Hx); tauto.
    + intros [Hx|[->|Hx]]; [left; apply set_add_keeps; exact Hx|left; exact Hin1|right; exact Hx].
Qed.

Lemma fold_values_spec (L : list (string * list string)) : forall acc, NoDup acc ->
  let r := fold_left (fun acc kv => fold_left (fun s k => set_add k s) (snd kv) acc) L acc in
  NoDup r /\ forall x, x ∈ r <-> x ∈ acc \/ exists kv, kv ∈ L /\ x ∈ snd kv.
Proof.
  induction L as [|kv L IH]; intros acc Hnd r; subst r; simpl.
  - split; [exact Hnd|]. intros x. split; [auto|intros [H1|(kv & H1 & _)]; [exact H1|inversion H1]].
  - destruct (fold_set_add_spec (snd kv) acc Hnd) as [Hnd1 Hm1].
    destruct (IH _ Hnd1) as [Hnd2 Hm2]. split; [exact Hnd2|].
    intros x. rewrite Hm2, Hm1. split.
    + intros [[Hx|Hx]|(kv' & Hk & Hx)]; [left; exact Hx|right; exists kv; split; [left|exact Hx]|].
      right. exists kv'. split; [right; exact Hk|exact Hx].
    + intros [Hx|(kv' & Hk & Hx)]; [left; left; exact Hx|].
      apply elem_of_cons in Hk as [->|Hk]; [left; right; exact Hx|right; exists kv'; auto].
Qed.

Lemma collect_values_spec (ix : gmap string (list string)) :
  NoDup (collect_values ix) /\
  forall x, x ∈ collect_values ix <-> exists t l, ix !! t = Some l /\ x ∈ l.
Proof.
  destruct (fold_values_spec (map_to_list ix) [] (NoDup_nil_2)) as [Hnd Hm].
  split; [exact Hnd|]. intros x. unfold collect_values. rewrite Hm. split.
  - intros [Hx|([t l] & Hk & Hx)]; [inversion Hx|]. apply elem_of_map_to_list in Hk. eauto.
  - intros (t & l & Ht & Hx). right. exists (t, l). split; [apply elem_of_map_to_list; exact Ht|exact Hx].
Qed.

(** [getCacheDebugInfo] reports an unavailable cache as such; it rejects
    when the cache fails or the tag index cannot be read; otherwise it
    returns both indexes with their sizes and the number of distinct keys
    and page URLs they list, without writing anything. *)
Theorem getCacheDebugInfo_counts (w : @World D U) :
  (w_cache w = None -> getCacheDebugInfo w = (Ok (mkDebugInfo false ∅ 0 0 None None None), w, [])) /\
  ((exists b, w_cache w = Some b /\ b_failing b = true) -> exists m, outcome (getCacheDebugInfo w) = Err m) /\
  (ok_world w -> forall m, read_index (store_of w) TAG_INDEX_URL = Err m ->
     outcome (getCacheDebugInfo w) = Err m) /\
  (ok_world w -> forall ix pix, read_index (store_of w) TAG_INDEX_URL = Ok ix ->
     read_index (store_of w) PAGE_INDEX_URL = Ok pix ->
     exists keys urls,
       outcome (getCacheDebugInfo w) =
         Ok (mkDebugInfo true ix (size ix) (length keys) (Some pix) (Some (size pix)) (Some (length urls))) /\
       tasks (getCacheDebugInfo w) = [] /\ store_of (final (getCacheDebugInfo w)) = store_of w /\
       NoDup keys /\ (forall k, k ∈ keys <-> exists t l, ix !! t = Some l /\ k ∈ l) /\
       NoDup urls /\ (forall u, u ∈ urls <-> exists t l, pix !! t = Some l /\ u ∈ l)).
Proof.
  split; [|split; [|split]].
  - intros Hc. unfold getCacheDebugInfo, bind, caches_available. rewrite Hc. reflexivity.
  - intros (b & Hc & Hf). exists "cache.match failed".
    unfold getCacheDebugInfo. erewrite bind_ok by (unfold caches_available; rewrite Hc; reflexivity).
    cbn [negb]. erewrite bind_err; [reflexivity|].
    unfold getTagIndex, bind, cache_match. rewrite Hc, Hf. reflexivity.
  - intros Hok m Hm. pose proof Hok as (b & Hc & _).
    unfold getCacheDebugInfo. erewrite bind_ok by (unfold caches_available; rewrite Hc; reflexivity).
    cbn [negb]. erewrite bind_err; [reflexivity|].
    unfold getTagIndex. rewrite (read_index_ok _ _ Hok), Hm. reflexivity.
  - intros Hok ix pix Hix Hpix. pose proof Hok as (b & Hc & _).
    unfold getCacheDebugInfo. erewrite bind_ok by (unfold caches_available; rewrite Hc; reflexivity).
    cbn [negb]. erewrite bind_ok.
    2:{ unfold getTagIndex. rewrite (read_index_ok _ _ Hok), Hix. reflexivity. }
    erewrite bind_ok.
    2:{ unfold getPageIndex. rewrite (read_index_ok _ _ (with_log_ok _ _ Hok)), with_log_store, Hpix. reflexivity. }
    destruct (collect_values_spec ix) as [Hk1 Hk2]. destruct (collect_values_spec pix) as [Hu1 Hu2].
    exists (collect_values ix), (collect_values pix). unfold outcome, tasks, final, ret; simpl.
    rewrite !with_log_store. auto 10.
Qed.

End DebugProofs.

Section HandlerExtra.
Context {D U : Type}.

(** The purge route always answers: either a 200 success with no error,
    or a failure response with status 400, 405 or 500. *)
Theorem createPurgeHandler_total (request : HttpRequest) (w : @World D U) :
  exists resp, outcome (createPurgeHandler request w) = Ok resp /\
    ((pr_status resp = 200%Z /\ pr_success resp = true /\ pr_error resp = None) \/
     exists status msg, resp = failure_response status msg /\ status ∈ [400%Z; 405%Z; 500%Z]).
Proof.
  unfold createPurgeHandler.
  destruct (negb (String.eqb (req_method request) "POST")).
  { eexists. split; [reflexivity|]. right. do 2 eexists. split; [reflexivity|]. right; left. }
  unfold outcome at 1. unfold bind at 1, lift_res at 1.
  destruct (req_json request) as [body|m]; cbn -[purgeCacheByTags get_field].
  2:{ eexists. split; [reflexivity|]. right. do 2 eexists. split; [reflexivity|]. right; right; left. }
  unfold bind at 1, lift_res at 1.
  destruct (get_field body "tags") as [t|m]; cbn -[purgeCacheByTags get_field].
  2:{ eexists. split; [reflexivity|]. right. do 2 eexists. split; [reflexivity|]. right; right; left. }
  destruct t as [[| | | | l |]|];
    try (eexists; split; [reflexivity|]; right; do 2 eexists; split; [reflexivity|]; left).
  destruct (length (filter_tags l) =? 0)%nat.
  - unfold bind, lift_res, ret. destruct (get_field body "eventId"); cbn.
    + eexists. split; [reflexivity|]. left. auto.
    + eexists. split; [reflexivity|]. right. do 2 eexists. split; [reflexivity|]. right; right; left.
  - destruct (purge_always_resolves (filter_tags l) w) as (r & w' & ts & E).
    unfold bind at 1. rewrite E. unfold bind, lift_res, ret.
    destruct (get_field body "eventId"); cbn.
    + eexists. split; [reflexivity|]. left. auto.
    + eexists. split; [reflexivity|]. right. do 2 eexists. split; [reflexivity|]. right; right; left.
Qed.

End HandlerExtra.

Section LoaderExtra.

Lemma existsb_eqb_in u l : existsb (String.eqb u) l = true <-> u ∈ l.
Proof.
  induction l as [|a l IH]; cbn [existsb].
  - split; [discriminate|intros Hin; inversion Hin].
  - rewrite orb_true_iff, IH, elem_of_cons, String.eqb_eq. split; intros [H1|H1]; auto.
Qed.

(** [collectPageTags] returns nothing and keeps the locals when there are
    no locals or the query has no tags; otherwise it appends to the stored
    tags exactly the new tags not yet stored, saves that list in the
    locals and returns it. *)
Theorem collectPageTags_accumulates (locals : option Locals) (tags : option (list string)) :
  let '(locals', allTags) := collectPageTags locals tags in
  (locals = None \/ has_tags tags = false -> locals' = locals /\ allTags = []) /\
  (forall l, locals = Some l -> has_tags tags = true ->
     let old := default [] (l_sanityPageTags l) in
     (exists extra, allTags = app old extra /\
        forall t, t ∈ extra <-> t ∈ default [] tags /\ t ∉ old) /\
     (forall t, t ∈ allTags <-> t ∈ old \/ t ∈ default [] tags) /\
     (exists l', locals' = Some l' /\ default [] (l_sanityPageTags l') = allTags /\
        l_sanityPageCacheSet l' = l_sanityPageCacheSet l /\
        l_sanityLastLiveEventId l' = l_sanityLastLiveEventId l /\ l_ctx l' = l_ctx l)).
Proof.
  unfold collectPageTags. destruct locals as [l|].
  2:{ split; [auto|intros l' Hl; discriminate]. }
  destruct (has_tags tags) eqn:Ht; cbn [negb].
  2:{ split; [auto|intros l' _ Hn; discriminate]. }
  set (old := default [] (l_sanityPageTags l)).
  set (nt := filter (fun tag => negb (existsb (String.eqb tag) old)) (default [] tags)).
  assert (Hnt : forall t, t ∈ nt <-> t ∈ default [] tags /\ t ∉ old).
  { intros t. subst nt. rewrite list_elem_of_filter.
    destruct (existsb (String.eqb t) old) eqn:E; simpl.
    - apply existsb_eqb_in in E. split; [intros [[] _]|intros [_ Hn]; contradiction].
    - split; [intros [_ H1]; split; [exact H1|]|intros [H1 _]; split; [exact I|exact H1]].
      intros Hin. apply existsb_eqb_in in Hin. congruence. }
  assert (Hunion : forall t, t ∈ app old nt <-> t ∈ old \/ t ∈ default [] tags).
  { intros t. rewrite elem_of_app, Hnt. destruct (decide (t ∈ old)); tauto. }
  destruct (0 <? length nt)%nat eqn:El.
  - split; [intros [H1|H1]; discriminate|]. intros l0 Hl _. injection Hl as <-. fold old.
    split; [exists nt; split; [reflexivity|exact Hnt]|split; [exact Hunion|]].
    eexists. split; [reflexivity|]. simpl. auto.
  - split; [intros [H1|H1]; discriminate|]. intros l0 Hl _. injection Hl as <-. fold old.
    apply Nat.ltb_ge in El. destruct nt as [|x nt']; [|simpl in El; lia].
    split; [exists []; split; [symmetry; apply app_nil_r|]|split].
    + intros t. rewrite <- Hnt. split; intros Hin; inversion Hin.
    + intros t. rewrite <- Hunion, app_nil_r. reflexivity.
    + exists l. auto.
Qed.

End LoaderExtra.

Section LiveEventExtra.
Context {T : Type}.

(** Reading the last live event id changes neither the cache nor the
    background tasks: the id in locals wins; a cookie is copied into locals
    and deleted (a rejection when there are no locals); and a second read
    after a successful one returns the same id on the same state. *)
Theorem readLastLiveEventId_handoff (a : AstroGlobal) (w : @World (SanityResponse T) (SanityResponse T)) :
  let c := a_cookies a !! LAST_LIVE_EVENT_ID_COOKIE in
  let x := readLastLiveEventId (a, w) in
  snd (final x) = w /\ tasks x = [] /\
  (forall id, outcome x = Ok id -> readLastLiveEventId (final x) = (Ok id, final x, [])) /\
  (str_truthy (locals_lastLiveEventId a) = true ->
     x = (Ok (locals_lastLiveEventId a), (a, w), [])) /\
  (str_truthy (locals_lastLiveEventId a) = false -> str_truthy c = false -> x = (Ok c, (a, w), [])) /\
  (str_truthy (locals_lastLiveEventId a) = false -> str_truthy c = true ->
     (a_locals a = None -> exists m, outcome x = Err m) /\
     (a_locals a <> None -> outcome x = Ok c /\
        a_cookies (fst (final x)) !! LAST_LIVE_EVENT_ID_COOKIE = None /\
        locals_lastLiveEventId (fst (final x)) = c)).
Proof.
  intros c x. subst x. unfold readLastLiveEventId. cbv beta iota zeta. fold c.
  destruct (str_truthy (locals_lastLiveEventId a)) eqn:E1.
  - unfold outcome, final, tasks; simpl. split; [reflexivity|split; [reflexivity|split; [|split; [auto|split; intros; discriminate]]]].
    intros id Hid. injection Hid as <-. rewrite E1. reflexivity.
  - destruct (str_truthy c) eqn:E2.
    + destruct (a_locals a) as [l|] eqn:El.
      * unfold outcome, final, tasks; simpl. split; [reflexivity|split; [reflexivity|split; [|split; [discriminate|split; [discriminate|]]]]].
        -- intros id Hid. injection Hid as <-. unfold locals_lastLiveEventId; simpl. rewrite E2. reflexivity.
        -- intros _ _. split; [discriminate|]. intros _. split; [reflexivity|split; [apply lookup_delete_eq|reflexivity]].
      * unfold outcome, final, tasks; simpl. split; [reflexivity|split; [reflexivity|split; [intros id Hid; discriminate|split; [discriminate|split; [discriminate|]]]]].
        intros _ _. split; [eauto|intros Hn; contradiction].
    + unfold outcome, final, tasks; simpl. split; [reflexivity|split; [reflexivity|split; [|split; [discriminate|split; [auto|intros _ Hn; discriminate]]]]].
      intros id Hid. injection Hid as <-. rewrite E1. fold c. rewrite E2. reflexivity.
Qed.

End LiveEventExtra.


Section PageHeaders.

Lemma num_plain a : num_char a = true -> plain_char a = true.
Proof.
  intros Ha. destruct (num_char_safe a Ha) as (H1 & H2 & H3). unfold plain_char. rewrite H1, H2, H3. reflexivity.
Qed.

Lemma directive_num name A m :
  all_chars plain_char name = true -> toLowerCase name = name -> all_chars num_char A = true ->
  directive_of (" " +:+ name +:+ "=" +:+ A) m = <[name := DNum (parseInt10 A)]> m.
Proof.
  intros Hn Hl HA.
  assert (Hw : all_chars (fun a => negb (is_ws a)) (name +:+ "=" +:+ A) = true).
  { rewrite all_chars_app. apply andb_true_intro. split.
    - revert Hn. apply all_chars_mono. intros a Ha. unfold plain_char in Ha.
      apply andb_prop in Ha as [_ Ha]. exact Ha.
    - simpl. revert HA. apply all_chars_mono. intros a Ha. apply (num_char_safe a Ha). }
  unfold directive_of, trim.
  change (trim_start (" " +:+ name +:+ "=" +:+ A)) with (trim_start (name +:+ "=" +:+ A)).
  rewrite (trim_start_id _ Hw), (trim_end_id _ Hw).
  change ("=" +:+ A) with (String "=" A).
  rewrite split_on_app.
  - rewrite split_on_none, Hl; [reflexivity|].
    revert HA. apply all_chars_mono. intros a Ha. apply (num_char_safe a Ha).
  - revert Hn. apply all_chars_mono. intros a Ha. unfold plain_char in Ha.
    apply andb_prop in Ha as [Ha _]. apply andb_prop in Ha as [_ Ha]. exact Ha.
Qed.

Lemma directive_public m : directive_of "public" m = <["public" := DTrue]> m.
Proof. reflexivity. Qed.

Lemma directive_must_revalidate m : directive_of " must-revalidate" m = <["must-revalidate" := DTrue]> m.
Proof. reflexivity. Qed.

Lemma no_comma_num A : all_chars num_char A = true -> all_chars (fun a => negb (Ascii.eqb a ",")) A = true.
Proof. apply all_chars_mono. intros a Ha. apply (num_char_safe a Ha). Qed.

Lemma cdn_header_directives A B : all_chars num_char A = true -> all_chars num_char B = true ->
  let d := parseCacheControl (Some ("public, max-age=" +:+ A +:+ ", stale-while-revalidate=" +:+ B)) in
  d !! "public" = Some DTrue /\ num_directive d "max-age" = Some (parseInt10 A) /\
  num_directive d "stale-while-revalidate" = Some (parseInt10 B).
Proof.
  intros HA HB d.
  assert (Hd : d = directive_of (" " +:+ "stale-while-revalidate" +:+ "=" +:+ B)
                     (directive_of (" " +:+ "max-age" +:+ "=" +:+ A) (directive_of "public" ∅))).
  { subst d.
    assert (Hh : "public, max-age=" +:+ A +:+ ", stale-while-revalidate=" +:+ B
      = "public" +:+ String "," ((" " +:+ "max-age" +:+ "=" +:+ A) +:+
                                  String "," (" " +:+ "stale-while-revalidate" +:+ "=" +:+ B))).
    { rewrite !str_app_assoc. reflexivity. }
    rewrite Hh, parseCacheControl_nonempty by discriminate.
    rewrite split_on_app by reflexivity.
    rewrite split_on_app by (rewrite !all_chars_app, (no_comma_num A HA); reflexivity).
    rewrite (split_on_none "," (" " +:+ "stale-while-revalidate" +:+ "=" +:+ B))
      by (rewrite !all_chars_app, (no_comma_num B HB); reflexivity).
    reflexivity. }
  rewrite Hd, directive_public, !directive_num by (assumption || reflexivity).
  unfold num_directive. split; [|split].
  - rewrite !lookup_insert_ne by discriminate. apply lookup_insert_eq.
  - rewrite lookup_insert_ne by discriminate. rewrite lookup_insert_eq. reflexivity.
  - rewrite lookup_insert_eq. reflexivity.
Qed.

Lemma browser_header_directives B : all_chars num_char B = true ->
  let d := parseCacheControl (Some ("public, max-age=" +:+ B +:+ ", must-revalidate")) in
  d !! "public" = Some DTrue /\ num_directive d "max-age" = Some (parseInt10 B) /\
  d !! "must-revalidate" = Some DTrue.
Proof.
  intros HB d.
  assert (Hd : d = directive_of " must-revalidate"
                     (directive_of (" " +:+ "max-age" +:+ "=" +:+ B) (directive_of "public" ∅))).
  { subst d.
    assert (Hh : "public, max-age=" +:+ B +:+ ", must-revalidate"
      = "public" +:+ String "," ((" " +:+ "max-age" +:+ "=" +:+ B) +:+ String "," " must-revalidate")).
    { rewrite !str_app_assoc. reflexivity. }
    rewrite Hh, parseCacheControl_nonempty by discriminate.
    rewrite split_on_app by reflexivity.
    rewrite split_on_app by (rewrite !all_chars_app, (no_comma_num B HB); reflexivity).
    reflexivity. }
  rewrite Hd, directive_public, directive_num, directive_must_revalidate by (assumption || reflexivity).
  unfold num_directive. split; [|split].
  - rewrite !lookup_insert_ne by discriminate. apply lookup_insert_eq.
  - rewrite lookup_insert_ne by discriminate. rewrite lookup_insert_eq. reflexivity.
  - apply lookup_insert_eq.
Qed.

Lemma split_join tags : tags <> [] ->
  Forall (fun t => all_chars (fun a => negb (Ascii.eqb a ",")) t = true) tags ->
  split_on "," (join "," tags) = tags.
Proof.
  induction tags as [|x [|y ys] IH]; intros Hne Hf; [contradiction| |].
  - inversion Hf; subst. simpl. apply split_on_none. assumption.
  - inversion Hf; subst.
    change (join "," (x :: y :: ys)) with (x +:+ String "," (join "," (y :: ys))).
    rewrite split_on_app by assumption. rewrite IH by (discriminate || assumption). reflexivity.
Qed.

(** On a cacheable page whose headers are not yet set,
    [setPageCacheHeaders] writes a CDN header parsing to public with the
    page max-age and stale window, a browser header parsing to public with
    the browser max-age and must-revalidate, and the tags joined by commas
    (which split back into them); other headers are untouched and the
    locals record that headers were set. The ages are integers below
    [10^21] in absolute value, which JavaScript writes in plain digits. *)
Theorem setPageCacheHeaders_headers (a : AstroGlobal) (tags : list string) (options : PageCacheOptions)
    (h : gmap string string) :
  let M := default DEFAULT_PAGE_CACHE_MAX_AGE (pc_maxAge options) in
  let S := default DEFAULT_PAGE_CACHE_SWR (pc_staleWhileRevalidate options) in
  let B := default DEFAULT_BROWSER_CACHE_MAX_AGE (pc_browserMaxAge options) in
  a_headers a = Some h -> hasPageCacheHeadersSet (a_locals a) = false ->
  default false (pc_disabled options) = false -> shouldSkipPageCache a = false ->
  (- 10 ^ 21 < M < 10 ^ 21)%Z -> (- 10 ^ 21 < S < 10 ^ 21)%Z -> (- 10 ^ 21 < B < 10 ^ 21)%Z ->
  let a' := setPageCacheHeaders a tags options in
  (exists v, header a' "cdn-cache-control" = Some v /\
     let d := parseCacheControl (Some v) in
     d !! "public" = Some DTrue /\ num_directive d "max-age" = Some (JNum M) /\
     num_directive d "stale-while-revalidate" = Some (JNum S)) /\
  (exists v, header a' "cache-control" = Some v /\
     let d := parseCacheControl (Some v) in
     d !! "public" = Some DTrue /\ num_directive d "max-age" = Some (JNum B) /\
     d !! "must-revalidate" = Some DTrue) /\
  (tags <> [] -> Forall (fun t => all_chars (fun c => negb (Ascii.eqb c ",")) t = true) tags ->
     exists v, header a' "x-sanity-tags" = Some v /\ split_on "," v = tags) /\
  (tags = [] -> header a' "x-sanity-tags" = h !! "x-sanity-tags") /\
  (forall n, n <> "cdn-cache-control" -> n <> "cache-control" -> n <> "x-sanity-tags" ->
     header a' n = h !! n) /\
  (a_locals a <> None -> hasPageCacheHeadersSet (a_locals a') = true).
Proof.
  intros M S B Hh Hset Hdis Hskip HM HS HB a'. subst a'.
  unfold setPageCacheHeaders. rewrite Hh, Hset, Hdis, Hskip. fold M S B.
  unfold header, with_locals, with_headers, headers_set. cbn [a_headers a_locals].
  change (toLowerCase "CDN-Cache-Control") with "cdn-cache-control".
  change (toLowerCase "Cache-Control") with "cache-control".
  change (toLowerCase "X-Sanity-Tags") with "x-sanity-tags".
  set (h2 := <["cache-control" := "public, max-age=" +:+ js_num_str B +:+ ", must-revalidate"]>
               (<["cdn-cache-control" := "public, max-age=" +:+ js_num_str M +:+ ", stale-while-revalidate="
                   +:+ js_num_str S]> h)).
  assert (Hh3 : forall n, n <> "x-sanity-tags" ->
    (if (0 <? length tags)%nat then <["x-sanity-tags" := join "," tags]> h2 else h2) !! n = h2 !! n).
  { intros n Hn. destruct (0 <? length tags)%nat; [apply lookup_insert_ne; congruence|reflexivity]. }
  split; [|split; [|split; [|split; [|split]]]].
  - eexists. split.
    + rewrite Hh3 by discriminate. subst h2. rewrite lookup_insert_ne by discriminate.
      apply lookup_insert_eq.
    + destruct (cdn_header_directives (js_num_str M) (js_num_str S)) as (E1 & E2 & E3);
        try apply js_num_str_chars.
      rewrite <- (parseInt10_js_num_str M), <- (parseInt10_js_num_str S) by assumption. auto.
  - eexists. split.
    + rewrite Hh3 by discriminate. subst h2. apply lookup_insert_eq.
    + destruct (browser_header_directives (js_num_str B)) as (E1 & E2 & E3); try apply js_num_str_chars.
      rewrite <- (parseInt10_js_num_str B) by assumption. auto.
  - intros Hne Hf. destruct tags as [|t ts]; [contradiction|]. cbn [length Nat.ltb Nat.leb].
    eexists. split; [apply lookup_insert_eq|]. apply split_join; assumption.
  - intros ->. simpl. subst h2. rewrite !lookup_insert_ne by discriminate. reflexivity.
  - intros n H1 H2 H3. rewrite Hh3 by exact H3. subst h2. rewrite !lookup_insert_ne by congruence. reflexivity.
  - intros Hl. destruct (a_locals a); [reflexivity|contradiction].
Qed.

End PageHeaders.


Section LoaderHit.
Context {T P : Type} `{JsDate} `{KeyCodec P}.
Local Abbreviation SR := (SanityResponse T).
Local Abbreviation LW := (@World SR SR).

Lemma cachedFetch_fresh_run q (p : P) (f : SR -> SR * option (list string)) opts (w : LW) r e :
  entry_at q p opts w r -> r_body r = BEntry e -> isFresh r (w_now w) = true ->
  exists w', cachedFetch true q p f opts w = (Ok (mkResult (ce_data e) HIT (Some (getCacheAge r (w_now w)))), w', []) /\
    w_calls w' = w_calls w.
Proof.
  intros (b & Hc & Hf & Hk) Hb Hfr.
  destruct w as [c now up calls log]; simpl in *; subst c.
  unfold cachedFetch, bind, try_catch, caches_available, cache_match, Date_now,
    response_json_entry, with_log; simpl.
  rewrite Hf, Hk, Hb; simpl. rewrite Hfr; simpl. eauto.
Qed.

(** Outside visual editing and live mode, a query whose cached entry is
    fresh is answered from the cache as a HIT with the entry's data, sync
    tags and age, without any request upstream. *)
Theorem loadQuery_fresh_hit (config : InitSanityConfig) (query : string) (params : P)
    (cacheOption : QueryCacheOption) (pageCacheOption : PageCacheOption)
    (a : AstroGlobal) (l : Locals) (w : LW) (r : @Response SR) (e : @CacheEntry SR) :
  let opts := merge_cache_options (merge_cache_options DEFAULT_CACHE_OPTIONS (cfg_cache config))
                (match cacheOption with QCOptions o => Some o | _ => None end) in
  isVisualEditingEnabled a = false ->
  str_truthy (locals_lastLiveEventId a) = false ->
  str_truthy (a_cookies a !! LAST_LIVE_EVENT_ID_COOKIE) = false ->
  cacheOption <> QCOff -> a_locals a = Some l -> l_ctx l = true ->
  entry_at query params opts w r -> r_body r = BEntry e -> isFresh r (w_now w) = true ->
  let x := loadQuery config query params cacheOption pageCacheOption (a, w) in
  outcome x = Ok (mkLoadQueryResult (sr_result (ce_data e)) published (LoadCached HIT)
                    (Some (getCacheAge r (w_now w))) (sr_syncTags (ce_data e))) /\
  w_calls (snd (final x)) = w_calls w /\ Forall task_ok (tasks x).
Proof.
  intros opts Hve Hll Hck Hqc Hl Hctx Hat Hb Hfr x. subst x.
  pose (JF := fun w' : LW => w_calls w' = w_calls w).
  assert (Hh : hoare (fun s => s = (a, w)) (loadQuery config query params cacheOption pageCacheOption)
     (fun v s => v = mkLoadQueryResult (sr_result (ce_data e)) published (LoadCached HIT)
                    (Some (getCacheAge r (w_now w))) (sr_syncTags (ce_data e)) /\ JF (snd s))).
  { unfold loadQuery.
    apply (h_bind _ _ (fun a' s => a' = a /\ s = (a, w))).
    { intros s ->. exists a, (a, w), []. split; [reflexivity|split; [split; reflexivity|constructor]]. }
    intros a'. apply h_fact. intros ->.
    apply (h_bind _ _ (fun lid s => lid = a_cookies a !! LAST_LIVE_EVENT_ID_COOKIE /\ s = (a, w))).
    { intros s ->. unfold readLastLiveEventId. cbv beta iota zeta. rewrite Hll, Hck.
      do 3 eexists. split; [reflexivity|split; [split; reflexivity|constructor]]. }
    intros lid. apply h_fact. intros ->. rewrite Hve, Hck, Hl, Hctx. cbv zeta.
    replace (match cacheOption with QCOff => false | _ => true end) with true
      by (destruct cacheOption; [contradiction|reflexivity|reflexivity]).
    cbn [negb andb]. fold opts.
    apply (h_bind _ _ (fun v s => v = (sr_result (ce_data e), LoadCached HIT,
                                      Some (getCacheAge r (w_now w)), sr_syncTags (ce_data e)) /\ JF (snd s))).
    { apply h_rethrow.
      apply (h_bind _ _ (fun v s => v = mkResult (ce_data e) HIT (Some (getCacheAge r (w_now w))) /\ JF (snd s))).
      { apply h_onW. intros r0 w0 E. injection E as -> ->.
        destruct (cachedFetch_fresh_run query params split_response opts w r e Hat Hb Hfr) as (w' & E & Hc).
        rewrite E. do 3 eexists. split; [reflexivity|split; [split; [reflexivity|exact Hc]|constructor]]. }
      intros v. apply h_fact. intros ->. apply h_ret. intros s Hj. split; [reflexivity|exact Hj]. }
    intros v. apply h_fact. intros ->. cbv beta iota.
    apply (h_bind _ _ (fun _ s => JF (snd s))).
    { intros s Hj. exists (fst s), s, []. split; [reflexivity|split; [exact Hj|constructor]]. }
    intros a2. destruct (collectPageTags (a_locals a2) (sr_syncTags (ce_data e))) as [locals' allPageTags].
    apply (h_bind _ _ (fun _ s => JF (snd s))); [apply h_modR|].
    intros u. apply (h_bind _ _ (fun _ s => JF (snd s))).
    { match goal with |- hoare _ (if ?b then _ else _) _ => destruct b end;
        [apply h_modR|apply h_ret; auto]. }
    intros u'. apply (h_bind _ _ (fun _ s => JF (snd s))).
    { match goal with |- hoare _ (if ?b then _ else _) _ => destruct b end; [|apply h_ret; auto].
      apply h_onW. intros r0 w0 Hj.
      match goal with |- context [registerPageWithTags ?c ?u ?t w0] =>
        destruct (registerPage_ok c u t w0) as (ts & E & Hts) end.
      rewrite E. do 3 eexists. split; [reflexivity|split; [exact Hj|exact Hts]]. }
    intros u''. apply h_ret. intros s Hj. split; [reflexivity|exact Hj]. }
  destruct (Hh (a, w) eq_refl) as (v & s' & ts & E & [Hv Hc] & Hts).
  unfold outcome, final, tasks. rewrite E. simpl. subst v. auto.
Qed.

End LoaderHit.


Lemma createCacheResponse_freshness_witness :
  getCacheAge demo_entry_response 170000 = JNum 70 /\
  isFresh demo_entry_response 170000 = false /\ isStaleButValid demo_entry_response 170000 = true.
Proof.
  apply (@createCacheResponse_freshness nat demo_date (mkEntry 7 (Some ["t"])) 60 300 100000 170000);
    [lia|lia|vm_compute; reflexivity|vm_compute; discriminate].
Defined.

Lemma cachedFetch_miss_then_hit_witness :
  let x := cachedFetch true "q" tt id demo_opts (demo_world ∅ 1000 (fun _ => Ok (7, Some ["t"]))) in
  let w' := run_tasks (tasks x) (final x) in
  outcome (cachedFetch true "q" tt id demo_opts w') = Ok (mkResult 7 HIT (Some (JNum 0))).
Proof.
  destruct (@cachedFetch_miss_then_hit nat (nat * option (list string)) unit demo_date demo_keys
              "q" tt id demo_opts (demo_world ∅ 1000 (fun _ => Ok (7, Some ["t"]))) (7, Some ["t"])
              ltac:(eexists; split; reflexivity) eq_refl ltac:(vm_compute; discriminate) eq_refl
              ltac:(cbn; lia) ltac:(vm_compute; reflexivity)
              ltac:(vm_compute; discriminate)) as (_ & _ & Hy & _).
  exact Hy.
Defined.

Lemma cachedFetch_miss_fetch_error_witness :
  let x := cachedFetch true "q" tt id demo_opts offline_once_world in
  w_calls (final x) = 2%nat /\ tasks x = [] /\ store_of (final x) = ∅ /\
  outcome x = Ok (mkResult 8 MISS None).
Proof.
  exact (@cachedFetch_miss_fetch_error nat (nat * option (list string)) unit demo_date demo_keys
           "q" tt id demo_opts offline_once_world "offline"
           ltac:(eexists; split; reflexivity) eq_refl eq_refl).
Defined.

Lemma addToIndex_store_witness :
  let x := addToTagIndex "k2" ["t"] tagged_world in
  outcome x = Ok tt /\ tasks x = [] /\ ok_world (final x) /\
  store_of (final x) = <[TAG_INDEX_URL := index_response {["t" := [demo_key; "k2"]]}]> (store_of tagged_world).
Proof.
  destruct (addToIndex_store "k2" demo_page ["t"] tagged_world ltac:(eexists; split; reflexivity))
    as [Hs _].
  destruct (Hs {["t" := [demo_key]]} {["t" := [demo_key; "k2"]]}) as (H1 & H2 & H3 & H4);
    [vm_compute; reflexivity|vm_compute; reflexivity|].
  split; [exact H1|split; [exact H2|split; [exact H3|exact H4]]].
Defined.

Lemma purgeCacheByTags_reports_witness :
  exists r, outcome (purgeCacheByTags ["t"] tagged_world) = Ok r /\ purgedTags r = ["t"].
Proof.
  destruct (purgeCacheByTags_reports ["t"] tagged_world {["t" := [demo_key]]}
              ltac:(intros t Ht; apply list_elem_of_singleton in Ht; subst t; apply not_prototype_key; reflexivity)
              ltac:(eexists; split; reflexivity) ltac:(vm_compute; reflexivity)) as (r & Ho & Ht & _).
  exists r. split; [exact Ho|]. rewrite Ht. vm_compute. reflexivity.
Defined.

Lemma purgeCacheByTags_indexes_witness :
  exists ix', read_index (store_of (final (purgeCacheByTags ["t"] tagged_world))) TAG_INDEX_URL = Ok ix' /\
    ix' !! "t" = None.
Proof.
  destruct (purgeCacheByTags_indexes ["t"] tagged_world {["t" := [demo_key]]} ∅
              ltac:(intros t Ht; apply list_elem_of_singleton in Ht; subst t; apply not_prototype_key; reflexivity)
              ltac:(eexists; split; reflexivity) ltac:(vm_compute; reflexivity)
              ltac:(vm_compute; reflexivity)
              ltac:(intros t l E; apply lookup_singleton_Some in E as [_ <-];
                    rewrite list_elem_of_singleton; intros E; vm_compute in E; discriminate E)
              ltac:(intros t l E; rewrite lookup_empty in E; discriminate E))
    as (ix' & pix' & Hix & _ & Hl).
  exists ix'. split; [exact Hix|]. rewrite (proj1 (Hl "t")). reflexivity.
Defined.

Lemma setPageCacheHeaders_headers_witness :
  exists v, header (setPageCacheHeaders blog_astro ["t"] page_cache_on) "x-sanity-tags" = Some v /\
    split_on "," v = ["t"].
Proof.
  destruct (setPageCacheHeaders_headers blog_astro ["t"] page_cache_on ∅ eq_refl eq_refl eq_refl
              ltac:(vm_compute; reflexivity) ltac:(vm_compute; split; reflexivity)
              ltac:(vm_compute; split; reflexivity) ltac:(vm_compute; split; reflexivity))
    as (_ & _ & Ht & _).
  apply Ht; [discriminate|repeat constructor].
Defined.

Lemma loadQuery_fresh_hit_witness :
  outcome (loadQuery demo_config "q" tt QCDefault PCDefault (blog_astro, hit_world))
  = Ok (mkLoadQueryResult 5 published (LoadCached HIT) (Some (JNum 0)) (Some ["t"])).
Proof.
  rewrite (proj1 (@loadQuery_fresh_hit nat unit demo_date demo_keys demo_config "q" tt QCDefault PCDefault
                    blog_astro (mkLocals None false None true) hit_world
                    (createCacheResponse (mkEntry demo_sanity_response (Some ["t"])) 86400 604800 1000)
                    (mkEntry demo_sanity_response (Some ["t"]))
                    eq_refl eq_refl eq_refl ltac:(discriminate) eq_refl eq_refl
                    ltac:(eexists; split; [reflexivity|split; [reflexivity|vm_compute; reflexivity]])
                    eq_refl ltac:(vm_compute; reflexivity))).
  vm_compute. reflexivity.
Defined.
